(** * ComponentUID: component unique identifiers of a model tree

    A shallow embedding of [pyomo/core/base/component_uid.py].  A CUID is
    the tuple [_cids] of segments [(name, idx, types)], stored leaf first.
    The development follows the layout of the class: the symbol table and
    the string codec, identifier generation from a live component and from
    a slice call stack, resolution, enumeration and matching. *)

From Stdlib Require Import List String Ascii ZArith Lia Bool Arith.
From Stdlib Require Import DecimalString DecimalZ.
Import ListNotations.

Local Open Scope string_scope.
Local Open Scope list_scope.

Notation "s1 +:+ s2" := (String.append s1 s2)
  (at level 60, right associativity).

(** ** Exceptions and generators *)

(** The exception classes the module raises or lets escape. *)
Inductive exn :=
| ValueError | NotImplementedError | KeyError | AttributeError
| IndexError | TypeError | NameError.

Inductive result (A : Type) :=
| Ok (a : A)
| Raise (e : exn).
Arguments Ok {A} a.
Arguments Raise {A} e.

Definition bind {A B} (r : result A) (k : A -> result B) : result B :=
  match r with
  | Ok a => k a
  | Raise e => Raise e
  end.

Notation "x <- r ;; k" := (bind r (fun x => k))
  (at level 61, r at next level, right associativity).
Notation "' p <- r ;; k" := (bind r (fun p => k))
  (at level 61, p pattern, r at next level, right associativity).

(** A generator that has been run to its end: the values it yielded, in
    order, and the exception that ended it, if one did.  A consumer that
    stops early only looks at a prefix of [yielded]. *)
Record gen (A : Type) := Gen { yielded : list A; raised : option exn }.
Arguments Gen {A} yielded raised.
Arguments yielded {A} g.
Arguments raised {A} g.

Definition gen_done {A} (l : list A) : gen A := Gen l None.
Definition gen_raise {A} (e : exn) : gen A := Gen [] (Some e).

(** [yield x] followed by the rest of the generator body. *)
Definition gen_yield {A} (x : A) (g : gen A) : gen A :=
  Gen (x :: yielded g) (raised g).

(** Sequencing of two generator bodies: the second runs only when the
    first ends without an exception. *)
Definition gen_seq {A} (g1 g2 : gen A) : gen A :=
  match raised g1 with
  | Some e => g1
  | None => Gen (yielded g1 ++ yielded g2) (raised g2)
  end.

(** A statement that may raise, followed by a generator body. *)
Definition gen_bind {A B} (r : result A) (k : A -> gen B) : gen B :=
  match r with
  | Ok a => k a
  | Raise e => gen_raise e
  end.

(** [tuple(g)]: the yielded values, or the exception. *)
Definition tuple_of {A} (g : gen A) : result (list A) :=
  match raised g with
  | Some e => Raise e
  | None => Ok (yielded g)
  end.

(** ** Python strings *)

(** A string is a sequence of characters, each standing for its code
    point; the characters are those with code points below 256. *)

Definition str_len (s : string) : nat := String.length s.

(** [c in s] for a one-character [c]. *)
Fixpoint char_in (c : ascii) (s : string) : bool :=
  match s with
  | EmptyString => false
  | String d s' => Ascii.eqb c d || char_in c s'
  end.

(** [s[-1]]; [None] stands for the IndexError on the empty string. *)
Fixpoint last_char (s : string) : option ascii :=
  match s with
  | EmptyString => None
  | String c EmptyString => Some c
  | String _ s' => last_char s'
  end.

(** [s[:-1]] *)
Fixpoint drop_last (s : string) : string :=
  match s with
  | EmptyString => EmptyString
  | String _ EmptyString => EmptyString
  | String c s' => String c (drop_last s')
  end.

(** [s[j]] for [j >= 0]. *)
Definition char_at (s : string) (j : nat) : option ascii := String.get j s.

(** [s.split(sep)] for a one-character separator. *)
Fixpoint split (sep : ascii) (s : string) : list string :=
  match s with
  | EmptyString => [EmptyString]
  | String c s' =>
      if Ascii.eqb c sep then EmptyString :: split sep s'
      else match split sep s' with
           | [] => [String c EmptyString]
           | t :: ts => String c t :: ts
           end
  end.

(** [s.split(sep, 1)] *)
Fixpoint split1 (sep : ascii) (s : string) : list string :=
  match s with
  | EmptyString => [EmptyString]
  | String c s' =>
      if Ascii.eqb c sep then [EmptyString; s']
      else match split1 sep s' with
           | [] => [String c EmptyString]
           | t :: ts => String c t :: ts
           end
  end.

(** [sep.join(l)] *)
Fixpoint join (sep : string) (l : list string) : string :=
  match l with
  | [] => EmptyString
  | [s] => s
  | s :: l' => s +:+ sep +:+ join sep l'
  end.

(** [s.lstrip(c)], [s.rstrip(c)] and [s.strip(c)] for a one-character [c]. *)
Fixpoint lstrip_char (c : ascii) (s : string) : string :=
  match s with
  | EmptyString => EmptyString
  | String d s' => if Ascii.eqb d c then lstrip_char c s' else s
  end.

Fixpoint rstrip_char (c : ascii) (s : string) : string :=
  match s with
  | EmptyString => EmptyString
  | String d s' =>
      match rstrip_char c s' with
      | EmptyString => if Ascii.eqb d c then EmptyString else String d EmptyString
      | r => String d r
      end
  end.

Definition strip_char (c : ascii) (s : string) : string :=
  rstrip_char c (lstrip_char c s).

(** [s.find(c, start)]; [None] stands for [-1]. *)
Fixpoint find_char (c : ascii) (s : string) (start : nat) : option nat :=
  match s with
  | EmptyString => None
  | String d s' =>
      match start with
      | O => if Ascii.eqb d c then Some O
             else option_map S (find_char c s' O)
      | S k => option_map S (find_char c s' k)
      end
  end.

(** White space as [int()] strips it.  A character stands for its
    code point, below 256; of these [int()] skips tab to carriage
    return, the space, NEL and the no-break space. *)
Definition is_space (c : ascii) : bool :=
  match c with
  | " " | "009" | "010" | "011" | "012" | "013" | "133" | "160" => true
  | _ => false
  end%char.

Fixpoint lstrip_space (s : string) : string :=
  match s with
  | EmptyString => EmptyString
  | String d s' => if is_space d then lstrip_space s' else s
  end.

Fixpoint rstrip_space (s : string) : string :=
  match s with
  | EmptyString => EmptyString
  | String d s' =>
      match rstrip_space s' with
      | EmptyString => if is_space d then EmptyString else String d EmptyString
      | r => String d r
      end
  end.

(** ** Index values *)

(** The values an index position can hold: the two primitive types of
    [tList] that occur as keys, [None] (the key of a scalar component and
    the representative of the types outside [tList]), slices
    [slice(stop)], written [slice(None, stop, None)], with [slice(None)]
    as [VSlice VNone], and [Ellipsis]. *)
Inductive pyval :=
| VInt (z : Z)
| VStr (s : string)
| VNone
| VSlice (stop : pyval)
| VEllipsis.

Fixpoint pyval_eqb (a b : pyval) : bool :=
  match a, b with
  | VInt x, VInt y => Z.eqb x y
  | VStr x, VStr y => String.eqb x y
  | VNone, VNone => true
  | VSlice x, VSlice y => pyval_eqb x y
  | VEllipsis, VEllipsis => true
  | _, _ => false
  end.

(** [str(z)] for an integer. *)
Definition str_of_int (z : Z) : string :=
  NilZero.string_of_int (Z.to_int z).

(** The digits of a numeral with the underscores that group them taken
    out.  An underscore may stand between two digits only: the result
    is [None] when one leads, trails or follows another.
    [after_digit] tells whether the previous character was one that is
    not an underscore. *)
Fixpoint ungroup (after_digit : bool) (s : string) : option string :=
  match s with
  | EmptyString => if after_digit then Some EmptyString else None
  | String c s' =>
      if Ascii.eqb c "_" then
        if after_digit then ungroup false s' else None
      else option_map (String c) (ungroup true s')
  end.

(** [int(s)] for a string, as Python 3.6 and later read it: optional
    surrounding white space, an optional sign and a non-empty run of
    decimal digits in which single underscores may separate digits;
    anything else is a ValueError.  Among the characters below 256 the
    decimal digits are the ASCII ones. *)
Definition int_of_str (s : string) : result Z :=
  let t := rstrip_space (lstrip_space s) in
  let digits (sign : Z) (d : string) :=
    match ungroup false d with
    | Some d' =>
        match NilZero.uint_of_string d' with
        | Some u => Ok (sign * Z.of_uint u)%Z
        | None => Raise ValueError
        end
    | None => Raise ValueError
    end in
  match t with
  | String "+" d => digits 1%Z d
  | String "-" d => digits (-1)%Z d
  | _ => digits 1%Z t
  end.

(** [repr] of a value inside the text of a slice; exact for strings
    without quotes, backslashes and non-printable characters. *)
Fixpoint py_str (v : pyval) : string :=
  match v with
  | VInt z => str_of_int z
  | VStr s => s
  | VNone => "None"
  | VSlice stop =>
      let r := match stop with
               | VStr s => "'" +:+ s +:+ "'"
               | _ => py_str stop
               end in
      "slice(None, " +:+ r +:+ ", None)"
  | VEllipsis => "Ellipsis"
  end.

(** [int(v)] *)
Definition py_int (v : pyval) : result pyval :=
  match v with
  | VInt z => Ok (VInt z)
  | VStr s => z <- int_of_str s ;; Ok (VInt z)
  | _ => Raise TypeError
  end.

(** ** The symbol table: [tList], [tKeys], [tDict] *)

Inductive pytype := int | str | slice.

Definition tList : list pytype := [int; str; slice].
Definition tKeys : string := "#$*".

(** Calling a member of [tList] on a value. *)
Definition cast (t : pytype) (v : pyval) : result pyval :=
  match t with
  | int => py_int v
  | str => Ok (VStr (py_str v))
  | slice => Ok (VSlice v)
  end.

(** [tDict] read from a type to its key character: [tDict.get(type(x), '?')]. *)
Definition type_key (v : pyval) : ascii :=
  match v with
  | VInt _ => "#"
  | VStr _ => "$"
  | VSlice _ => "*"
  | _ => "?"
  end%char.

(** [tDict] read from a key character to its type. *)
Definition tDict_type (c : ascii) : option pytype :=
  (if Ascii.eqb c "#" then Some int
   else if Ascii.eqb c "$" then Some str
   else if Ascii.eqb c "*" then Some slice
   else None)%char.

(** ** Segments *)

(** The index field of a segment: the string ['**'] or a tuple. *)
Inductive cidx :=
| IdxAll
| IdxTuple (args : list pyval).

(** A segment [(name, idx, types)]; [types] is [None] or a string. *)
Record cid := Cid { cname : string; cargs : cidx; ctypes : option string }.

(** The two-character string ['**'] read as a sequence. *)
Definition cidx_items (i : cidx) : list pyval :=
  match i with
  | IdxAll => [VStr "*"; VStr "*"]
  | IdxTuple args => args
  end.

(** [len(idx)] *)
Definition cidx_len (i : cidx) : nat := List.length (cidx_items i).

(** [idx[j]] *)
Definition cidx_get (i : cidx) (j : nat) : result pyval :=
  match nth_error (cidx_items i) j with
  | Some v => Ok v
  | None => Raise IndexError
  end.

Definition list_eqb {A} (eqb : A -> A -> bool) : list A -> list A -> bool :=
  fix go l1 l2 :=
    match l1, l2 with
    | [], [] => true
    | x :: l1', y :: l2' => eqb x y && go l1' l2'
    | _, _ => false
    end.

(** [idx == _idx] *)
Definition cidx_eqb (a b : cidx) : bool :=
  match a, b with
  | IdxAll, IdxAll => true
  | IdxTuple x, IdxTuple y => list_eqb pyval_eqb x y
  | _, _ => false
  end.

(** [idx == '**'] *)
Definition is_all (i : cidx) : bool :=
  match i with IdxAll => true | _ => false end.

(** [types[j]]: TypeError on [None], IndexError past the end. *)
Definition types_get (t : option string) (j : nat) : result ascii :=
  match t with
  | None => Raise TypeError
  | Some s =>
      match char_at s j with
      | Some c => Ok c
      | None => Raise IndexError
      end
  end.

(** [c in types]: TypeError on [None]. *)
Definition types_has (c : ascii) (t : option string) : result bool :=
  match t with
  | None => Raise TypeError
  | Some s => Ok (char_in c s)
  end.

(** ** The string codec *)

(** The loop of [__str__] and [__repr__]: [a] is the text so far. *)
Definition add_name (a name : string) : string :=
  match a with
  | EmptyString => name
  | _ => a +:+ "." +:+ name
  end.

(** [str(x) or '*'] *)
Definition str_or_star (x : pyval) : string :=
  match py_str x with
  | EmptyString => "*"
  | s => s
  end.

Fixpoint str_loop (a : string) (l : list cid) : string :=
  match l with
  | [] => a
  | Cid name args types :: l' =>
      let a := add_name a name in
      match types with
      | None => str_loop (a +:+ "[**]") l'
      | Some _ =>
          if Nat.eqb (cidx_len args) 0 then str_loop a l'
          else str_loop
                 (a +:+ "[" +:+ join "," (map str_or_star (cidx_items args))
                    +:+ "]") l'
      end
  end.

(** [__str__]: the compact form. *)
Definition __str__ (_cids : list cid) : string := str_loop "" (rev _cids).

(** [(types[i] if types[i] not in '.' else '') + str(x)] for the items
    from position [i] on. *)
Fixpoint repr_args (types : string) (i : nat) (args : list pyval)
  : result (list string) :=
  match args with
  | [] => Ok []
  | x :: args' =>
      t <- types_get (Some types) i ;;
      rest <- repr_args types (S i) args' ;;
      Ok (((if Ascii.eqb t "." then "" else String t "") +:+ py_str x) :: rest)
  end.

Fixpoint repr_loop (a : string) (l : list cid) : result string :=
  match l with
  | [] => Ok a
  | Cid name args types :: l' =>
      let a := add_name a name in
      match types with
      | None => repr_loop (a +:+ ":**") l'
      | Some t =>
          if Nat.eqb (cidx_len args) 0 then repr_loop a l'
          else
            toks <- repr_args t 0 (cidx_items args) ;;
            repr_loop (a +:+ ":" +:+ join "," toks) l'
      end
  end.

(** [__repr__]: the verbose form. *)
Definition __repr__ (_cids : list cid) : result string :=
  repr_loop "" (rev _cids).

(** [val[1:-1]] *)
Definition strip_ends (val : string) : string :=
  match val with
  | EmptyString => EmptyString
  | String _ r => drop_last r
  end.

(** The two quote characters, double and single. *)
Definition quote_chars : string :=
  String "034"%char (String "039"%char EmptyString).

(** One pass of the loop over [idx] in [parse_cuid]: the type character
    added to [_type] and the value stored back in [idx[i]]. *)
Definition parse_val (val : string) : result (ascii * pyval) :=
  if String.eqb val "*" then Ok ("*"%char, VStr "")
  else
    match val with
    | EmptyString => Raise IndexError
    | String c0 rest =>
        if char_in c0 tKeys then
          match tDict_type c0 with
          | Some t => v <- cast t (VStr rest) ;; Ok (c0, v)
          | None => Raise KeyError
          end
        else if char_in c0 quote_chars
                && match last_char val with
                   | Some c1 => Ascii.eqb c1 c0
                   | None => false
                   end
        then Ok ("$"%char, VStr (strip_ends val))
        else Ok ("."%char, VStr val)
    end.

Fixpoint parse_vals (idx : list string) : result (list pyval * string) :=
  match idx with
  | [] => Ok ([], "")
  | val :: idx' =>
      '(t, v) <- parse_val val ;;
      '(vs, ts) <- parse_vals idx' ;;
      Ok (v :: vs, String t ts)
  end.

(** [len(idx) == 1 and idx[0] == '**'] *)
Definition is_full_wildcard (idx : list pyval) : bool :=
  Nat.eqb (List.length idx) 1
  && match nth_error idx 0 with
     | Some v => pyval_eqb v (VStr "**")
     | None => false
     end.

(** The body of the loop over [reversed(cList)]. *)
Definition parse_token (c : string) : result cid :=
  match last_char c with
  | None => Raise IndexError
  | Some l =>
      let c_info :=
        if Ascii.eqb l "]" then split1 "[" (drop_last c)
        else split1 ":" c in
      match c_info with
      | [] => Raise IndexError
      | [n] => Ok (Cid n (IdxTuple []) (Some ""))
      | n :: suffix :: _ =>
          '(idx, _type) <- parse_vals (split "," suffix) ;;
          if is_full_wildcard idx then Ok (Cid n IdxAll None)
          else Ok (Cid n (IdxTuple idx) (Some _type))
      end
  end.

Fixpoint parse_tokens (cList : list string) : gen cid :=
  match cList with
  | [] => gen_done []
  | c :: cList' =>
      gen_bind (parse_token c) (fun s => gen_yield s (parse_tokens cList'))
  end.

Definition parse_cuid (label : string) : gen cid :=
  parse_tokens (rev (split "." label)).

(** ** The model tree *)

(** An index of an indexed component as Python holds it: one value, or a
    tuple of values. *)
Inductive pyindex :=
| IScalar (v : pyval)
| ITuple (vs : list pyval).

(** What the module consumes of blocks, components and component data.
    [node] is object identity; [has_component n] is
    [hasattr(n, '_component')]; [attrs n] lists the named children that
    [getattr] finds on [n]; [iteritems n] lists [(index, data)] of a
    component in iteration order. *)
Class ModelTree := {
  node : Type;
  node_eq_dec : forall a b : node, {a = b} + {a <> b};
  local_name : node -> string;
  parent_block : node -> option node;
  parent_component : node -> node;
  model : node -> node;
  has_component : node -> bool;
  attrs : node -> list (string * node);
  iteritems : node -> list (pyindex * node)
}.

(** [a is b] *)
Definition node_is `{ModelTree} (a b : node) : bool :=
  if node_eq_dec a b then true else false.

(** The tuple an index denotes as a key: Pyomo flattens a one-tuple, so
    [c[(k,)]] and [c[k]] name the same member. *)
Definition norm_index (i : pyindex) : list pyval :=
  match i with
  | IScalar v => [v]
  | ITuple vs => vs
  end.

(** Modelled from the spec: keyed lookup [c[idx]] by the exact index
    tuple (section 6), which is [IndexedComponent.__getitem__] of the
    model tree; it fails with KeyError when no member has that index. *)
Definition getitem `{ModelTree} (c : node) (idx : list pyval) : result node :=
  match find (fun kv => list_eqb pyval_eqb (norm_index (fst kv)) idx)
             (iteritems c) with
  | Some kv => Ok (snd kv)
  | None => Raise KeyError
  end.

Fixpoint assoc {V} (k : string) (l : list (string * V)) : option V :=
  match l with
  | [] => None
  | (k', v) :: l' => if String.eqb k k' then Some v else assoc k l'
  end.

(** Modelled from the spec: [getattr(obj, name)], the named child of a
    block (section 6); AttributeError when [obj] is [None] or has no such
    child. *)
Definition getattr `{ModelTree} (obj : option node) (name : string)
  : result node :=
  match obj with
  | None => Raise AttributeError
  | Some o =>
      match assoc name (attrs o) with
      | Some c => Ok c
      | None => Raise AttributeError
      end
  end.

(** ** Generation from a live component *)

(** [raise NotImplementedError("Got invalid index %s ..." % idx)]: the
    message is built before the exception is.  The format has one
    [%s] and [%] takes the tuple [idx] as its list of arguments, so
    unless [idx] has exactly one item the formatting itself fails, with
    TypeError, and that is the exception raised. *)
Definition invalid_index (idx : list pyval) : exn :=
  if Nat.eqb (List.length idx) 1 then NotImplementedError else TypeError.

(** The loop of [_generate_validated_index] with its two flags, over
    the items [rest] of the index [idx]. *)
Fixpoint validated_index_loop (idx : list pyval)
  (encountered_fixed encountered_ellipsis : bool) (rest : list pyval)
  : gen pyval :=
  match rest with
  | [] => gen_done []
  | v :: rest' =>
      if pyval_eqb v (VSlice VNone) then
        gen_yield (VStr "")
          (validated_index_loop idx encountered_fixed encountered_ellipsis
             rest')
      else if pyval_eqb v VEllipsis then
        if encountered_ellipsis then gen_raise (invalid_index idx)
        else if encountered_fixed then gen_raise (invalid_index idx)
        else gen_yield (VStr "**")
               (validated_index_loop idx encountered_fixed true rest')
      else
        if encountered_ellipsis then gen_raise (invalid_index idx)
        else gen_yield v
               (validated_index_loop idx true encountered_ellipsis rest')
  end.

Definition _generate_validated_index (idx : list pyval) : gen pyval :=
  validated_index_loop idx false false idx.

Definition type_keys (idx : list pyval) : string :=
  string_of_list_ascii (map type_key idx).

(** The [(idx, types)] pair of a segment. *)
Definition partial_cuid : Type := cidx * option string.

Definition _partial_cuid_from_index (idx : pyindex) : result partial_cuid :=
  match idx with
  | ITuple vs =>
      args <- tuple_of (_generate_validated_index vs) ;;
      Ok (IdxTuple args, Some (type_keys vs))
  | IScalar v =>
      if pyval_eqb v (VSlice VNone) then
        Ok (IdxTuple [VStr ""], Some (String (type_key v) ""))
      else if pyval_eqb v VEllipsis then
        Ok (IdxTuple [VStr "**"], None)
      else
        Ok (IdxTuple [v], Some (String (type_key v) ""))
  end.

(** Keys of [cuid_buffer]: [id(self)] of the CUID under construction and
    [id(obj)] of tree objects; objects alive together have distinct ids. *)
Inductive pyid `{ModelTree} :=
| IdSelf
| IdNode (n : node).

Definition pyid_eqb `{ModelTree} (a b : pyid) : bool :=
  match a, b with
  | IdSelf, IdSelf => true
  | IdNode x, IdNode y => node_is x y
  | _, _ => false
  end.

(** A dict as the list of its entries, the latest assignment first. *)
Definition cuid_dict `{ModelTree} : Type := list (pyid * partial_cuid).

Definition dict_get `{ModelTree} (k : pyid) (d : cuid_dict)
  : result partial_cuid :=
  match find (fun kv => pyid_eqb (fst kv) k) d with
  | Some kv => Ok (snd kv)
  | None => Raise KeyError
  end.

Definition dict_has `{ModelTree} (k : pyid) (d : cuid_dict) : bool :=
  existsb (fun kv => pyid_eqb (fst kv) k) d.

Definition dict_set `{ModelTree} (k : pyid) (v : partial_cuid) (d : cuid_dict)
  : cuid_dict := (k, v) :: d.

Section Generate.
Context `{T : ModelTree}.

(** [for idx, obj in iteritems(c): cuid_buffer[id(obj)] = ...]; the
    dict keeps the entries written before an exception. *)
Fixpoint fill_buffer (items : list (pyindex * node)) (d : cuid_dict)
  : cuid_dict * option exn :=
  match items with
  | [] => (d, None)
  | (idx, obj) :: items' =>
      match _partial_cuid_from_index idx with
      | Ok p => fill_buffer items' (dict_set (IdNode obj) p d)
      | Raise e => (d, Some e)
      end
  end.

(** [for idx, obj in iteritems(c): if obj is component: yield ...; break] *)
Fixpoint scan_items (c component : node) (items : list (pyindex * node))
  : gen cid :=
  match items with
  | [] => gen_done []
  | (idx, obj) :: items' =>
      if node_is obj component then
        gen_bind (_partial_cuid_from_index idx)
          (fun p => gen_done [Cid (local_name c) (fst p) (snd p)])
      else scan_items c component items'
  end.

(** The state a run of the generator leaves: what it yielded and how
    it ended, and the buffer, which the caller keeps. *)
Definition run : Type := gen cid * option cuid_dict.

Definition run_yield (x : cid) (r : option run) : option run :=
  option_map (fun r => (gen_yield x (fst r), snd r)) r.

Definition run_seq (g : gen cid) (k : option run) (b : option cuid_dict)
  : option run :=
  match raised g with
  | Some e => Some (g, b)
  | None => option_map (fun r => (gen_seq g (fst r), snd r)) k
  end.

(** The [while component is not context] loop; [None] when [fuel]
    iterations did not reach the end. *)
Fixpoint generate_loop (fuel : nat) (model_ context : node)
  (component : option node) (cuid_buffer : option cuid_dict)
  : option run :=
  match fuel with
  | O => None
  | S fuel' =>
      match component with
      | None => Some (gen_raise AttributeError, cuid_buffer)
      | Some comp =>
          if node_is comp context then Some (gen_done [], cuid_buffer)
          else if node_is comp model_ then
            Some (gen_raise ValueError, cuid_buffer)
          else
            let c := parent_component comp in
            if node_is c comp then
              run_yield (Cid (local_name c) (IdxTuple []) (Some ""))
                (generate_loop fuel' model_ context (parent_block comp)
                   cuid_buffer)
            else
              match cuid_buffer with
              | Some d =>
                  let filled :=
                    if negb (dict_has IdSelf d)
                    then fill_buffer (iteritems c) d
                    else (d, None) in
                  match snd filled with
                  | Some e => Some (gen_raise e, Some (fst filled))
                  | None =>
                      match dict_get (IdNode comp) (fst filled) with
                      | Raise e => Some (gen_raise e, Some (fst filled))
                      | Ok p =>
                          run_yield (Cid (local_name c) (fst p) (snd p))
                            (generate_loop fuel' model_ context
                               (parent_block comp) (Some (fst filled)))
                      end
                  end
              | None =>
                  run_seq (scan_items c comp (iteritems c))
                    (generate_loop fuel' model_ context (parent_block comp)
                       None)
                    None
              end
      end
  end.

Definition _generate_cuid (fuel : nat) (component : node)
  (cuid_buffer : option cuid_dict) (context : option node) : option run :=
  let model_ := model component in
  let context := match context with
                 | None => model_
                 | Some c => c
                 end in
  if negb (has_component component) then
    run_yield (Cid (local_name component) IdxAll None)
      (generate_loop fuel model_ context (parent_block component)
         cuid_buffer)
  else generate_loop fuel model_ context (Some component) cuid_buffer.

(** [ComponentUID(component, cuid_buffer, context)]: the value of
    [_cids], from a string or from a component. *)
Definition ComponentUID (fuel : nat) (component : string + node)
  (cuid_buffer : option cuid_dict) (context : option node)
  : option (result (list cid)) :=
  match component with
  | inl label =>
      match context with
      | Some _ => Some (Raise ValueError)
      | None => Some (tuple_of (parse_cuid label))
      end
  | inr comp =>
      option_map (fun r => tuple_of (fst r))
        (_generate_cuid fuel comp cuid_buffer context)
  end.

End Generate.

(** ** Resolution, enumeration and matching *)

(** [for _cast in tList: try: if _cast(a) == b: ok = True; break
    except ValueError: pass]; the value is [ok]. *)
Fixpoint cast_any (casts : list pytype) (a b : pyval) : result bool :=
  match casts with
  | [] => Ok false
  | _cast :: casts' =>
      match cast _cast a with
      | Ok v => if pyval_eqb v b then Ok true else cast_any casts' a b
      | Raise ValueError => cast_any casts' a b
      | Raise e => Raise e
      end
  end.

(** The loop [for j in range(len(idx))] shared by [matches] and
    [_list_components], from position [j] for [n] more positions:
    [pat] and [types] are the pattern's index and type string, [tgt] the
    index of the tree object.  [Ok false] is the exit without a match. *)
Fixpoint positions_loop (pat : cidx) (types : option string) (tgt : cidx)
  (j n : nat) : result bool :=
  match n with
  | O => Ok true
  | S n' =>
      p <- cidx_get pat j ;;
      t <- cidx_get tgt j ;;
      if pyval_eqb p t then positions_loop pat types tgt (S j) n'
      else
        ty <- types_get types j ;;
        if Ascii.eqb ty "*" then positions_loop pat types tgt (S j) n'
        else if Ascii.eqb ty "." then
          ok <- cast_any tList p t ;;
          if ok then positions_loop pat types tgt (S j) n' else Ok false
        else Ok false
  end.

(** All positions of [c] in [s] from [start] on, in increasing order:
    the successive values of [s.find(c, i + 1)]. *)
Fixpoint find_all_from (c : ascii) (s : string) (pos start : nat)
  : list nat :=
  match s with
  | EmptyString => []
  | String d s' =>
      let rest := find_all_from c s' (S pos) (Nat.pred start) in
      match start with
      | O => if Ascii.eqb d c then pos :: rest else rest
      | S _ => rest
      end
  end.

(** [l[i] = v]; IndexError past the end. *)
Fixpoint list_set {A} (l : list A) (i : nat) (v : A) : result (list A) :=
  match l, i with
  | [], _ => Raise IndexError
  | _ :: l', O => Ok (v :: l')
  | x :: l', S i' => l'' <- list_set l' i' v ;; Ok (x :: l'')
  end.

Section Resolve.
Context `{T : ModelTree}.

(** The loop of [matches] over the generated segments [ys], [i] of
    which were consumed; [stop] is how the generator ended. *)
Fixpoint matches_loop (_cids : list cid) (i : nat) (ys : list cid)
  (stop : option exn) : result bool :=
  match ys with
  | [] =>
      match stop with
      | Some e => Raise e
      | None =>
          match i with
          | O => Raise NameError
          | S _ => Ok (Nat.eqb i (List.length _cids))
          end
      end
  | Cid name idx types :: ys' =>
      if Nat.eqb i (List.length _cids) then Ok false
      else
        match nth_error _cids i with
        | None => Raise IndexError
        | Some (Cid _n _idx _types) =>
            if negb (String.eqb _n name) then Ok false
            else if is_all _idx || cidx_eqb idx _idx then
              matches_loop _cids (S i) ys' stop
            else if negb (Nat.eqb (cidx_len idx) (cidx_len _idx)) then
              Ok false
            else
              ok <- positions_loop _idx _types idx 0 (cidx_len idx) ;;
              if ok then matches_loop _cids (S i) ys' stop else Ok false
        end
  end.

Definition matches (fuel : nat) (_cids : list cid) (component : node)
  : option (result bool) :=
  option_map
    (fun r => matches_loop _cids 0 (yielded (fst r)) (raised (fst r)))
    (_generate_cuid fuel component None None).

(** [idx != target_idx] for a pattern index and a key of the tree. *)
Definition differs (idx : cidx) (target_idx : pyindex) : bool :=
  match idx, target_idx with
  | IdxTuple args, ITuple vs => negb (list_eqb pyval_eqb args vs)
  | _, _ => true
  end.

(** The test of one [(target_idx, target_obj)] pair in
    [_list_components]: [Ok true] when the recursion is entered. *)
Definition keeps (idx : cidx) (types : option string)
  (target_idx : pyindex) : result bool :=
  if negb (is_all idx) && differs idx target_idx then
    p <- _partial_cuid_from_index target_idx ;;
    let _idx := fst p in
    if negb (Nat.eqb (cidx_len idx) (cidx_len _idx)) then Ok false
    else positions_loop idx types _idx 0 (cidx_len idx)
  else Ok true.

(** The test [idx != '**' and '*' not in types and '.' not in types]
    of [_list_components]. *)
Definition is_direct (idx : cidx) (types : option string) : result bool :=
  if is_all idx then Ok false
  else
    star <- types_has "*" types ;;
    if star then Ok false
    else dot <- types_has "." types ;; Ok (negb dot).

(** The loop [for target_idx, target_obj in iteritems(obj)] of
    [_list_components]; [recurse] is the recursive call on the
    remaining segments. *)
Fixpoint each_item (idx : cidx) (types : option string)
  (recurse : node -> gen node) (items : list (pyindex * node)) : gen node :=
  match items with
  | [] => gen_done []
  | (target_idx, target_obj) :: items' =>
      gen_bind (keeps idx types target_idx)
        (fun keep : bool =>
           if keep
           then gen_seq (recurse target_obj)
                  (each_item idx types recurse items')
           else each_item idx types recurse items')
  end.

(** [_list_components(_obj, cids)] with [cids] read from its last
    element: [outer] is [reversed(cids)]. *)
Fixpoint list_from (outer : list cid) (_obj : node) : gen node :=
  match outer with
  | [] => gen_done [_obj]
  | Cid name idx types :: rest =>
      match getattr (Some _obj) name with
      | Raise _ => gen_done []
      | Ok obj =>
          if Nat.eqb (cidx_len idx) 0 then list_from rest obj
          else
            gen_bind (is_direct idx types)
              (fun direct : bool =>
                 if direct then
                   match getitem obj (cidx_items idx) with
                   | Raise _ => gen_done []
                   | Ok o => list_from rest o
                   end
                 else each_item idx types (list_from rest) (iteritems obj))
      end
  end.

Definition _list_components (_obj : node) (cids : list cid) : gen node :=
  list_from (rev cids) _obj.

Definition list_components (_cids : list cid) (block : node) : gen node :=
  _list_components block _cids.

(** [_checkIntArgs(_idx, _t, _i)] of [find_component]; [dots] lists
    [_i] and the positions that [_t.find('.', _i + 1)] returns after
    it, and is empty when [_i == -1]. *)
Fixpoint _checkIntArgs (obj : option node) (name : string)
  (_idx : list pyval) (dots : list nat) : result (option node) :=
  match dots with
  | [] =>
      c <- getattr obj name ;;
      match getitem c _idx with
      | Ok o => Ok (Some o)
      | Raise KeyError => Ok None
      | Raise e => Raise e
      end
  | _i :: dots' =>
      match nth_error _idx _i with
      | None => Raise IndexError
      | Some _orig =>
          (fix each (casts : list pytype) : result (option node) :=
             match casts with
             | [] => Ok None
             | _cast :: casts' =>
                 match
                   (v <- cast _cast _orig ;;
                    l <- list_set _idx _i v ;;
                    _checkIntArgs obj name l dots')
                 with
                 | Ok (Some ans) => Ok (Some ans)
                 | Ok None => each casts'
                 | Raise ValueError => each casts'
                 | Raise e => Raise e
                 end
             end) tList
      end
  end.

(** One pass of the loop of [find_component]: the new [obj], or the
    value returned from inside the loop. *)
Inductive step_result :=
| Next (obj : option node)
| Return (ans : option node).

Definition find_step (obj : option node) (s : cid) : result step_result :=
  let '(Cid name idx types) := s in
  let attempt : result node :=
    indexed <-
      (if Nat.eqb (cidx_len idx) 0 then Ok false
       else if is_all idx then Ok false
       else
         match types with
         | None => Raise AttributeError
         | Some t =>
             Ok (negb (String.eqb (strip_char "*" t) ""))
         end) ;;
    c <- getattr obj name ;;
    if indexed : bool then getitem c (cidx_items idx) else Ok c in
  match attempt with
  | Ok o => Ok (Next (Some o))
  | Raise KeyError =>
      dot <- types_has "." types ;;
      if negb dot then Ok (Return None)
      else
        match types with
        | None => Raise TypeError
        | Some t =>
            ans <- _checkIntArgs obj name (cidx_items idx)
                     (find_all_from "." t 0 0) ;;
            Ok (Next ans)
        end
  | Raise AttributeError => Ok (Return None)
  | Raise e => Raise e
  end.

Fixpoint find_loop (obj : option node) (outer : list cid)
  : result (option node) :=
  match outer with
  | [] => Ok obj
  | s :: outer' =>
      r <- find_step obj s ;;
      match r with
      | Next obj' => find_loop obj' outer'
      | Return ans => Ok ans
      end
  end.

Definition find_component (_cids : list cid) (block : node)
  : result (option node) :=
  find_loop (Some block) (rev _cids).

Definition find_component_on (_cids : list cid) (block : node)
  : result (option node) :=
  find_component _cids block.

End Resolve.

(** ** Generation from a slice *)

(** Modelled from the spec: the entries [(call, arg)] of the call stack
    of a slice (section 6): attribute access, item access and
    call, the [set] and [del] entries (the ones with bit [0b10]), and
    the [slice_info] entry at the base with the sliced component and its
    [(fixed, sliced, ellipsis)] description.  The argument of a [call]
    entry is the name handed to [component]. *)
Inductive slice_call `{ModelTree} :=
| slice_info (comp : node) (fixed sliced : list (nat * pyval))
    (ellipsis : option nat)
| get_attr (arg : string)
| set_attr
| del_attr
| get_item (arg : pyindex)
| set_item
| del_item
| call (arg : string).

(** [call & 0b10] *)
Definition is_set_or_del `{ModelTree} (c : slice_call) : bool :=
  match c with
  | set_attr | del_attr | set_item | del_item => true
  | _ => false
  end.

(** [d[k]] of a dict with integer keys. *)
Fixpoint nat_get (k : nat) (d : list (nat * pyval)) : result pyval :=
  match d with
  | [] => Raise KeyError
  | (k', v) :: d' => if Nat.eqb k k' then Ok v else nat_get k d'
  end.

(** [value_map[i]] after [value_map.update(fixed)] and
    [value_map.update(sliced)]. *)
Definition value_map_get (fixed sliced : list (nat * pyval)) (i : nat)
  : result pyval :=
  match nat_get i sliced with
  | Ok v => Ok v
  | Raise _ => nat_get i fixed
  end.

(** [len(value_map)] *)
Definition value_map_len (fixed sliced : list (nat * pyval)) : nat :=
  List.length (nodup Nat.eq_dec (map fst fixed ++ map fst sliced)).

Fixpoint value_map_values (fixed sliced : list (nat * pyval)) (i n : nat)
  : result (list pyval) :=
  match n with
  | O => Ok []
  | S n' =>
      v <- value_map_get fixed sliced i ;;
      vs <- value_map_values fixed sliced (S i) n' ;;
      Ok (v :: vs)
  end.

Definition _partial_cuid_from_slice_info (fixed sliced : list (nat * pyval))
  (ellipsis : option nat) : result partial_cuid :=
  match ellipsis with
  | Some _ =>
      match fixed with
      | _ :: _ => Raise NotImplementedError
      | [] => Ok (IdxTuple [VStr "**"], None)
      end
  | None =>
      values <- value_map_values fixed sliced 0
                  (value_map_len fixed sliced) ;;
      Ok (IdxTuple
            (map (fun v => if negb (pyval_eqb v (VSlice VNone)) then v
                           else VStr "") values),
          Some (string_of_list_ascii
                  (map (fun v => match v with
                                 | VSlice _ => "*"%char
                                 | _ => type_key v
                                 end) values)))
  end.

Section GenerateFromSlice.
Context `{T : ModelTree}.

Definition opt_yield (x : cid) (r : option (gen cid)) : option (gen cid) :=
  option_map (gen_yield x) r.

Definition opt_seq (g : option (gen cid)) (k : option (gen cid))
  : option (gen cid) :=
  match g with
  | None => None
  | Some g1 =>
      match raised g1 with
      | Some _ => Some g1
      | None => option_map (gen_seq g1) k
      end
  end.

(** The module reads [IndexedComponent_slice.slice_info] and the other
    constants through the global name [IndexedComponent_slice], which it
    neither imports nor defines: evaluating the name raises NameError. *)
Definition IndexedComponent_slice : result unit := Raise NameError.

(** The [while call_stack] loop: [stack] lists the entries in the
    order [pop()] returns them, the latest first.  The test
    [call & 0b10] comes first and needs no name of the module; the
    first of the [elif] tests evaluates [IndexedComponent_slice]. *)
Fixpoint slice_loop (fuel : nat) (context : option node)
  (stack : list slice_call) (index : pyindex) (name : option string)
  (count : nat) : option (gen cid) :=
  match stack with
  | [] => Some (gen_done [])
  | entry :: stack' =>
      let count := S count in
      if is_set_or_del entry then Some (gen_raise ValueError)
      else
        match IndexedComponent_slice with
        | Raise e => Some (gen_raise e)
        | Ok _ =>
        match entry with
        | slice_info comp fixed sliced ellipsis =>
            match _partial_cuid_from_slice_info fixed sliced ellipsis with
            | Raise e => Some (gen_raise e)
            | Ok p =>
                opt_yield (Cid (local_name comp) (fst p) (snd p))
                  (opt_seq
                     (match parent_block comp with
                      | None => Some (gen_raise AttributeError)
                      | Some parent =>
                          option_map fst
                            (_generate_cuid fuel parent None context)
                      end)
                     (slice_loop fuel context stack' index name count))
            end
        | get_item arg => slice_loop fuel context stack' arg name count
        | call arg => slice_loop fuel context stack' index (Some arg) count
        | get_attr arg =>
            match
              match name with
              | Some n =>
                  if negb (String.eqb arg "component")
                  then Raise NotImplementedError
                  else Ok (n, @None string)
              | None => Ok (arg, name)
              end
            with
            | Raise e => Some (gen_raise e)
            | Ok (arg, name) =>
                if Nat.eqb count 1 then
                  opt_yield (Cid arg IdxAll None)
                    (slice_loop fuel context stack' (ITuple []) name count)
                else
                  match _partial_cuid_from_index index with
                  | Raise e => Some (gen_raise e)
                  | Ok p =>
                      opt_yield (Cid arg (fst p) (snd p))
                        (slice_loop fuel context stack' (ITuple []) name
                           count)
                  end
            end
        | _ => slice_loop fuel context stack' index name count
        end
        end
  end.

(** [_call_stack] is given oldest entry first. *)
Definition _generate_cids_from_slice (fuel : nat)
  (_call_stack : list slice_call) (context : option node)
  : option (gen cid) :=
  slice_loop fuel context (rev _call_stack) (ITuple []) None 0.

End GenerateFromSlice.

(** ** A sample model *)

(** The objects of a small model: the root block [R]; [X], indexed by
    pairs; the indexed block [B] whose member [B1] holds the scalar
    [V]; and [Y], indexed by single values. *)
Inductive sample := R | X | X1 | X2 | X3 | B | B1 | V | Y | Y1 | Y3.

Definition sample_eq_dec (a b : sample) : {a = b} + {a <> b}.
Proof. decide equality. Defined.

#[export] Instance Sample : ModelTree := {|
  node := sample;
  node_eq_dec := sample_eq_dec;
  local_name n :=
    match n with
    | R => "m"
    | X | X1 | X2 | X3 => "x"
    | B | B1 => "b"
    | V => "v"
    | Y | Y1 | Y3 => "y"
    end;
  parent_block n :=
    match n with
    | R => None
    | V => Some B1
    | _ => Some R
    end;
  parent_component n :=
    match n with
    | X1 | X2 | X3 => X
    | B1 => B
    | Y1 | Y3 => Y
    | n => n
    end;
  model _ := R;
  has_component n :=
    match n with
    | X | B | Y => false
    | _ => true
    end;
  attrs n :=
    match n with
    | R => [("x", X); ("b", B); ("y", Y)]
    | B1 => [("v", V)]
    | _ => []
    end;
  iteritems n :=
    match n with
    | R => [(IScalar VNone, R)]
    | V => [(IScalar VNone, V)]
    | X => [(ITuple [VInt 1; VStr "a"], X1);
            (ITuple [VInt 2; VStr "b"], X2);
            (ITuple [VStr "1"; VStr "a"], X3)]
    | B => [(IScalar (VInt 1), B1)]
    | Y => [(IScalar (VStr "a.b"), Y1); (IScalar (VInt 3), Y3)]
    | _ => []
    end
|}.

(** A second model: the component [PComp], named [p], of the root
    [PRoot], indexed by pairs, with one member under [(3, '4')] and
    one under [('3', 4)]. *)
Inductive pairs := PRoot | PComp | PIntStr | PStrInt.

Definition pairs_eq_dec (a b : pairs) : {a = b} + {a <> b}.
Proof. decide equality. Defined.

Definition Pairs : ModelTree := {|
  node := pairs;
  node_eq_dec := pairs_eq_dec;
  local_name n :=
    match n with
    | PRoot => "m"
    | _ => "p"
    end;
  parent_block n :=
    match n with
    | PRoot => None
    | _ => Some PRoot
    end;
  parent_component n :=
    match n with
    | PIntStr | PStrInt => PComp
    | n => n
    end;
  model _ := PRoot;
  has_component n :=
    match n with
    | PComp => false
    | _ => true
    end;
  attrs n :=
    match n with
    | PRoot => [("p", PComp)]
    | _ => []
    end;
  iteritems n :=
    match n with
    | PRoot => [(IScalar VNone, PRoot)]
    | PComp => [(ITuple [VInt 3; VStr "4"], PIntStr);
                (ITuple [VStr "3"; VInt 4], PStrInt)]
    | _ => []
    end
|}.

(** The height of each object above the root. *)
Definition sample_depth (n : sample) : nat :=
  match n with
  | R => 0
  | V => 2
  | _ => 1
  end.

(** ** Well-formed trees *)

(** A value that occurs as (a component of) a key of an indexed
    component: an integer, a string or [None]. *)
Definition plain_val (v : pyval) : bool :=
  match v with
  | VInt _ | VStr _ | VNone => true
  | _ => false
  end.

Definition plain_key (k : pyindex) : Prop :=
  norm_index k <> [] /\ forallb plain_val (norm_index k) = true.

(** The tree the module assumes: parent links and child links agree.
    Blocks and component data are the objects with [_component]; an
    indexed component has none and holds its members under distinct
    plain keys; a scalar component is its own parent component and its
    own single member, under the key [None].  [depth] bounds the
    ascent through [parent_block]. *)
Record WellFormed `{T : ModelTree} (depth : node -> nat) : Prop := {
  wf_depth : forall n p, parent_block n = Some p -> depth p < depth n;
  wf_root : forall n, parent_block n = None -> has_component n = true;
  wf_model_root : forall n, parent_block n = None -> model n = n;
  wf_model_up : forall n p, parent_block n = Some p -> model n = model p;
  wf_block : forall n p, parent_block n = Some p -> has_component p = true;
  wf_child : forall n b,
    has_component n = true -> parent_block n = Some b ->
    assoc (local_name (parent_component n)) (attrs b)
    = Some (parent_component n);
  wf_scalar : forall n,
    has_component n = true -> parent_component n = n ->
    iteritems n = [(IScalar VNone, n)];
  wf_member : forall n,
    has_component n = true -> parent_component n <> n ->
    has_component (parent_component n) = false
    /\ exists k, In (k, n) (iteritems (parent_component n));
  wf_attr : forall b name c,
    assoc name (attrs b) = Some c ->
    has_component b = true /\ local_name c = name
    /\ parent_block c = Some b
    /\ (has_component c = true -> parent_component c = c);
  wf_item : forall c k o,
    has_component c = false -> In (k, o) (iteritems c) ->
    has_component o = true /\ parent_component o = c
    /\ parent_block o = parent_block c /\ plain_key k;
  wf_keys : forall c,
    has_component c = false ->
    NoDup (map (fun kv => norm_index (fst kv)) (iteritems c));
  wf_members : forall c, NoDup (map snd (iteritems c))
}.

(** ** Comparison *)

(** [a == b] for two segments, as tuples [(name, idx, types)]. *)
Definition cid_eqb (a b : cid) : bool :=
  String.eqb (cname a) (cname b)
  && cidx_eqb (cargs a) (cargs b)
  && match ctypes a, ctypes b with
     | None, None => true
     | Some s, Some t => String.eqb s t
     | _, _ => false
     end.

(** [__eq__] and [__ne__]: the comparison of the two [_cids] tuples.
    [other] stands for the tuple compared with: [other._cids] of a
    CUID, or [other] itself when it is a bare tuple of segments (the
    AttributeError branch). *)
Definition __eq__ (self other : list cid) : bool :=
  list_eqb cid_eqb self other.

Definition __ne__ (self other : list cid) : bool :=
  negb (list_eqb cid_eqb self other).

(** ** Ordering *)

(** The order of two tuples: the first position at which they differ
    decides, and a proper prefix comes first. *)
Fixpoint tuple_compare {A} (eqb : A -> A -> bool)
  (cmp : A -> A -> result comparison) (l1 l2 : list A)
  : result comparison :=
  match l1, l2 with
  | [], [] => Ok Eq
  | [], _ :: _ => Ok Lt
  | _ :: _, [] => Ok Gt
  | x :: l1', y :: l2' =>
      if eqb x y then tuple_compare eqb cmp l1' l2' else cmp x y
  end.

(** The order of two index values that differ, as Python 3 has it:
    integers by value, strings by character code, slices
    [slice(None, stop, None)] by their stops.  Values of different
    types, [None] and [Ellipsis] do not order: TypeError (Python 2
    orders them by an arbitrary fixed rule instead). *)
Fixpoint pyval_compare (a b : pyval) : result comparison :=
  match a, b with
  | VInt x, VInt y => Ok (Z.compare x y)
  | VStr x, VStr y => Ok (String.compare x y)
  | VSlice x, VSlice y =>
      if pyval_eqb x y then Ok Eq else pyval_compare x y
  | _, _ => Raise TypeError
  end.

(** The order of two segments, as tuples [(name, idx, types)]. *)
Definition cid_compare (a b : cid) : result comparison :=
  if negb (String.eqb (cname a) (cname b))
  then Ok (String.compare (cname a) (cname b))
  else if negb (cidx_eqb (cargs a) (cargs b)) then
    match cargs a, cargs b with
    | IdxTuple x, IdxTuple y => tuple_compare pyval_eqb pyval_compare x y
    | _, _ => Raise TypeError
    end
  else
    match ctypes a, ctypes b with
    | Some s, Some t => Ok (String.compare s t)
    | None, None => Ok Eq
    | _, _ => Raise TypeError
    end.

Definition cuid_compare (self other : list cid) : result comparison :=
  tuple_compare cid_eqb cid_compare self other.

(** [__lt__], [__le__], [__gt__] and [__ge__]: the comparison of the
    two [_cids] tuples, [other] as for [__eq__]. *)
Definition __lt__ (self other : list cid) : result bool :=
  c <- cuid_compare self other ;;
  Ok (match c with Lt => true | _ => false end).

Definition __le__ (self other : list cid) : result bool :=
  c <- cuid_compare self other ;;
  Ok (match c with Gt => false | _ => true end).

Definition __gt__ (self other : list cid) : result bool :=
  c <- cuid_compare self other ;;
  Ok (match c with Gt => true | _ => false end).

Definition __ge__ (self other : list cid) : result bool :=
  c <- cuid_compare self other ;;
  Ok (match c with Lt => false | _ => true end).

(** ** Reference notions used in the statements *)

(** [l[i] = v] when [i] is in range, [l] otherwise. *)
Fixpoint replace_at {A} (l : list A) (i : nat) (v : A) : list A :=
  match l, i with
  | [], _ => []
  | _ :: l', O => v :: l'
  | x :: l', S i' => x :: replace_at l' i' v
  end.

(** The segment that names the member under key [k] of the component
    called [name]. *)
Definition key_cid (name : string) (k : pyindex) : cid :=
  Cid name (IdxTuple (norm_index k)) (Some (type_keys (norm_index k))).

(** The key under which [component] is listed in [c], if it is. *)
Definition member_key `{ModelTree} (c component : node) : option pyindex :=
  option_map fst
    (find (fun kv => node_is (snd kv) component) (iteritems c)).

(** The segment of a block or component data within its parent block. *)
Definition data_cid `{ModelTree} (component : node) : cid :=
  let c := parent_component component in
  if node_is c component then Cid (local_name c) (IdxTuple []) (Some "")
  else match member_key c component with
       | Some k => key_cid (local_name c) k
       | None => Cid (local_name c) (IdxTuple []) (Some "")
       end.

(** [path_to top x l]: ascending from [x] through [parent_block] meets
    [top], and [l] lists the objects passed on the way, [x] first and
    [top] excluded. *)
Inductive path_to `{ModelTree} (top : node) : node -> list node -> Prop :=
| path_here : path_to top top []
| path_up (x p : node) (l : list node) :
    x <> top -> parent_block x = Some p -> path_to top p l ->
    path_to top x (x :: l).

(** [context] is [x] or one of the blocks above it. *)
Definition ancestor `{ModelTree} (context x : node) : Prop :=
  exists l, path_to context x l.

(** A pattern index [_idx] with type string [_types] accepts the index
    [idx] of a generated segment: the pattern is the full wildcard, or
    the two are equal, or they have the same length and every position
    passes the test of the positions loop. *)
Definition index_accepts (_idx : cidx) (_types : option string) (idx : cidx)
  : Prop :=
  is_all _idx = true
  \/ cidx_eqb idx _idx = true
  \/ (cidx_len idx = cidx_len _idx
      /\ positions_loop _idx _types idx 0 (cidx_len idx) = Ok true).

(** A pattern segment accepts a generated segment. *)
Definition seg_accepts (pat seg : cid) : Prop :=
  cname pat = cname seg
  /\ index_accepts (cargs pat) (ctypes pat) (cargs seg).

(** The positions of a type string that are untyped. *)
Definition untyped_positions (types : string) : list nat :=
  find_all_from "." types 0 0.

(** The values a text can be cast to, in the order of priority: the
    integer it spells, when it spells one, then the text as a string,
    then the slice up to it. *)
Definition casts_of (v : pyval) : list pyval :=
  match py_int v with
  | Ok w => [w]
  | Raise _ => []
  end ++ [VStr (py_str v); VSlice v].

(** The index tuples the coercion search tries, in the order it tries
    them: for each untyped position, left to right, every cast of its
    text in priority order, the next position being visited under each
    successful cast. *)
Fixpoint candidates (idx : list pyval) (dots : list nat)
  : list (list pyval) :=
  match dots with
  | [] => [idx]
  | j :: dots' =>
      match nth_error idx j with
      | None => []
      | Some v =>
          flat_map (fun w => candidates (replace_at idx j w) dots')
            (casts_of v)
      end
  end.

(** The member under the first of the keys [ks] that [c] has. *)
Fixpoint first_found `{ModelTree} (c : node) (ks : list (list pyval))
  : option node :=
  match ks with
  | [] => None
  | k :: ks' =>
      match getitem c k with
      | Ok o => Some o
      | Raise _ => first_found c ks'
      end
  end.

(** The three kinds of value in an index of a slice: the single
    wildcard [slice(None)], the ellipsis, and fixed values. *)
Definition is_wild (v : pyval) : bool := pyval_eqb v (VSlice VNone).
Definition is_ellipsis (v : pyval) : bool := pyval_eqb v VEllipsis.
Definition is_fixed (v : pyval) : bool :=
  negb (is_wild v) && negb (is_ellipsis v).

Definition ellipses (vs : list pyval) : nat :=
  List.length (filter is_ellipsis vs).

(** An index that generation accepts: at most one ellipsis, and no
    ellipsis next to a fixed value. *)
Definition index_ok (idx : pyindex) : bool :=
  match idx with
  | IScalar _ => true
  | ITuple vs =>
      Nat.leb (ellipses vs) 1
      && negb (Nat.ltb 0 (ellipses vs) && existsb is_fixed vs)
  end.

(** A [slice_info] description that generation accepts: with an
    ellipsis no fixed index, and without one every position from [0]
    on accounted for. *)
Definition slice_info_ok (fixed sliced : list (nat * pyval))
  (ellipsis : option nat) : bool :=
  match ellipsis with
  | Some _ => match fixed with [] => true | _ :: _ => false end
  | None =>
      forallb (fun i => existsb (fun kv => Nat.eqb i (fst kv))
                          (sliced ++ fixed))
        (seq 0 (value_map_len fixed sliced))
  end.

(** A call stack free of everything generation rejects, read in the
    order the entries are popped: no [set] or [del] entry, every index
    and every [slice_info] acceptable, the sliced object an indexed
    component, and every [call] entry made on the attribute
    [component]. *)
Fixpoint clean_stack `{ModelTree} (stack : list slice_call) : bool :=
  match stack with
  | [] => true
  | call _ :: get_attr a :: stack' =>
      String.eqb a "component" && clean_stack stack'
  | call _ :: _ => false
  | get_attr _ :: stack' => clean_stack stack'
  | get_item idx :: stack' => index_ok idx && clean_stack stack'
  | slice_info comp fixed sliced ellipsis :: stack' =>
      negb (has_component comp) && slice_info_ok fixed sliced ellipsis
      && clean_stack stack'
  | _ :: _ => false
  end.

Definition clean_log `{ModelTree} (_call_stack : list slice_call) : bool :=
  clean_stack (rev _call_stack).

(** [s] ends with the character [c]. *)
Definition ends_with (c : ascii) (s : string) : bool :=
  match last_char s with
  | Some d => Ascii.eqb d c
  | None => false
  end.

(** A name the verbose form carries unharmed: not empty, free of the
    separators ['.'] and [':'], and not ending a bracket. *)
Definition plain_name (n : string) : bool :=
  negb (String.eqb n "") && negb (char_in "." n) && negb (char_in ":" n)
  && negb (ends_with "]" n).

(** A string value the verbose form carries unharmed: free of the
    separators ['.'] and [','], and not ending a bracket. *)
Definition plain_text (s : string) : bool :=
  negb (char_in "." s) && negb (char_in "," s) && negb (ends_with "]" s).

(** A position the verbose form carries unharmed: an integer typed
    ['#'], a plain string typed ['$'], or the single wildcard, the empty
    string typed ['*']. *)
Definition verbose_val (t : ascii) (v : pyval) : bool :=
  match v with
  | VInt _ => Ascii.eqb t "#"
  | VStr s =>
      (Ascii.eqb t "$" && plain_text s)
      || (Ascii.eqb t "*" && String.eqb s "")
  | _ => false
  end.

Fixpoint verbose_vals (types : string) (args : list pyval) : bool :=
  match types, args with
  | EmptyString, [] => true
  | String t types', v :: args' => verbose_val t v && verbose_vals types' args'
  | _, _ => false
  end.

(** A segment the verbose form carries unharmed: a plain name with no
    index, or with typed plain positions other than the one string
    ['**']. *)
Definition verbose_seg (s : cid) : bool :=
  plain_name (cname s)
  && match cargs s, ctypes s with
     | IdxTuple args, Some types =>
         verbose_vals types args && negb (is_full_wildcard args)
     | _, _ => false
     end.

(** The text of one position in the verbose form. *)
Definition val_token (t : ascii) (v : pyval) : string :=
  (if Ascii.eqb t "." then "" else String t "") +:+ py_str v.

Fixpoint val_tokens (types : string) (args : list pyval) : list string :=
  match types, args with
  | String t types', v :: args' => val_token t v :: val_tokens types' args'
  | _, _ => []
  end.

(** The text of one explicit or unindexed segment in the verbose form. *)
Definition seg_token (s : cid) : string :=
  match cidx_items (cargs s), ctypes s with
  | _ :: _, Some types =>
      cname s +:+ ":" +:+ join "," (val_tokens types (cidx_items (cargs s)))
  | _, _ => cname s
  end.

(** A name the compact form carries unharmed. *)
Definition compact_name (n : string) : bool :=
  plain_name n && negb (char_in "[" n).

(** A string the compact form carries unharmed and that is read back as
    untyped text: not empty, free of ['.'] and [','], and not starting
    with a type character or a quote. *)
Definition bare_text (s : string) : bool :=
  match s with
  | EmptyString => false
  | String c _ => negb (char_in c tKeys) && negb (char_in c quote_chars)
  end
  && negb (char_in "." s) && negb (char_in "," s).

Definition compact_val (t : ascii) (v : pyval) : bool :=
  match v with
  | VInt _ => Ascii.eqb t "#"
  | VStr s =>
      (Ascii.eqb t "$" && bare_text s)
      || (Ascii.eqb t "*" && String.eqb s "")
  | _ => false
  end.

Fixpoint compact_vals (types : string) (args : list pyval) : bool :=
  match types, args with
  | EmptyString, [] => true
  | String t types', v :: args' => compact_val t v && compact_vals types' args'
  | _, _ => false
  end.

(** A fully typed segment the compact form carries: a compact name
    with no index, or with positions that are integers, bare strings or
    single wildcards. *)
Definition compact_seg (s : cid) : bool :=
  compact_name (cname s)
  && match cargs s, ctypes s with
     | IdxTuple args, Some types => compact_vals types args
     | _, _ => false
     end.

(** What parsing the compact form makes of a type string: the single
    wildcard stays, every other position becomes untyped. *)
Fixpoint untype (types : string) : string :=
  match types with
  | EmptyString => EmptyString
  | String t types' =>
      String (if Ascii.eqb t "*" then "*" else ".")%char (untype types')
  end.

(** What parsing the compact form makes of a segment: every position
    holds its text. *)
Definition compact_text (s : cid) : cid :=
  Cid (cname s)
    (IdxTuple (map (fun v => VStr (py_str v)) (cidx_items (cargs s))))
    (option_map untype (ctypes s)).

(** No component that the segment's name reaches has a member under a
    key, other than the segment's own index, that the candidate casts
    produce from the text of that index. *)
Definition collision_free `{ModelTree} (s : cid) : Prop :=
  forall obj c k,
    getattr (Some obj) (cname s) = Ok c ->
    In k (candidates (cidx_items (cargs (compact_text s)))
            (untyped_positions
               (match ctypes (compact_text s) with
                | Some t => t
                | None => ""
                end))) ->
    k <> cidx_items (cargs s) ->
    getitem c k = Raise KeyError.

(** The text of one segment in the compact form. *)
Definition compact_token (s : cid) : string :=
  match cidx_items (cargs s) with
  | [] => cname s
  | args => cname s +:+ "[" +:+ join "," (map str_or_star args) +:+ "]"
  end.

(** The values of an explicit pattern index agree with its type
    string: one type character per position, and a string as the value
    of every untyped position. *)
Fixpoint typed_args (types : string) (args : list pyval) : bool :=
  match types, args with
  | EmptyString, [] => true
  | String t types', v :: args' =>
      (if Ascii.eqb t "."
       then match v with VStr _ => true | _ => false end
       else true)
      && typed_args types' args'
  | _, _ => false
  end.

(** A pattern segment as [parse_cuid] and generation from a component
    build them: the full wildcard, or an explicit index that agrees
    with its type string. *)
Definition pattern_ok (s : cid) : bool :=
  match cargs s, ctypes s with
  | IdxAll, _ => true
  | IdxTuple args, Some types => typed_args types args
  | IdxTuple _, None => false
  end.


(** [enters pat b n]: from the object [b], enumeration under the
    pattern segment [pat] goes on with the object [n]. *)
Definition enters `{ModelTree} (pat : cid) (b n : node) : Prop :=
  exists c,
    getattr (Some b) (cname pat) = Ok c
    /\ ((cidx_len (cargs pat) = 0 /\ n = c)
        \/ (cidx_len (cargs pat) <> 0
            /\ is_direct (cargs pat) (ctypes pat) = Ok true
            /\ getitem c (cidx_items (cargs pat)) = Ok n)
        \/ (cidx_len (cargs pat) <> 0
            /\ is_direct (cargs pat) (ctypes pat) = Ok false
            /\ exists k, In (k, n) (iteritems c)
                         /\ keeps (cargs pat) (ctypes pat) k = Ok true)).

(** [descends outer b x]: enumeration from [b] under the pattern
    segments [outer], outermost first, arrives at [x]. *)
Inductive descends `{ModelTree} : list cid -> node -> node -> Prop :=
| descends_here (b : node) : descends [] b b
| descends_down (pat : cid) (rest : list cid) (b n x : node) :
    enters pat b n -> descends rest n x -> descends (pat :: rest) b x.

(** What the loop of [_generate_validated_index] accepts from a state
    of its two flags. *)
Definition validated_ok (f e : bool) (vs : list pyval) : bool :=
  if e then Nat.eqb (ellipses vs) 0 && negb (existsb is_fixed vs)
  else if f then Nat.eqb (ellipses vs) 0
  else Nat.leb (ellipses vs) 1
       && negb (Nat.ltb 0 (ellipses vs) && existsb is_fixed vs).

(** Every character of [s] satisfies [p]. *)
Fixpoint all_chars (p : ascii -> bool) (s : string) : bool :=
  match s with
  | EmptyString => true
  | String c s' => p c && all_chars p s'
  end.

(** Decimal digits, and the characters of the text of an integer. *)
Definition is_digit (c : ascii) : bool :=
  match c with
  | "0" | "1" | "2" | "3" | "4" | "5" | "6" | "7" | "8" | "9" => true
  | _ => false
  end%char.

Definition is_digit_or_minus (c : ascii) : bool :=
  is_digit c || Ascii.eqb c "-".


(** What generation stores for one position of an index: the empty
    string for the single wildcard, the string ['**'] for the ellipsis,
    the value itself otherwise. *)
Definition validated_val (v : pyval) : pyval :=
  if is_wild v then VStr ""
  else if is_ellipsis v then VStr "**"
  else v.

(** A segment that names one object outright: no index, or a
    non-empty explicit index whose type string is not empty and free
    of wildcards and of untyped positions. *)
Definition exact_seg (s : cid) : bool :=
  match cargs s, ctypes s with
  | IdxTuple [], _ => true
  | IdxTuple (_ :: _), Some t =>
      negb (String.eqb t "") && negb (char_in "*" t) && negb (char_in "." t)
  | _, _ => false
  end.

(** The segment [parse_cuid] builds from a name and the text of its
    index. *)
Definition parse_suffix (n suffix : string) : result cid :=
  '(idx, _type) <- parse_vals (split "," suffix) ;;
  if is_full_wildcard idx then Ok (Cid n IdxAll None)
  else Ok (Cid n (IdxTuple idx) (Some _type)).

(** The same names and index texts written as a label in the bracket
    syntax and in the colon syntax. *)
Definition bracket_label (l : list (string * string)) : string :=
  join "." (map (fun p => fst p +:+ "[" +:+ snd p +:+ "]") l).

Definition colon_label (l : list (string * string)) : string :=
  join "." (map (fun p => fst p +:+ ":" +:+ snd p) l).

(** A name and an index text that both syntaxes delimit alike: the
    name free of ['.'], ['['] and [':'], the text free of ['.'] and
    not ending in a bracket. *)
Definition index_text_ok (p : string * string) : bool :=
  negb (char_in "." (fst p)) && negb (char_in "[" (fst p))
  && negb (char_in ":" (fst p))
  && negb (char_in "." (snd p)) && negb (ends_with "]" (snd p)).

(** A full-wildcard segment with a plain name. *)
Definition wildcard_seg (s : cid) : bool :=
  plain_name (cname s) && is_all (cargs s)
  && match ctypes s with None => true | Some _ => false end.

(** The text of a segment in the verbose form, the full wildcard
    included. *)
Definition verbose_token (s : cid) : string :=
  match cargs s with
  | IdxAll => cname s +:+ ":**"
  | IdxTuple _ => seg_token s
  end.

(** What parsing makes of the verbose text of a segment: a full
    wildcard comes back as one position holding [slice('*')] typed
    ['*']. *)
Definition reparsed_seg (s : cid) : cid :=
  match cargs s with
  | IdxAll => Cid (cname s) (IdxTuple [VSlice (VStr "*")]) (Some "*")
  | IdxTuple _ => s
  end.

(** Two pattern segments that differ at most in the values they hold
    at the positions typed ['*']. *)
Definition star_equiv (p q : cid) : Prop :=
  cname p = cname q /\ ctypes p = ctypes q
  /\ match cargs p, cargs q with
     | IdxAll, IdxAll => True
     | IdxTuple a, IdxTuple b =>
         List.length a = List.length b
         /\ forall j, types_get (ctypes p) j <> Ok "*"%char ->
                      nth_error a j = nth_error b j
     | _, _ => False
     end.

(** A key value the verbose form carries unharmed: an integer, or a
    plain string. *)
Definition text_val (v : pyval) : bool :=
  match v with
  | VInt _ => true
  | VStr s => plain_text s
  | _ => false
  end.

(** An object whose segment the verbose form carries unharmed: the
    name of its component is plain, and if it is a member of an
    indexed component its key holds only integers and plain strings
    and is not the single string ['**']. *)
Definition plain_object `{ModelTree} (n : node) : Prop :=
  plain_name (local_name (parent_component n)) = true
  /\ forall k,
      parent_component n <> n ->
      In (k, n) (iteritems (parent_component n)) ->
      forallb text_val (norm_index k) = true
      /\ norm_index k <> [VStr "**"].

(** Two segments the compact form cannot tell apart: the same name,
    the same texts at the positions of the index, and a type string in
    both or in neither. *)
Definition same_text (p q : cid) : Prop :=
  cname p = cname q
  /\ map str_or_star (cidx_items (cargs p))
     = map str_or_star (cidx_items (cargs q))
  /\ (ctypes p = None <-> ctypes q = None).

(** The object [k] steps up from [x] along [parent_block]. *)
Fixpoint ascend `{ModelTree} (k : nat) (x : node) : option node :=
  match k with
  | O => Some x
  | S k' =>
      match ascend k' x with
      | Some y => parent_block y
      | None => None
      end
  end.

(** A key value the compact form carries and reads back as untyped
    text: an integer, or a bare string. *)
Definition bare_val (v : pyval) : bool :=
  match v with
  | VInt _ => true
  | VStr s => bare_text s
  | _ => false
  end.

(** An object whose segment the compact form carries: the name of its
    component is compact, and if it is a member of an indexed component
    its key holds only integers and bare strings. *)
Definition compact_object `{ModelTree} (n : node) : Prop :=
  compact_name (local_name (parent_component n)) = true
  /\ forall k,
      parent_component n <> n ->
      In (k, n) (iteritems (parent_component n)) ->
      forallb bare_val (norm_index k) = true.

(** A segment that is a wildcard over a whole component: the full
    wildcard, or a non-empty index every position of which is typed
    ['*']. *)
Definition wild_seg (s : cid) : bool :=
  is_all (cargs s)
  || match cargs s, ctypes s with
     | IdxTuple (_ :: _), Some t => all_chars (fun d => Ascii.eqb d "*") t
     | _, _ => false
     end.

(** The outcome of a comparison with its operands exchanged. *)
Definition opp (r : result comparison) : result comparison :=
  match r with
  | Ok c => Ok (CompOpp c)
  | Raise e => Raise e
  end.

(** * Properties *)

(** ** Construction from a string *)

(** C9: a CUID built from a string rejects every context that is not
    [None] with a ValueError, whatever the string is; the string is not
    parsed. *)
Theorem init_from_string_rejects_context `{T : ModelTree}
  (fuel : nat) (label : string) (cuid_buffer : option cuid_dict)
  (context : node) :
  ComponentUID fuel (inl label) cuid_buffer (Some context)
  = Some (Raise ValueError).
Proof. reflexivity. Qed.

(** ** Parsing *)

Lemma tDict_type_of_key (c : ascii) :
  char_in c tKeys = true -> tDict_type c <> None.
Proof.
  unfold tKeys, tDict_type; simpl.
  destruct (Ascii.eqb c "#") eqn:E1; [discriminate |].
  destruct (Ascii.eqb c "$") eqn:E2; [discriminate |].
  destruct (Ascii.eqb c "*") eqn:E3; [discriminate |].
  discriminate.
Qed.

Lemma int_of_str_raises (s : string) (e : exn) :
  int_of_str s = Raise e -> e = ValueError.
Proof.
  unfold int_of_str.
  destruct (rstrip_space (lstrip_space s)) as [|c d];
    [| destruct (Ascii.eqb_spec c "+"); [subst |
       destruct (Ascii.eqb_spec c "-"); [subst |]]].
  all: repeat match goal with
         | |- context [match ?x with _ => _ end] => destruct x eqn:?
         end; try congruence.
Qed.

Lemma cast_str_raises (t : pytype) (s : string) (e : exn) :
  cast t (VStr s) = Raise e -> e = ValueError.
Proof.
  destruct t; simpl; try discriminate.
  destruct (int_of_str s) eqn:E; simpl; [discriminate |].
  intros [= <-]. eauto using int_of_str_raises.
Qed.

Lemma parse_val_raises (val : string) (e : exn) :
  parse_val val = Raise e -> e = IndexError \/ e = ValueError.
Proof.
  unfold parse_val.
  destruct (String.eqb val "*"); [discriminate |].
  destruct val as [|c0 rest]; [intros [= <-]; auto |].
  destruct (char_in c0 tKeys) eqn:K.
  - destruct (tDict_type c0) as [t|] eqn:D;
      [| now apply tDict_type_of_key in K].
    destruct (cast t (VStr rest)) eqn:C; simpl; [discriminate |].
    intros [= <-]. right. eauto using cast_str_raises.
  - destruct (_ && _); discriminate.
Qed.

Lemma parse_vals_raises (idx : list string) (e : exn) :
  parse_vals idx = Raise e -> e = IndexError \/ e = ValueError.
Proof.
  induction idx as [|val idx IH]; simpl; [discriminate |].
  destruct (parse_val val) as [[t v]|e'] eqn:V; simpl.
  - destruct (parse_vals idx) as [[vs ts]|e''] eqn:R; simpl;
      [discriminate | intros [= <-]; auto].
  - intros [= <-]. eauto using parse_val_raises.
Qed.

Lemma split1_not_nil (sep : ascii) (s : string) : split1 sep s <> [].
Proof.
  induction s as [|c s IH]; simpl; [discriminate |].
  destruct (Ascii.eqb c sep); [discriminate |].
  destruct (split1 sep s); [contradiction | discriminate].
Qed.

Lemma parse_token_raises (c : string) (e : exn) :
  parse_token c = Raise e -> e = IndexError \/ e = ValueError.
Proof.
  unfold parse_token.
  destruct (last_char c) as [l|]; [| intros [= <-]; auto].
  match goal with
  | |- context [match ?ci with _ => _ end] => destruct ci as [|n [|suffix ?]]
  end; try discriminate; try (intros [= <-]; auto).
  destruct (parse_vals (split "," suffix)) as [[idx ty]|e'] eqn:V; simpl.
  - destruct (is_full_wildcard idx); discriminate.
  - intros [= <-]. eauto using parse_vals_raises.
Qed.

Lemma parse_tokens_empty_token (cList : list string) :
  In "" cList ->
  tuple_of (parse_tokens cList) = Raise IndexError
  \/ tuple_of (parse_tokens cList) = Raise ValueError.
Proof.
  induction cList as [|c cList IH]; simpl; [contradiction |].
  intros H. destruct (parse_token c) as [s|e] eqn:P; simpl.
  - destruct H as [E | H]; [subst c; discriminate P |].
    specialize (IH H). unfold tuple_of in *; simpl.
    destruct (raised (parse_tokens cList));
      [exact IH | destruct IH; discriminate].
  - apply parse_token_raises in P. unfold tuple_of; simpl.
    destruct P as [-> | ->]; auto.
Qed.

(** C6, as the code has it: [parse_cuid] has no check of its own for an
    ellipsis next to a value.  A label in which two dots are adjacent, as
    in the text [x[1,...]], has an empty token once it is split on ['.'],
    and parsing it raises: an IndexError at the empty token, unless the
    conversion of a token met before it raised a ValueError. *)
Theorem parse_cuid_empty_token (label : string) :
  In "" (split "." label) ->
  tuple_of (parse_cuid label) = Raise IndexError
  \/ tuple_of (parse_cuid label) = Raise ValueError.
Proof.
  intros H. apply parse_tokens_empty_token. now apply in_rev in H.
Qed.

Lemma parse_cuid_empty_token_witness :
  In "" (split "." "x[1,...]")
  /\ (tuple_of (parse_cuid "x[1,...]") = Raise IndexError
      \/ tuple_of (parse_cuid "x[1,...]") = Raise ValueError).
Proof.
  split; [simpl; auto | apply parse_cuid_empty_token; simpl; auto].
Defined.

(** The text [x[1,...]] itself ends in the IndexError. *)
Example parse_ellipsis_text :
  tuple_of (parse_cuid "x[1,...]") = Raise IndexError.
Proof. reflexivity. Qed.

(** C6 fails as stated: a full wildcard next to a value is accepted and
    parsed into an identifier. *)
Lemma parse_cuid_mixed_wildcard_accepted :
  tuple_of (parse_cuid "x[1,**]")
  = Ok [Cid "x" (IdxTuple [VStr "1"; VSlice (VStr "*")]) (Some ".*")].
Proof. reflexivity. Qed.

(** ** Generation from a live component *)

Lemma node_is_true `{T : ModelTree} (a b : node) :
  node_is a b = true <-> a = b.
Proof. unfold node_is. destruct (node_eq_dec a b); split; congruence. Qed.

Lemma node_is_false `{T : ModelTree} (a b : node) :
  node_is a b = false <-> a <> b.
Proof. unfold node_is. destruct (node_eq_dec a b); split; congruence. Qed.

Lemma node_is_refl `{T : ModelTree} (a : node) : node_is a a = true.
Proof. now apply node_is_true. Qed.

Lemma plain_val_eqb (v : pyval) :
  plain_val v = true ->
  pyval_eqb v (VSlice VNone) = false /\ pyval_eqb v VEllipsis = false.
Proof. destruct v; simpl; intros; try discriminate; auto. Qed.

Lemma validated_index_plain (idx : list pyval) (f : bool) (vs : list pyval) :
  forallb plain_val vs = true ->
  validated_index_loop idx f false vs = gen_done vs.
Proof.
  revert f. induction vs as [|v vs IH]; intros f; simpl; [reflexivity |].
  intros H. apply andb_prop in H as [Hv Hvs].
  destruct (plain_val_eqb v Hv) as [-> ->].
  rewrite IH by assumption. reflexivity.
Qed.

(** On a plain key [_partial_cuid_from_index] returns the key's values
    and their type characters. *)
Lemma partial_cuid_plain (k : pyindex) :
  plain_key k ->
  _partial_cuid_from_index k
  = Ok (IdxTuple (norm_index k), Some (type_keys (norm_index k))).
Proof.
  intros [_ H]. destruct k as [v | vs]; simpl in *.
  - apply andb_prop in H as [Hv _].
    destruct (plain_val_eqb v Hv) as [-> ->]. reflexivity.
  - unfold _generate_validated_index. rewrite validated_index_plain by assumption.
    reflexivity.
Qed.

Section GenerateProps.
Context `{T : ModelTree} (depth : node -> nat) (WF : WellFormed depth).

Lemma scan_items_find (c component : node) (items : list (pyindex * node)) :
  scan_items c component items
  = match find (fun kv => node_is (snd kv) component) items with
    | Some kv =>
        gen_bind (_partial_cuid_from_index (fst kv))
          (fun p => gen_done [Cid (local_name c) (fst p) (snd p)])
    | None => gen_done []
    end.
Proof.
  induction items as [|[k o] items IH]; simpl; [reflexivity |].
  destruct (node_is o component); [reflexivity | exact IH].
Qed.

(** A member is found in its component, under a plain key. *)
Lemma member_key_found (component : node) :
  has_component component = true ->
  parent_component component <> component ->
  exists k, member_key (parent_component component) component = Some k
            /\ In (k, component) (iteritems (parent_component component))
            /\ plain_key k.
Proof.
  intros Hc Hne. destruct (wf_member depth WF _ Hc Hne) as [Hb [k Hin]].
  unfold member_key.
  destruct (find _ _) as [[k' o]|] eqn:F.
  - apply find_some in F as [Hin' Ho]. simpl in Ho.
    apply node_is_true in Ho. subst o. exists k'.
    split; [reflexivity | split; [assumption |]].
    now destruct (wf_item depth WF _ _ _ Hb Hin') as (_ & _ & _ & ?).
  - eapply find_none in F; [| exact Hin]. simpl in F.
    now rewrite node_is_refl in F.
Qed.

(** The pass of the loop over one object yields exactly its segment. *)
Lemma scan_items_data (component : node) :
  has_component component = true ->
  parent_component component <> component ->
  scan_items (parent_component component) component
    (iteritems (parent_component component))
  = gen_done [data_cid component].
Proof.
  intros Hc Hne.
  destruct (member_key_found _ Hc Hne) as (k & Hk & Hin & Hp).
  rewrite scan_items_find. unfold data_cid.
  apply node_is_false in Hne. rewrite Hne. rewrite Hk.
  unfold member_key in Hk.
  destruct (find _ _) as [[k' o]|]; [| discriminate].
  simpl in Hk. injection Hk as ->. simpl.
  rewrite (partial_cuid_plain _ Hp). reflexivity.
Qed.

Lemma run_yield_seq (x : cid) (r : option run) :
  run_seq (gen_done [x]) r None = run_yield x r.
Proof. destruct r as [[[ys st] b]|]; reflexivity. Qed.

(** One pass of the loop without a buffer, away from the context and
    the model. *)
Lemma generate_loop_step (fuel : nat) (m ctx comp : node) :
  has_component comp = true -> comp <> ctx -> comp <> m ->
  generate_loop (S fuel) m ctx (Some comp) None
  = run_yield (data_cid comp)
      (generate_loop fuel m ctx (parent_block comp) None).
Proof.
  intros Hc Hctx Hm. simpl.
  apply node_is_false in Hctx, Hm. rewrite Hctx, Hm.
  destruct (node_is (parent_component comp) comp) eqn:E.
  - unfold data_cid. rewrite E. reflexivity.
  - apply node_is_false in E.
    rewrite (scan_items_data _ Hc E). apply run_yield_seq.
Qed.

(** [model] gives the top of the chain of parent blocks. *)
Lemma model_is_root (n : node) : parent_block (model n) = None.
Proof.
  remember (depth n) as d eqn:Hd. revert n Hd.
  induction d as [d IH] using lt_wf_ind. intros n ->.
  destruct (parent_block n) as [p|] eqn:P.
  - rewrite (wf_model_up depth WF _ _ P).
    eapply IH; [| reflexivity]. exact (wf_depth depth WF _ _ P).
  - rewrite (wf_model_root depth WF _ P). exact P.
Qed.

Lemma path_to_model (ctx x : node) (l : list node) :
  path_to ctx x l -> model x = model ctx.
Proof.
  induction 1 as [| x p l _ P _ IH]; [reflexivity |].
  now rewrite (wf_model_up depth WF _ _ P).
Qed.

Lemma path_to_unique (ctx x : node) (l l' : list node) :
  path_to ctx x l -> path_to ctx x l' -> l = l'.
Proof.
  intros H. revert l'. induction H as [| x p l Hne P _ IH]; intros l' H'.
  - inversion H'; subst; [reflexivity | congruence].
  - inversion H' as [| x' p' l'' _ P' H'']; subst; [congruence |].
    rewrite P in P'. injection P' as <-. f_equal. auto.
Qed.

Lemma path_to_data (ctx x : node) (l : list node) :
  has_component x = true -> path_to ctx x l ->
  Forall (fun n => has_component n = true) l.
Proof.
  intros Hx H. induction H as [| x p l _ P _ IH]; constructor; auto.
  apply IH. exact (wf_block depth WF _ _ P).
Qed.

Lemma path_to_app (m ctx x : node) (l1 l2 : list node) :
  parent_block m = None ->
  path_to ctx x l1 -> path_to m ctx l2 -> path_to m x (l1 ++ l2).
Proof.
  intros Hm H1 H2. induction H1 as [| x p l Hne P _ IH]; simpl; auto.
  apply path_up with p; auto. congruence.
Qed.

(** Every object lies below its model. *)
Lemma ancestor_model (n : node) : ancestor (model n) n.
Proof.
  remember (depth n) as d eqn:Hd. revert n Hd.
  induction d as [d IH] using lt_wf_ind. intros n ->.
  destruct (parent_block n) as [p|] eqn:P.
  - destruct (IH _ (wf_depth depth WF _ _ P) p eq_refl) as [l Hl].
    rewrite (wf_model_up depth WF _ _ P). exists (n :: l).
    apply path_up with p; auto.
    intros E. pose proof (model_is_root p) as R. congruence.
  - rewrite (wf_model_root depth WF _ P). exists []. constructor.
Qed.

(** The loop without a buffer ends: at the context, having yielded the
    segments of the objects passed, or at the model with a ValueError
    when the context is not met. *)
Lemma generate_loop_total (m ctx : node) (fuel : nat) (comp : node) :
  has_component comp = true -> model comp = m -> depth comp < fuel ->
  exists segs stop,
    generate_loop fuel m ctx (Some comp) None = Some (Gen segs stop, None)
    /\ ((stop = None
         /\ exists l, path_to ctx comp l /\ segs = map data_cid l)
        \/ (stop = Some ValueError /\ ~ ancestor ctx comp)).
Proof.
  revert comp. induction fuel as [|fuel IH]; intros comp Hc Hm Hd; [lia |].
  destruct (node_eq_dec comp ctx) as [-> | Hctx].
  - exists [], None. simpl. rewrite node_is_refl. split; [reflexivity |].
    left. split; [reflexivity |]. exists []. split; constructor.
  - destruct (node_eq_dec comp m) as [-> | Hne].
    + exists [], (Some ValueError). simpl.
      apply node_is_false in Hctx. rewrite Hctx, node_is_refl.
      split; [reflexivity |]. right. split; [reflexivity |].
      intros [l Hl]. apply node_is_false in Hctx.
      inversion Hl as [| x p l' _ P _]; subst; [congruence |].
      rewrite <- Hm in P at 1. rewrite model_is_root in P. discriminate.
    + rewrite generate_loop_step by assumption.
      destruct (parent_block comp) as [p|] eqn:P.
      * destruct (IH p) as (segs & stop & -> & Hs).
        { exact (wf_block depth WF _ _ P). }
        { now rewrite <- (wf_model_up depth WF _ _ P). }
        { pose proof (wf_depth depth WF _ _ P). lia. }
        exists (data_cid comp :: segs), stop. split; [reflexivity |].
        destruct Hs as [[-> (l & Hl & ->)] | [-> Hn]].
        -- left. split; [reflexivity |]. exists (comp :: l).
           split; [eapply path_up; eauto | reflexivity].
        -- right. split; [reflexivity |]. intros [l Hl]. apply Hn.
           inversion Hl as [| x p' l' _ P' Hp]; subst; [congruence |].
           rewrite P in P'. injection P' as <-. now exists l'.
      * exfalso. apply Hne. rewrite <- Hm.
        symmetry. exact (wf_model_root depth WF _ P).
Qed.

(** What [_generate_cuid] does without a buffer. *)
Lemma generate_cuid_total (fuel : nat) (component : node)
  (context : option node) :
  depth component < fuel ->
  (forall c, context = Some c -> has_component c = true) ->
  let ctx := match context with Some c => c | None => model component end in
  exists segs stop,
    _generate_cuid fuel component None context
    = Some (Gen segs stop, None)
    /\ ((stop = None
         /\ exists l, path_to ctx component l
                      /\ segs = if has_component component
                                then map data_cid l
                                else Cid (local_name component) IdxAll None
                                       :: map data_cid (tl l))
        \/ (stop = Some ValueError /\ ~ ancestor ctx component)).
Proof.
  intros Hd Hctx ctx. unfold _generate_cuid. fold ctx.
  assert (Hbare : has_component component = false -> component <> ctx).
  { intros Hc E. subst ctx. destruct context as [c|].
    - specialize (Hctx c eq_refl). congruence.
    - pose proof (model_is_root component) as R.
      rewrite <- E in R. pose proof (wf_root depth WF _ R). congruence. }
  clearbody ctx.
  destruct (has_component component) eqn:Hc; simpl.
  - apply generate_loop_total; auto.
  - destruct (parent_block component) as [p|] eqn:P.
    + pose proof (wf_depth depth WF _ _ P).
      destruct (generate_loop_total (model component) ctx fuel p)
        as (segs & stop & -> & Hs).
      { exact (wf_block depth WF _ _ P). }
      { now rewrite <- (wf_model_up depth WF _ _ P). }
      { lia. }
      assert (Hne : component <> ctx) by auto.
      exists (Cid (local_name component) IdxAll None :: segs), stop.
      split; [reflexivity |].
      destruct Hs as [[-> (l & Hl & ->)] | [-> Hn]].
      * left. split; [reflexivity |]. exists (component :: l).
        split; [eapply path_up; eauto | reflexivity].
      * right. split; [reflexivity |]. intros [l Hl]. apply Hn.
        inversion Hl as [| x p' l' _ P' Hp]; subst; [congruence |].
        rewrite P in P'. injection P' as <-. now exists l'.
    + pose proof (wf_root depth WF _ P). congruence.
Qed.

End GenerateProps.

(** The sample model is well formed. *)
Lemma sample_wf : WellFormed sample_depth.
Proof.
  constructor.
  - intros [] p H; inversion H; subst; simpl; lia.
  - intros [] H; try discriminate H; reflexivity.
  - intros [] H; try discriminate H; reflexivity.
  - intros [] p H; reflexivity.
  - intros [] p H; inversion H; reflexivity.
  - intros [] b Hc H; try discriminate Hc; inversion H; reflexivity.
  - intros [] Hc H; try discriminate Hc; try reflexivity; discriminate H.
  - intros [] Hc H; try discriminate Hc;
      try (exfalso; apply H; reflexivity);
      (split; [reflexivity | simpl; eauto 6]).
  - intros [] name c H; simpl in H;
      repeat match type of H with
        | context [String.eqb ?a ?b] =>
            destruct (String.eqb_spec a b); subst
        end; inversion H; subst; simpl; repeat split; intros;
      try reflexivity; try discriminate.
  - intros [] k o Hc H; try discriminate Hc; simpl in H;
      repeat (destruct H as [H | H];
              [inversion H; subst; repeat split; simpl; congruence |]);
      contradiction.
  - intros [] Hc; try discriminate Hc; simpl; repeat constructor; simpl;
      intuition congruence.
  - intros []; simpl; repeat constructor; simpl; intuition congruence.
Qed.

Section ContextProps.
Context `{T : ModelTree} (depth : node -> nat) (WF : WellFormed depth).

(** C7: generation from a component with an explicit context, itself a
    block or component data, ends in a ValueError exactly when the
    context is not the target or one of the blocks above it.  When it
    is, generation succeeds and stops at the context: the segments
    produced, followed by the context's own identifier, are the
    target's identifier relative to the model. *)
Theorem generate_cuid_context (fuel : nat) (component context : node) :
  has_component context = true ->
  depth component < fuel ->
  exists segs stop,
    _generate_cuid fuel component None (Some context)
    = Some (Gen segs stop, None)
    /\ (stop = Some ValueError <-> ~ ancestor context component)
    /\ (ancestor context component ->
        stop = None
        /\ exists outer,
            _generate_cuid fuel context None None
            = Some (Gen outer None, None)
            /\ _generate_cuid fuel component None None
               = Some (Gen (segs ++ outer) None, None)).
Proof.
  intros Hctx Hd.
  destruct (generate_cuid_total depth WF fuel component (Some context) Hd)
    as (segs & stop & E & Hs).
  { now intros c [= <-]. }
  cbv zeta in E, Hs. exists segs, stop. split; [exact E |].
  destruct Hs as [[-> (l & Hl & Hsegs)] | [-> Hn]].
  - split; [split; [discriminate | intros Hn; exfalso; apply Hn; now exists l] |].
    intros _. split; [reflexivity |].
    assert (Hm : model component = model context)
      by exact (path_to_model depth WF _ _ _ Hl).
    assert (Hdc : depth context < fuel).
    { clear - WF Hl Hd. induction Hl as [| x p l _ P _ IH]; [assumption |].
      apply IH. pose proof (wf_depth depth WF _ _ P). lia. }
    destruct (generate_cuid_total depth WF fuel context None Hdc)
      as (outer & stop' & E' & Hs'); [discriminate |].
    cbv zeta in E', Hs'. rewrite Hctx in Hs'.
    destruct Hs' as [[-> (l2 & Hl2 & ->)] | [_ Hn]];
      [| exfalso; apply Hn; apply (ancestor_model depth WF)].
    exists (map data_cid l2). split; [exact E' |].
    destruct (generate_cuid_total depth WF fuel component None Hd)
      as (all & stop'' & E'' & Hs''); [discriminate |].
    cbv zeta in E'', Hs''. rewrite E''.
    assert (Hp : path_to (model component) component (l ++ l2)).
    { rewrite Hm. eapply path_to_app; eauto.
      apply (model_is_root depth WF). }
    destruct Hs'' as [[-> (l3 & Hl3 & ->)] | [_ Hn]];
      [| exfalso; apply Hn; apply (ancestor_model depth WF)].
    rewrite (path_to_unique _ _ _ _ Hl3 Hp), Hsegs.
    destruct (has_component component) eqn:Hc.
    + now rewrite map_app.
    + inversion Hl as [| x p l' _ P _]; subst; [congruence |].
      simpl. now rewrite map_app.
  - split; [split; auto |]. intros A. contradiction.
Qed.

End ContextProps.

Lemma generate_cuid_context_witness :
  exists segs stop,
    _generate_cuid 3 V None (Some B1) = Some (Gen segs stop, None)
    /\ (stop = Some ValueError <-> ~ ancestor B1 V)
    /\ (ancestor B1 V ->
        stop = None
        /\ exists outer,
            _generate_cuid 3 B1 None None = Some (Gen outer None, None)
            /\ _generate_cuid 3 V None None
               = Some (Gen (segs ++ outer) None, None)).
Proof.
  apply (@generate_cuid_context Sample sample_depth sample_wf 3 V B1);
    [reflexivity | simpl; lia].
Defined.

(** The other side of C7 on the sample model: [B1] is not above [X1]. *)
Example generate_cuid_foreign_context :
  option_map (fun r => tuple_of (fst r)) (_generate_cuid 3 X1 None (Some B1))
  = Some (Raise ValueError).
Proof. reflexivity. Qed.

(** C7 fails as stated for a context that is an indexed component.
    The loop climbs through [parent_block], which never returns an
    indexed component, so such a context is not met: with [m.x] as
    both target and context, and with [m.b], the component of the
    block [m.b[1]] that holds the target [m.b[1].v], as context,
    generation yields its segments and then ends in ValueError. *)
Lemma generate_cuid_indexed_context :
  has_component X = false
  /\ ancestor X X
  /\ option_map fst (_generate_cuid 3 X None (Some X))
     = Some (Gen [Cid "x" IdxAll None] (Some ValueError))
  /\ has_component B = false
  /\ parent_block V = Some B1
  /\ parent_component B1 = B
  /\ option_map fst (_generate_cuid 3 V None (Some B))
     = Some (Gen [Cid "v" (IdxTuple []) (Some "");
                  Cid "b" (IdxTuple [VInt 1]) (Some "#")]
               (Some ValueError)).
Proof.
  repeat split. exists []. constructor.
Qed.

(** ** The identity-keyed buffer *)

Section BufferProps.
Context `{T : ModelTree} (depth : node -> nat) (WF : WellFormed depth).

Lemma dict_get_set (k k' : pyid) (v : partial_cuid) (d : cuid_dict) :
  dict_get k (dict_set k' v d)
  = if pyid_eqb k' k then Ok v else dict_get k d.
Proof. unfold dict_get, dict_set; simpl. now destruct (pyid_eqb k' k). Qed.

(** Filling the buffer from a component with plain keys and distinct
    members: every member ends under its own key's pair, other entries
    are as before, and [id(self)] is still absent. *)
Lemma fill_buffer_spec (items : list (pyindex * node)) (d : cuid_dict) :
  NoDup (map snd items) ->
  (forall k o, In (k, o) items -> plain_key k) ->
  exists d',
    fill_buffer items d = (d', None)
    /\ dict_has IdSelf d' = dict_has IdSelf d
    /\ (forall k o, In (k, o) items ->
        dict_get (IdNode o) d'
        = Ok (IdxTuple (norm_index k), Some (type_keys (norm_index k))))
    /\ (forall o, ~ In o (map snd items) ->
        dict_get (IdNode o) d' = dict_get (IdNode o) d).
Proof.
  revert d. induction items as [|[k0 o0] items IH]; intros d Hnd Hp.
  - exists d. simpl. repeat split; auto. intros k o [].
  - simpl in Hnd. inversion Hnd as [| ? ? Hnotin Hnd']; subst.
    simpl. rewrite (partial_cuid_plain k0) by (eapply Hp; left; reflexivity).
    destruct (IH (dict_set (IdNode o0)
                    (IdxTuple (norm_index k0),
                     Some (type_keys (norm_index k0))) d) Hnd')
      as (d' & -> & Hself & Hin & Hout).
    { intros k o H. eapply Hp. right. exact H. }
    exists d'. split; [reflexivity |]. split; [exact Hself |]. split.
    + intros k o [[= -> ->] | H].
      * rewrite (Hout _ Hnotin), dict_get_set. simpl.
        now rewrite node_is_refl.
      * eauto.
    + intros o Ho. rewrite Hout by (intros H; apply Ho; now right).
      rewrite dict_get_set. simpl.
      destruct (node_is o0 o) eqn:E; [| reflexivity].
      apply node_is_true in E. subst. exfalso. apply Ho. now left.
Qed.

Lemma fst_run_yield (x : cid) (r : option run) :
  option_map fst (run_yield x r) = option_map (gen_yield x) (option_map fst r).
Proof. now destruct r as [[g b]|]. Qed.

(** The loop yields the same with a buffer that lacks [id(self)] as
    without a buffer. *)
Lemma generate_loop_buffer (m ctx : node) (fuel : nat)
  (comp : option node) (d : cuid_dict) :
  (forall c, comp = Some c -> has_component c = true) ->
  dict_has IdSelf d = false ->
  option_map fst (generate_loop fuel m ctx comp (Some d))
  = option_map fst (generate_loop fuel m ctx comp None).
Proof.
  revert comp d. induction fuel as [|fuel IH]; intros comp d Hc Hd;
    [reflexivity |].
  destruct comp as [c|]; [| reflexivity].
  specialize (Hc c eq_refl).
  assert (Hup : forall p, parent_block c = Some p -> has_component p = true).
  { intros p P. exact (wf_block depth WF _ _ P). }
  simpl. destruct (node_is c ctx); [reflexivity |].
  destruct (node_is c m); [reflexivity |].
  destruct (node_is (parent_component c) c) eqn:E.
  - rewrite !fst_run_yield. f_equal. apply IH; auto.
  - apply node_is_false in E.
    rewrite (scan_items_data depth WF _ Hc E), run_yield_seq.
    destruct (member_key_found depth WF _ Hc E) as (k & Hk & Hin & Hp).
    destruct (wf_member depth WF _ Hc E) as [Hb _].
    destruct (fill_buffer_spec (iteritems (parent_component c)) d)
      as (d' & Hfill & Hself & Hget & _).
    { apply (wf_members depth WF). }
    { intros k' o H. now destruct (wf_item depth WF _ _ _ Hb H) as (_&_&_&?). }
    rewrite Hd. simpl. rewrite Hfill. simpl.
    rewrite (Hget _ _ Hin). simpl.
    rewrite !fst_run_yield. unfold data_cid.
    apply node_is_false in E. rewrite E, Hk. unfold key_cid.
    f_equal. apply IH; auto. congruence.
Qed.

(** C10: generation with a freshly supplied, empty [cuid_buffer] ends
    and yields exactly what generation without a buffer yields, for
    every component and every context of a well-formed tree. *)
Theorem cuid_buffer_transparent (fuel : nat) (component : node)
  (context : option node) :
  depth component < fuel ->
  exists g,
    option_map fst (_generate_cuid fuel component None context) = Some g
    /\ option_map fst (_generate_cuid fuel component (Some []) context)
       = Some g.
Proof.
  intros Hd.
  assert (Hsame :
    option_map fst (_generate_cuid fuel component (Some []) context)
    = option_map fst (_generate_cuid fuel component None context)).
  { unfold _generate_cuid.
    destruct (has_component component) eqn:Hc; simpl.
    - apply generate_loop_buffer; [| reflexivity]. now intros c [= <-].
    - rewrite !fst_run_yield. f_equal.
      apply generate_loop_buffer; [| reflexivity].
      intros p P. exact (wf_block depth WF _ _ P). }
  rewrite Hsame.
  set (ctx := match context with Some c => c | None => model component end).
  unfold _generate_cuid. fold ctx.
  destruct (has_component component) eqn:Hc; simpl.
  - destruct (generate_loop_total depth WF (model component) ctx fuel
                component Hc eq_refl Hd) as (segs & stop & -> & _).
    simpl. eexists; split; reflexivity.
  - destruct (parent_block component) as [p|] eqn:P.
    + pose proof (wf_depth depth WF _ _ P).
      destruct (generate_loop_total depth WF (model component) ctx fuel p)
        as (segs & stop & -> & _).
      { exact (wf_block depth WF _ _ P). }
      { now rewrite <- (wf_model_up depth WF _ _ P). }
      { lia. }
      simpl. eexists; split; reflexivity.
    + pose proof (wf_root depth WF _ P). congruence.
Qed.

End BufferProps.

Lemma cuid_buffer_transparent_witness :
  exists g,
    option_map fst (_generate_cuid 3 V None None) = Some g
    /\ option_map fst (_generate_cuid 3 V (Some []) None) = Some g.
Proof.
  apply (@cuid_buffer_transparent Sample sample_depth sample_wf 3 V None).
  simpl; lia.
Defined.

(** ** Matching *)

Lemma skipn_nth_error {A} (l : list A) (i : nat) (x : A) :
  nth_error l i = Some x -> skipn i l = x :: skipn (S i) l.
Proof.
  revert i. induction l as [|y l IH]; intros [|i]; simpl; try discriminate.
  - now intros [= ->].
  - intros H. now rewrite (IH _ H).
Qed.

(** The loop of [matches] answers [True] exactly when the generator
    ended normally after at least one segment and the segments left of
    the pattern accept the generated ones one by one, none left over on
    either side. *)
Lemma matches_loop_true (_cids : list cid) (ys : list cid)
  (stop : option exn) (i : nat) :
  i <= List.length _cids ->
  (matches_loop _cids i ys stop = Ok true
   <-> stop = None /\ 0 < i + List.length ys
       /\ Forall2 seg_accepts (skipn i _cids) ys).
Proof.
  revert i. induction ys as [|[name idx types] ys IH]; intros i Hi;
    cbn [matches_loop List.length].
  - destruct stop as [e|].
    + split; [discriminate | intros [[=] _]].
    + destruct i as [|i].
      * split; [discriminate | intros (_ & H & _); lia].
      * destruct (Nat.eqb_spec (S i) (List.length _cids)) as [E | E].
        -- split; [| reflexivity]. intros _. split; [reflexivity |].
           split; [lia |]. rewrite E, skipn_all. constructor.
        -- split; [discriminate |]. intros (_ & _ & H). exfalso.
           apply E. pose proof (Forall2_length H) as L.
           rewrite length_skipn in L. simpl in L. lia.
  - destruct (Nat.eqb_spec i (List.length _cids)) as [E | E].
    + split; [discriminate |]. intros (_ & _ & H).
      rewrite E, skipn_all in H. inversion H.
    + destruct (nth_error _cids i) as [[_n _idx _types]|] eqn:N;
        [| apply nth_error_None in N; lia].
      rewrite (skipn_nth_error _ _ _ N).
      assert (Hrec :
        matches_loop _cids (S i) ys stop = Ok true
        <-> stop = None /\ 0 < i + S (List.length ys)
            /\ Forall2 seg_accepts (skipn (S i) _cids) ys).
      { rewrite IH by lia. intuition lia. }
      assert (Hcons : forall P : Prop,
        (stop = None /\ 0 < i + S (List.length ys)
         /\ Forall2 seg_accepts
              (Cid _n _idx _types :: skipn (S i) _cids)
              (Cid name idx types :: ys))
        <-> (seg_accepts (Cid _n _idx _types) (Cid name idx types)
             /\ stop = None /\ 0 < i + S (List.length ys)
             /\ Forall2 seg_accepts (skipn (S i) _cids) ys)).
      { intros _. split.
        - intros (A & B & C). inversion C; subst. auto.
        - intros (A & B & C & D). repeat split; auto. }
      rewrite (Hcons True). unfold seg_accepts, index_accepts; simpl.
      destruct (String.eqb_spec _n name) as [-> | Hn]; simpl.
      * destruct (is_all _idx) eqn:A; simpl.
        { rewrite Hrec. intuition. }
        destruct (cidx_eqb idx _idx) eqn:Q; simpl.
        { rewrite Hrec. intuition. }
        destruct (Nat.eqb_spec (cidx_len idx) (cidx_len _idx)) as [L | L];
          simpl.
        -- destruct (positions_loop _idx _types idx 0 (cidx_len idx))
             as [[|]|e] eqn:P; simpl.
           ++ rewrite Hrec. intuition.
           ++ split; [discriminate |].
              intros ((_ & [? | [? | [_ ?]]]) & _); discriminate.
           ++ split; [discriminate |].
              intros ((_ & [? | [? | [_ ?]]]) & _); discriminate.
        -- split; [discriminate |].
           intros ((_ & [? | [? | [? _]]]) & _);
             try discriminate; contradiction.
      * split; [discriminate |]. intros ((? & _) & _). contradiction.
Qed.

(** When [matches] answers [True]. *)
Lemma matches_true_iff `{T : ModelTree} (fuel : nat) (_cids : list cid) (component : node) :
  matches fuel _cids component = Some (Ok true)
  <-> exists g,
       option_map fst (_generate_cuid fuel component None None)
       = Some (Gen g None)
       /\ g <> [] /\ Forall2 seg_accepts _cids g.
Proof.
  unfold matches.
  destruct (_generate_cuid fuel component None None) as [[[ys stop] b]|];
    simpl.
  - split.
    + intros [= H]. apply matches_loop_true in H; [| lia].
      destruct H as (-> & Hlen & F). exists ys.
      split; [reflexivity |]. split; [| exact F].
      intros ->. simpl in Hlen. lia.
    + intros (g & [= -> ->] & Hne & F). f_equal.
      apply matches_loop_true; [lia |]. split; [reflexivity |].
      split; [| exact F]. destruct g; [congruence | simpl; lia].
  - split; [discriminate | intros (g & [=] & _)].
Qed.

(** C5, as the code has it: [matches] answers [True] exactly when the
    candidate's own identifier is generated without error, is not
    empty, and runs in lock step with the pattern, segment by segment
    from the leaf: equal names, and a pattern index that is the full
    wildcard (which accepts any index and lets the walk go on), equal
    to the generated index, or compatible position by position.
    Nothing is absorbed: when the two have different numbers of
    segments the answer is never [True], full wildcard or not. *)
Theorem matches_lock_step `{T : ModelTree} (fuel : nat) (_cids : list cid)
  (component : node) :
  (matches fuel _cids component = Some (Ok true)
   <-> exists g,
        option_map fst (_generate_cuid fuel component None None)
        = Some (Gen g None)
        /\ g <> [] /\ Forall2 seg_accepts _cids g)
  /\ (forall g stop,
       option_map fst (_generate_cuid fuel component None None)
       = Some (Gen g stop) ->
       List.length g <> List.length _cids ->
       matches fuel _cids component <> Some (Ok true)).
Proof.
  split; [apply matches_true_iff |].
  intros g stop E L M. apply matches_true_iff in M as (g' & E' & _ & F).
  rewrite E in E'. injection E' as -> ->.
  apply Forall2_length in F. congruence.
Qed.

(** C5 fails as stated: on the sample model the pattern [b:**] agrees
    with the outermost segment of [b[1].v], and the pattern [v:**]
    with its leaf segment, yet neither matches the longer identifier. *)
Lemma matches_absorbs_nothing :
  option_map fst (_generate_cuid 3 V None None)
  = Some (Gen [Cid "v" (IdxTuple []) (Some "");
               Cid "b" (IdxTuple [VInt 1]) (Some "#")] None)
  /\ matches 3 [Cid "b" IdxAll None] V = Some (Ok false)
  /\ matches 3 [Cid "v" IdxAll None] V = Some (Ok false).
Proof. repeat split. Qed.

(** With both segments present the full wildcards match. *)
Example matches_full_wildcards :
  matches 3 [Cid "v" IdxAll None; Cid "b" IdxAll None] V = Some (Ok true).
Proof. reflexivity. Qed.

(** ** Resolution *)

Lemma getitem_raises `{T : ModelTree} (c : node) (idx : list pyval) (e : exn) :
  getitem c idx = Raise e -> e = KeyError.
Proof. unfold getitem. destruct (find _ _); congruence. Qed.

Lemma first_found_app `{T : ModelTree} (c : node) (l1 l2 : list (list pyval)) :
  first_found c (l1 ++ l2)
  = match first_found c l1 with
    | Some o => Some o
    | None => first_found c l2
    end.
Proof.
  induction l1 as [|k l1 IH]; simpl; [reflexivity |].
  now destruct (getitem c k).
Qed.

Lemma list_set_replace {A} (l : list A) (i : nat) (v x : A) :
  nth_error l i = Some x -> list_set l i v = Ok (replace_at l i v).
Proof.
  revert i. induction l as [|y l IH]; intros [|i]; simpl; try discriminate;
    [reflexivity |].
  intros H. now rewrite (IH _ H).
Qed.

Lemma nth_error_replace_other {A} (l : list A) (i j : nat) (v : A) :
  i <> j -> nth_error (replace_at l i v) j = nth_error l j.
Proof.
  revert i j. induction l as [|y l IH]; intros [|i] [|j] H; simpl; auto.
  - congruence.
Qed.

Lemma replace_at_same {A} (l : list A) (i : nat) (v : A) :
  nth_error l i = Some v -> replace_at l i v = l.
Proof.
  revert i. induction l as [|y l IH]; intros [|i]; simpl; try discriminate.
  - now intros [= ->].
  - intros H. now rewrite (IH _ H).
Qed.

Lemma find_all_from_ge (c : ascii) (s : string) (pos start j : nat) :
  In j (find_all_from c s pos start) -> pos <= j.
Proof.
  revert pos start. induction s as [|d s IH]; intros pos start; simpl;
    [contradiction |].
  intros H.
  assert (R : In j (find_all_from c s (S pos) (Nat.pred start)) -> pos <= j).
  { intros H'. apply IH in H'. lia. }
  destruct start; auto. destruct (Ascii.eqb d c); auto.
  destruct H as [<- | H]; auto.
Qed.

Lemma find_all_from_nodup (c : ascii) (s : string) (pos start : nat) :
  NoDup (find_all_from c s pos start).
Proof.
  revert pos start. induction s as [|d s IH]; intros pos start; simpl;
    [constructor |].
  destruct start; auto. destruct (Ascii.eqb d c); auto.
  constructor; auto. intros H. apply find_all_from_ge in H. lia.
Qed.


Lemma rstrip_char_keeps (c d : ascii) (s : string) :
  d <> c -> char_in d s = true -> rstrip_char c s <> "".
Proof.
  intros Hne. induction s as [|a s IH]; simpl; [discriminate |].
  intros H. destruct (rstrip_char c s) eqn:R; [| discriminate].
  destruct (Ascii.eqb_spec a c) as [-> | _]; [| discriminate].
  apply orb_prop in H as [H | H]; [| now apply IH in H].
  apply Ascii.eqb_eq in H. congruence.
Qed.

Lemma lstrip_char_keeps (c d : ascii) (s : string) :
  d <> c -> char_in d s = true -> char_in d (lstrip_char c s) = true.
Proof.
  intros Hne. induction s as [|a s IH]; simpl; [discriminate |].
  intros H. destruct (Ascii.eqb_spec a c) as [-> | _]; [| exact H].
  apply orb_prop in H as [H | H]; [| now apply IH].
  apply Ascii.eqb_eq in H. congruence.
Qed.

Lemma strip_char_keeps (c d : ascii) (s : string) :
  d <> c -> char_in d s = true -> strip_char c s <> "".
Proof.
  intros Hne H. unfold strip_char.
  eapply rstrip_char_keeps; eauto using lstrip_char_keeps.
Qed.

Section SearchProps.
Context `{T : ModelTree}.

(** The search of [_checkIntArgs] returns the member under the first
    candidate key that the component has. *)
Lemma checkIntArgs_first_found (obj : option node) (name : string)
  (c : node) (dots : list nat) (_idx : list pyval) :
  getattr obj name = Ok c ->
  NoDup dots ->
  (forall j, In j dots -> exists s, nth_error _idx j = Some (VStr s)) ->
  _checkIntArgs obj name _idx dots
  = Ok (first_found c (candidates _idx dots)).
Proof.
  intros Hc. revert _idx.
  induction dots as [|j dots IH]; intros _idx Hnd Htxt;
    cbn [_checkIntArgs candidates].
  - rewrite Hc. simpl. destruct (getitem c _idx) as [o|e] eqn:G;
      [reflexivity |].
    now rewrite (getitem_raises _ _ _ G).
  - inversion Hnd as [| ? ? Hj Hnd']; subst.
    destruct (Htxt j (or_introl eq_refl)) as [s Hs]. rewrite Hs.
    assert (E : casts_of (VStr s)
                = flat_map (fun t => match cast t (VStr s) with
                                     | Ok w => [w]
                                     | Raise _ => []
                                     end) tList).
    { unfold casts_of, tList. cbn [flat_map cast].
      destruct (py_int (VStr s)); reflexivity. }
    rewrite E. clear E. generalize tList as casts.
    induction casts as [|t casts IHc]; simpl; [reflexivity |].
    destruct (cast t (VStr s)) as [w|e] eqn:C; simpl.
    + rewrite (list_set_replace _ _ _ _ Hs). simpl.
      rewrite IH; auto.
      * rewrite first_found_app.
        destruct (first_found c (candidates (replace_at _idx j w) dots));
          [reflexivity | exact IHc].
      * intros j' Hj'. rewrite nth_error_replace_other by congruence.
        apply Htxt. now right.
    + rewrite (cast_str_raises _ _ _ C). exact IHc.
Qed.


End SearchProps.


(** On the sample model [y[3]] resolves to the member under the
    integer [3]. *)
Example find_untyped_three :
  find_component (yielded (parse_cuid "y[3]")) R = Ok (Some Y3).
Proof. reflexivity. Qed.

(** On the model of pairs [p[3,4]] finds no member under the texts
    [('3', '4')] and resolves to the member under [(3, '4')], the
    integer at the first position, although [('3', 4)] is a key too. *)
Example find_untyped_pair :
  @find_component Pairs (yielded (parse_cuid "p[3,4]")) PRoot
  = Ok (Some PIntStr)
  /\ @getitem Pairs PComp [VStr "3"; VInt 4] = Ok PStrInt.
Proof. split; reflexivity. Qed.

(** ** Generation from a slice *)

Lemma validated_index_loop_ok (idx : list pyval) (f e : bool)
  (vs : list pyval) :
  raised (validated_index_loop idx f e vs) = None
  <-> validated_ok f e vs = true.
Proof.
  revert f e. induction vs as [|v vs IH]; intros f e.
  - unfold validated_ok. simpl. destruct e, f; simpl; intuition.
  - cbn [validated_index_loop].
    unfold validated_ok, ellipses, is_fixed, is_wild, is_ellipsis in *.
    cbn [filter existsb].
    destruct (pyval_eqb v (VSlice VNone)) eqn:W.
    + assert (V : pyval_eqb v VEllipsis = false)
        by (destruct v as [| | |[]|]; simpl in *; congruence).
      rewrite V. cbn [negb andb orb gen_yield raised]. apply IH.
    + destruct (pyval_eqb v VEllipsis) eqn:V; cbn [negb andb orb].
      * destruct e; [simpl; intuition discriminate |].
        destruct f; [simpl; intuition discriminate |].
        cbn [gen_yield raised List.length]. rewrite IH.
        destruct (List.length (filter _ vs)) as [|[|n]];
          destruct (existsb _ vs); simpl; intuition discriminate.
      * destruct e.
        -- simpl. rewrite andb_false_r. intuition discriminate.
        -- cbn [gen_yield raised]. rewrite IH.
           destruct f;
             destruct (List.length (filter _ vs)) as [|[|n]];
             simpl; intuition discriminate.
Qed.

(** [_partial_cuid_from_index] succeeds exactly on acceptable indices. *)
Lemma partial_cuid_index_ok (idx : pyindex) :
  (exists p, _partial_cuid_from_index idx = Ok p) <-> index_ok idx = true.
Proof.
  destruct idx as [v | vs]; simpl.
  - split; [reflexivity |]. intros _.
    destruct (pyval_eqb v (VSlice VNone)); [eauto |].
    destruct (pyval_eqb v VEllipsis); eauto.
  - fold (validated_ok false false vs).
    rewrite <- (validated_index_loop_ok vs).
    unfold _generate_validated_index, tuple_of.
    destruct (raised (validated_index_loop vs false false vs)); simpl;
      split; eauto; try discriminate. intros [p [=]].
Qed.

Lemma nat_get_found (i : nat) (d : list (nat * pyval)) :
  existsb (fun kv => Nat.eqb i (fst kv)) d = true ->
  exists v, nat_get i d = Ok v.
Proof.
  induction d as [|[k v] d IH]; simpl; [discriminate |].
  destruct (Nat.eqb i k); simpl; eauto.
Qed.

Lemma value_map_get_found (fixed sliced : list (nat * pyval)) (i : nat) :
  existsb (fun kv => Nat.eqb i (fst kv)) (sliced ++ fixed) = true ->
  exists v, value_map_get fixed sliced i = Ok v.
Proof.
  rewrite existsb_app. unfold value_map_get. intros H.
  destruct (nat_get i sliced) as [v|e] eqn:S; [eauto |].
  apply orb_prop in H as [H | H]; [| now apply nat_get_found].
  apply nat_get_found in H as [v H]. congruence.
Qed.

Lemma value_map_values_found (fixed sliced : list (nat * pyval)) (n i : nat) :
  forallb (fun i => existsb (fun kv => Nat.eqb i (fst kv)) (sliced ++ fixed))
    (seq i n) = true ->
  exists vs, value_map_values fixed sliced i n = Ok vs.
Proof.
  revert i. induction n as [|n IH]; intros i; simpl; [eauto |].
  intros H. apply andb_prop in H as [H1 H2].
  destruct (value_map_get_found _ _ _ H1) as [v ->].
  destruct (IH _ H2) as [vs ->]. simpl. eauto.
Qed.

Lemma partial_cuid_slice_info_ok (fixed sliced : list (nat * pyval))
  (ellipsis : option nat) :
  slice_info_ok fixed sliced ellipsis = true ->
  exists p, _partial_cuid_from_slice_info fixed sliced ellipsis = Ok p.
Proof.
  unfold slice_info_ok, _partial_cuid_from_slice_info.
  destruct ellipsis as [n|].
  - destruct fixed; [eauto | discriminate].
  - intros H. destruct (value_map_values_found _ _ _ _ H) as [vs ->].
    simpl. eauto.
Qed.

Section SliceProps.
Context `{T : ModelTree}.

(** The loop stops at the first entry it pops: with ValueError when
    the entry is a [set] or [del], and otherwise with the NameError of
    the test against [IndexedComponent_slice.slice_info]. *)
Lemma slice_loop_first (fuel : nat) (context : option node)
  (entry : slice_call) (stack : list slice_call) (index : pyindex)
  (name : option string) (count : nat) :
  slice_loop fuel context (entry :: stack) index name count
  = Some (gen_raise
            (if is_set_or_del entry then ValueError else NameError)).
Proof.
  cbn [slice_loop]. destruct (is_set_or_del entry); reflexivity.
Qed.

(** C8, as the code has it.  Generation from a call stack always
    ends, and nothing is yielded.  An empty stack raises nothing.  On
    every other stack the first entry popped, the latest one, decides:
    a [set] or [del] entry raises ValueError, and any other entry
    raises NameError, because the module never binds the name
    [IndexedComponent_slice] that the next test reads.  No stack with
    an entry is processed without an error, a clean one included. *)
Theorem slice_generation_errors (fuel : nat)
  (_call_stack : list slice_call) (context : option node) :
  _generate_cids_from_slice fuel _call_stack context
  = Some (match rev _call_stack with
          | [] => gen_done []
          | latest :: _ =>
              gen_raise
                (if is_set_or_del latest then ValueError else NameError)
          end).
Proof.
  unfold _generate_cids_from_slice.
  destruct (rev _call_stack) as [| latest older]; [reflexivity |].
  apply slice_loop_first.
Qed.

End SliceProps.

(** The stack of the slice [m.x[1, :]] is free of [set] and [del]
    entries, of rejected indices and of calls, and generation from it
    raises NameError. *)
Example slice_clean_log_raises :
  clean_log [slice_info X [(0, VInt 1)] [(1, VSlice VNone)] None] = true
  /\ _generate_cids_from_slice 3
       [slice_info X [(0, VInt 1)] [(1, VSlice VNone)] None] None
     = Some (gen_raise NameError).
Proof. split; reflexivity. Qed.

(** A [set] entry raises ValueError only when it is the latest entry
    of the stack. *)
Example slice_set_entry_raises :
  _generate_cids_from_slice 3
    [slice_info X [(0, VInt 1)] [(1, VSlice VNone)] None; set_attr] None
  = Some (gen_raise ValueError)
  /\ _generate_cids_from_slice 3
       [slice_info X [(0, VInt 1)] [(1, VSlice VNone)] None; set_attr;
        get_attr "v"] None
     = Some (gen_raise NameError).
Proof. split; reflexivity. Qed.

(** ** The string codec *)

Lemma char_in_append (c : ascii) (a b : string) :
  char_in c (a +:+ b) = char_in c a || char_in c b.
Proof.
  induction a as [|d a IH]; simpl; [reflexivity |].
  now rewrite IH, orb_assoc.
Qed.

Lemma all_chars_not_in (p : ascii -> bool) (c : ascii) (s : string) :
  p c = false -> all_chars p s = true -> char_in c s = false.
Proof.
  intros Hc. induction s as [|d s IH]; simpl; [reflexivity |].
  intros H. apply andb_prop in H as [Hd Hs]. rewrite (IH Hs), orb_false_r.
  apply Ascii.eqb_neq. congruence.
Qed.

Lemma append_nil_r (s : string) : s +:+ "" = s.
Proof. induction s; simpl; congruence. Qed.

Lemma append_assoc (a b c : string) : (a +:+ b) +:+ c = a +:+ b +:+ c.
Proof. induction a; simpl; congruence. Qed.

Lemma last_char_append (a b : string) :
  last_char (a +:+ b)
  = match b with
    | EmptyString => last_char a
    | _ => last_char b
    end.
Proof.
  induction a as [|c a IH]; simpl.
  - now destruct b.
  - rewrite IH. destruct a as [|c' a]; simpl; destruct b; reflexivity.
Qed.

(** *** Splitting and joining *)

Lemma split_no_sep (sep : ascii) (s : string) :
  char_in sep s = false -> split sep s = [s].
Proof.
  induction s as [|c s IH]; simpl; [reflexivity |].
  intros H. apply orb_false_elim in H as [Hc Hs].
  rewrite Ascii.eqb_sym, Hc, (IH Hs). reflexivity.
Qed.

Lemma split_append (sep : ascii) (a b : string) :
  char_in sep a = false ->
  split sep (a +:+ String sep b) = a :: split sep b.
Proof.
  induction a as [|c a IH]; simpl.
  - now rewrite Ascii.eqb_refl.
  - intros H. apply orb_false_elim in H as [Hc Ha].
    rewrite Ascii.eqb_sym, Hc, (IH Ha). reflexivity.
Qed.

Lemma split_join (sep : ascii) (l : list string) :
  l <> [] ->
  Forall (fun s => char_in sep s = false) l ->
  split sep (join (String sep "") l) = l.
Proof.
  intros Hne H. induction H as [|s l Hs _ IH]; [congruence |].
  destruct l as [|s' l].
  - simpl. now apply split_no_sep.
  - change (join (String sep "") (s :: s' :: l))
      with (s +:+ String sep "" +:+ join (String sep "") (s' :: l)).
    simpl (String sep "" +:+ _).
    rewrite split_append by assumption. f_equal. apply IH. discriminate.
Qed.

Lemma split1_no_sep (sep : ascii) (s : string) :
  char_in sep s = false -> split1 sep s = [s].
Proof.
  induction s as [|c s IH]; simpl; [reflexivity |].
  intros H. apply orb_false_elim in H as [Hc Hs].
  rewrite Ascii.eqb_sym, Hc, (IH Hs). reflexivity.
Qed.

Lemma split1_append (sep : ascii) (a b : string) :
  char_in sep a = false ->
  split1 sep (a +:+ String sep b) = [a; b].
Proof.
  induction a as [|c a IH]; simpl.
  - now rewrite Ascii.eqb_refl.
  - intros H. apply orb_false_elim in H as [Hc Ha].
    rewrite Ascii.eqb_sym, Hc, (IH Ha). reflexivity.
Qed.

Lemma char_in_join (c : ascii) (sep : string) (l : list string) :
  char_in c sep = false ->
  Forall (fun s => char_in c s = false) l ->
  char_in c (join sep l) = false.
Proof.
  intros Hsep H. induction H as [|s l Hs _ IH]; [reflexivity |].
  destruct l as [|s' l]; [exact Hs |].
  change (join sep (s :: s' :: l)) with (s +:+ sep +:+ join sep (s' :: l)).
  now rewrite !char_in_append, Hs, Hsep, IH.
Qed.

(** *** Integers and their text *)

Lemma digits_of_uint (u : Decimal.uint) :
  all_chars is_digit (NilEmpty.string_of_uint u) = true.
Proof. induction u; simpl; auto. Qed.

Lemma lstrip_space_digits (s : string) :
  all_chars is_digit s = true -> lstrip_space s = s.
Proof.
  destruct s as [|c s]; simpl; [reflexivity |].
  intros H. apply andb_prop in H as [Hc _].
  destruct c as [[] [] [] [] [] [] [] []]; simpl in *; congruence.
Qed.

Lemma rstrip_space_digits (s : string) :
  all_chars is_digit s = true -> rstrip_space s = s.
Proof.
  induction s as [|c s IH]; simpl; [reflexivity |].
  intros H. apply andb_prop in H as [Hc Hs]. rewrite (IH Hs).
  destruct s; [| reflexivity].
  destruct c as [[] [] [] [] [] [] [] []]; simpl in *; congruence.
Qed.

Lemma uint_of_string_of_uint (u : Decimal.uint) :
  u <> Decimal.Nil ->
  NilZero.uint_of_string (NilEmpty.string_of_uint u) = Some u.
Proof.
  intros H. pose proof (NilZero.usu u H) as E.
  unfold NilZero.string_of_uint in E. now destruct u.
Qed.

Lemma ungroup_digits (s : string) :
  all_chars is_digit s = true -> ungroup true s = Some s.
Proof.
  induction s as [|c s IH]; simpl; [reflexivity |].
  intros H. apply andb_prop in H as [Hc Hs]. rewrite (IH Hs).
  destruct c as [[] [] [] [] [] [] [] []]; simpl in *; congruence.
Qed.

(** [int] of a non-empty run of digits, with or without a minus sign
    before it. *)
Lemma int_of_str_plain (s : string) (u : Decimal.uint) :
  all_chars is_digit s = true ->
  NilZero.uint_of_string s = Some u ->
  int_of_str s = Ok (Z.of_uint u)
  /\ int_of_str (String "-" s) = Ok (- Z.of_uint u)%Z.
Proof.
  intros Hd Hu.
  assert (Hg : ungroup false s = Some s).
  { destruct s as [|c s]; [discriminate Hu |].
    cbn [all_chars] in Hd. apply andb_prop in Hd as [Hc Hs].
    cbn [ungroup]. rewrite (ungroup_digits s Hs).
    destruct c as [[] [] [] [] [] [] [] []]; simpl in *; congruence. }
  assert (Hne : s <> EmptyString) by (intros ->; discriminate Hu).
  split; unfold int_of_str.
  - rewrite lstrip_space_digits, rstrip_space_digits by exact Hd.
    cbv zeta.
    destruct s as [|c x]; [congruence |].
    cbn [all_chars] in Hd. apply andb_prop in Hd as [Hc _].
    destruct c as [[] [] [] [] [] [] [] []]; simpl in Hc;
      try discriminate Hc; cbv iota; rewrite Hg, Hu; f_equal; lia.
  - change (lstrip_space (String "-" s)) with (String "-" s).
    assert (R : rstrip_space (String "-" s) = String "-" s).
    { simpl. rewrite rstrip_space_digits by exact Hd.
      destruct s; [congruence | reflexivity]. }
    rewrite R. cbv zeta iota. rewrite Hg, Hu. f_equal; lia.
Qed.

Lemma int_of_str_digits (u : Decimal.uint) :
  u <> Decimal.Nil ->
  int_of_str (NilEmpty.string_of_uint u) = Ok (Z.of_uint u).
Proof.
  intros H.
  apply (int_of_str_plain _ u (digits_of_uint u)
           (uint_of_string_of_uint u H)).
Qed.

Lemma int_of_str_minus_digits (u : Decimal.uint) :
  u <> Decimal.Nil ->
  int_of_str (String "-" (NilEmpty.string_of_uint u)) = Ok (- Z.of_uint u)%Z.
Proof.
  intros H.
  apply (int_of_str_plain _ u (digits_of_uint u)
           (uint_of_string_of_uint u H)).
Qed.

(** [int(str(z)) == z] *)
Lemma int_of_str_of_int (z : Z) : int_of_str (str_of_int z) = Ok z.
Proof.
  unfold str_of_int. destruct z as [|p|p]; [reflexivity | |].
  - simpl Z.to_int. simpl NilZero.string_of_int.
    pose proof (DecimalPos.Unsigned.to_uint_nonnil p) as Hn.
    unfold NilZero.string_of_uint.
    destruct (Pos.to_uint p) eqn:E; try congruence;
      rewrite <- E; rewrite int_of_str_digits by congruence;
      unfold Z.of_uint; now rewrite DecimalPos.Unsigned.of_to.
  - simpl Z.to_int. simpl NilZero.string_of_int.
    pose proof (DecimalPos.Unsigned.to_uint_nonnil p) as Hn.
    unfold NilZero.string_of_uint.
    destruct (Pos.to_uint p) eqn:E; try congruence;
      rewrite <- E; rewrite int_of_str_minus_digits by congruence;
      unfold Z.of_uint; now rewrite DecimalPos.Unsigned.of_to.
Qed.

Lemma all_chars_impl (p q : ascii -> bool) (s : string) :
  (forall c, p c = true -> q c = true) ->
  all_chars p s = true -> all_chars q s = true.
Proof.
  intros Hpq. induction s as [|c s IH]; simpl; [reflexivity |].
  intros H. apply andb_prop in H as [Hc Hs]. now rewrite (Hpq _ Hc), IH.
Qed.

Lemma str_of_int_chars (z : Z) :
  all_chars is_digit_or_minus (str_of_int z) = true
  /\ str_of_int z <> "".
Proof.
  assert (D : forall u, u <> Decimal.Nil ->
    all_chars is_digit_or_minus (NilZero.string_of_uint u) = true
    /\ NilZero.string_of_uint u <> "").
  { intros u Hu. split.
    - apply all_chars_impl with is_digit.
      + intros c Hc. unfold is_digit_or_minus. now rewrite Hc.
      + unfold NilZero.string_of_uint. destruct u; try congruence;
          apply (digits_of_uint (_ u)).
    - destruct u; simpl; congruence. }
  unfold str_of_int. destruct z as [|p|p]; simpl Z.to_int;
    simpl NilZero.string_of_int.
  - split; [reflexivity | discriminate].
  - apply D, DecimalPos.Unsigned.to_uint_nonnil.
  - destruct (D (Pos.to_uint p) (DecimalPos.Unsigned.to_uint_nonnil p)).
    split; [simpl; assumption | discriminate].
Qed.

(** *** The verbose form *)

Lemma get_append_length (pre : string) (t : ascii) (s : string) :
  String.get (String.length pre) (pre +:+ String t s) = Some t.
Proof. induction pre as [|c pre IH]; simpl; auto. Qed.

Lemma length_append_one (pre : string) (t : ascii) :
  String.length (pre +:+ String t "") = S (String.length pre).
Proof. induction pre as [|c pre IH]; simpl; auto. Qed.

Lemma verbose_val_not_dot (t : ascii) (v : pyval) :
  verbose_val t v = true -> Ascii.eqb t "." = false.
Proof.
  destruct v; simpl; try discriminate.
  - intros H. apply Ascii.eqb_eq in H. now subst.
  - intros H. apply orb_prop in H as [H | H]; apply andb_prop in H as [H _];
      apply Ascii.eqb_eq in H; now subst.
Qed.

Lemma repr_args_tokens (pre types : string) (args : list pyval) :
  verbose_vals types args = true ->
  repr_args (pre +:+ types) (String.length pre) args
  = Ok (val_tokens types args).
Proof.
  revert pre args. induction types as [|t types IH]; intros pre [|v args];
    simpl; try discriminate; [reflexivity |].
  intros H. apply andb_prop in H as [Hv Hvs].
  unfold char_at. rewrite get_append_length. simpl.
  replace (pre +:+ String t types) with ((pre +:+ String t "") +:+ types)
    by now rewrite append_assoc.
  rewrite <- (length_append_one pre t), (IH _ _ Hvs). reflexivity.
Qed.

Lemma add_name_append (a name suffix : string) :
  name <> "" ->
  add_name a name +:+ suffix = add_name a (name +:+ suffix).
Proof.
  intros _. destruct a; simpl; [reflexivity |].
  now rewrite !append_assoc.
Qed.

Lemma plain_name_nonempty (n : string) : plain_name n = true -> n <> "".
Proof.
  unfold plain_name. intros H.
  repeat (apply andb_prop in H as [H _]).
  apply negb_true_iff, String.eqb_neq in H. exact H.
Qed.

Lemma verbose_vals_length (types : string) (args : list pyval) :
  verbose_vals types args = true -> args = [] -> types = "".
Proof. destruct types, args; simpl; congruence. Qed.

(** One pass of the loop of [__repr__] appends the segment's token. *)
Lemma repr_loop_step (a : string) (s : cid) (l : list cid) :
  verbose_seg s = true ->
  repr_loop a (s :: l) = repr_loop (add_name a (seg_token s)) l.
Proof.
  destruct s as [name [|args] [types|]]; unfold verbose_seg; simpl cname;
    simpl cargs; simpl ctypes; rewrite ?andb_false_r; try discriminate.
  intros H. apply andb_prop in H as [Hn H]. apply andb_prop in H as [Hv _].
  unfold seg_token. cbn [repr_loop cidx_len cidx_items cargs ctypes cname].
  destruct args as [|v args]; [reflexivity |].
  unfold cidx_len, cidx_items. cbn [List.length Nat.eqb].
  pose proof (repr_args_tokens "" types (v :: args) Hv) as R.
  simpl String.length in R. simpl (""  +:+ types) in R. rewrite R.
  cbn [bind]. f_equal. apply add_name_append.
  now apply plain_name_nonempty.
Qed.

Lemma repr_loop_tokens (l : list cid) (a : string) :
  forallb verbose_seg l = true ->
  repr_loop a l = Ok (fold_left add_name (map seg_token l) a).
Proof.
  revert a. induction l as [|s l IH]; intros a H; [reflexivity |].
  simpl in H. apply andb_prop in H as [Hs Hl].
  rewrite repr_loop_step by assumption. simpl. now apply IH.
Qed.

Lemma append_nonempty_l (a b : string) : a <> "" -> a +:+ b <> "".
Proof. destruct a; simpl; congruence. Qed.

Lemma fold_add_name (toks : list string) (a : string) :
  a <> "" ->
  fold_left add_name toks a = join "." (a :: toks).
Proof.
  revert a. induction toks as [|t toks IH]; intros a Ha; [reflexivity |].
  cbn [fold_left]. unfold add_name at 2.
  destruct a as [|c a]; [congruence |].
  rewrite IH by (simpl; discriminate).
  destruct toks as [|t' toks]; [reflexivity |].
  change (join "." ((String c a +:+ "." +:+ t) :: t' :: toks))
    with ((String c a +:+ "." +:+ t) +:+ "." +:+ join "." (t' :: toks)).
  change (join "." (String c a :: t :: t' :: toks))
    with (String c a +:+ "." +:+ t +:+ "." +:+ join "." (t' :: toks)).
  now rewrite !append_assoc.
Qed.

(** The text of one position is not empty, holds no separator and does
    not end a bracket. *)
Lemma val_token_chars (t : ascii) (v : pyval) :
  verbose_val t v = true ->
  val_token t v <> ""
  /\ char_in "." (val_token t v) = false
  /\ char_in "," (val_token t v) = false
  /\ ends_with "]" (val_token t v) = false.
Proof.
  intros H. pose proof (verbose_val_not_dot _ _ H) as Hd.
  unfold val_token. rewrite Hd.
  destruct v as [z | s | | |]; simpl in H; try discriminate.
  - apply Ascii.eqb_eq in H. subst t.
    destruct (str_of_int_chars z) as [Hc Hne]. simpl py_str.
    assert (N : forall c, is_digit_or_minus c = false ->
                          char_in c (str_of_int z) = false)
      by (intros; eapply all_chars_not_in; eauto).
    repeat split; simpl; try discriminate; try (apply N; reflexivity).
    unfold ends_with. change (String "#" (str_of_int z))
      with ("#" +:+ str_of_int z). rewrite last_char_append.
    destruct (str_of_int z) as [|c r] eqn:E; [congruence |].
    destruct (last_char (String c r)) as [d|] eqn:L; [| reflexivity].
    apply Ascii.eqb_neq. intros ->.
    assert (In1 : char_in "]" (String c r) = true).
    { clear - L. revert c L. induction r as [|c' r IH]; intros c L.
      - simpl in L. injection L as ->. reflexivity.
      - change (last_char (String c (String c' r)))
          with (last_char (String c' r)) in L.
        apply IH in L. simpl in *. rewrite L. now rewrite orb_true_r. }
    rewrite N in In1; [discriminate | reflexivity].
  - apply orb_prop in H as [H | H]; apply andb_prop in H as [Ht Hs];
      apply Ascii.eqb_eq in Ht; subst t; simpl py_str.
    + unfold plain_text in Hs.
      apply andb_prop in Hs as [Hs He]. apply andb_prop in Hs as [H1 H2].
      apply negb_true_iff in H1, H2, He.
      repeat split; simpl; try discriminate; try assumption.
      unfold ends_with in *. change (String "$" s) with ("$" +:+ s).
      rewrite last_char_append. destruct s; [reflexivity | exact He].
    + apply String.eqb_eq in Hs. subst s. repeat split; discriminate.
Qed.

Lemma val_tokens_chars (types : string) (args : list pyval) :
  verbose_vals types args = true ->
  Forall (fun s => s <> "" /\ char_in "." s = false
                   /\ char_in "," s = false /\ ends_with "]" s = false)
    (val_tokens types args).
Proof.
  revert args. induction types as [|t types IH]; intros [|v args]; simpl;
    try discriminate; [constructor |].
  intros H. apply andb_prop in H as [Hv Hvs].
  constructor; [now apply val_token_chars | now apply IH].
Qed.

Lemma last_char_append_r (a b : string) :
  b <> "" -> last_char (a +:+ b) = last_char b.
Proof. intros H. rewrite last_char_append. destruct b; congruence. Qed.

Lemma last_char_join (sep : string) (l : list string) :
  Forall (fun s => s <> "") l -> l <> [] ->
  last_char (join sep l) = last_char (last l "").
Proof.
  intros H. induction H as [|s l Hs Hl IH]; [congruence |]. intros _.
  destruct l as [|s' l]; [reflexivity |].
  change (join sep (s :: s' :: l)) with (s +:+ sep +:+ join sep (s' :: l)).
  change (last (s :: s' :: l) "") with (last (s' :: l) "").
  assert (J : join sep (s' :: l) <> "").
  { inversion Hl; subst. destruct l; [assumption |].
    now apply append_nonempty_l. }
  rewrite last_char_append_r.
  - rewrite last_char_append_r by assumption. apply IH. discriminate.
  - destruct sep; [exact J | discriminate].
Qed.

(** [parse_cuid] reads one position back from its text. *)
Lemma parse_val_token (t : ascii) (v : pyval) :
  verbose_val t v = true -> parse_val (val_token t v) = Ok (t, v).
Proof.
  intros H. pose proof (verbose_val_not_dot _ _ H) as Hd.
  unfold val_token. rewrite Hd.
  destruct v as [z | s | | |]; simpl in H; try discriminate.
  - apply Ascii.eqb_eq in H. subst t. simpl py_str.
    cbn -[int_of_str str_of_int]. now rewrite int_of_str_of_int.
  - apply orb_prop in H as [H | H]; apply andb_prop in H as [Ht Hs];
      apply Ascii.eqb_eq in Ht; subst t; simpl py_str.
    + unfold parse_val. destruct s; reflexivity.
    + apply String.eqb_eq in Hs. subst s. reflexivity.
Qed.

Lemma parse_vals_tokens (types : string) (args : list pyval) :
  verbose_vals types args = true ->
  parse_vals (val_tokens types args) = Ok (args, types).
Proof.
  revert args. induction types as [|t types IH]; intros [|v args]; simpl;
    try discriminate; [reflexivity |].
  intros H. apply andb_prop in H as [Hv Hvs].
  rewrite (parse_val_token _ _ Hv). simpl. rewrite (IH _ Hvs). reflexivity.
Qed.

Lemma last_char_none (s : string) : last_char s = None -> s = "".
Proof.
  induction s as [|c s IH]; [reflexivity |].
  destruct s as [|c' s]; [discriminate |].
  change (last_char (String c (String c' s)))
    with (last_char (String c' s)).
  intros H. apply IH in H. discriminate.
Qed.

Lemma join_nonempty (sep : string) (l : list string) :
  Forall (fun s => s <> "") l -> l <> [] -> join sep l <> "".
Proof.
  intros H Hne. destruct H as [|s l Hs Hl]; [congruence |].
  destruct l; [assumption | now apply append_nonempty_l].
Qed.

Lemma last_in {A} (l : list A) (d : A) : l <> [] -> In (last l d) l.
Proof.
  induction l as [|x l IH]; [congruence |]. intros _.
  destruct l as [|y l]; [now left |]. right. apply IH. discriminate.
Qed.

(** The token of a safe segment is not empty and holds no dot. *)
Lemma seg_token_chars (s : cid) :
  verbose_seg s = true ->
  seg_token s <> "" /\ char_in "." (seg_token s) = false.
Proof.
  destruct s as [name [|args] [types|]]; unfold verbose_seg; simpl cname;
    simpl cargs; simpl ctypes; rewrite ?andb_false_r; try discriminate.
  intros H. apply andb_prop in H as [Hn H]. apply andb_prop in H as [Hv _].
  pose proof (plain_name_nonempty _ Hn) as Hne.
  unfold plain_name in Hn.
  apply andb_prop in Hn as [Hn _]. apply andb_prop in Hn as [Hn _].
  apply andb_prop in Hn as [_ Hdot]. apply negb_true_iff in Hdot.
  unfold seg_token; simpl.
  destruct args as [|v args]; [split; assumption |].
  split; [now apply append_nonempty_l |].
  rewrite char_in_append, Hdot. simpl.
  apply char_in_join; [reflexivity |].
  eapply Forall_impl; [| exact (val_tokens_chars _ _ Hv)].
  simpl. intros ? (_ & ? & _). assumption.
Qed.

(** [parse_cuid] reads a safe segment back from its token. *)
Lemma parse_token_seg (s : cid) :
  verbose_seg s = true -> parse_token (seg_token s) = Ok s.
Proof.
  destruct s as [name [|args] [types|]]; unfold verbose_seg; simpl cname;
    simpl cargs; simpl ctypes; rewrite ?andb_false_r; try discriminate.
  intros H. apply andb_prop in H as [Hn H]. apply andb_prop in H as [Hv Hw].
  apply negb_true_iff in Hw.
  pose proof (plain_name_nonempty _ Hn) as Hne.
  unfold plain_name in Hn.
  apply andb_prop in Hn as [Hn Hend]. apply andb_prop in Hn as [Hn Hcolon].
  apply negb_true_iff in Hend, Hcolon.
  unfold seg_token; simpl cidx_items; simpl cname; simpl ctypes.
  destruct args as [|v args].
  - rewrite (verbose_vals_length _ _ Hv eq_refl).
    unfold parse_token. unfold ends_with in Hend.
    destruct (last_char name) as [l|] eqn:L.
    + rewrite Hend, (split1_no_sep _ _ Hcolon). reflexivity.
    + apply last_char_none in L. congruence.
  - set (toks := val_tokens types (v :: args)).
    pose proof (val_tokens_chars _ _ Hv) as Hc. fold toks in Hc.
    assert (Htoks : toks <> []).
    { subst toks. destruct types; simpl in *; congruence. }
    assert (Hne' : Forall (fun s => s <> "") toks).
    { eapply Forall_impl; [| exact Hc]. simpl. now intros ? (? & _). }
    assert (Hj : join "," toks <> "") by now apply join_nonempty.
    assert (Hlast : last_char (name +:+ ":" +:+ join "," toks)
                    = last_char (last toks "")).
    { rewrite last_char_append_r by discriminate.
      change (":" +:+ join "," toks) with (":" +:+ join "," toks).
      rewrite last_char_append_r by assumption.
      now apply last_char_join. }
    assert (Hend' : ends_with "]" (last toks "") = false).
    { pose proof (last_in toks "" Htoks) as Hin.
      rewrite Forall_forall in Hc. now destruct (Hc _ Hin) as (_ & _ & _ & ?). }
    unfold parse_token. rewrite Hlast. unfold ends_with in Hend'.
    destruct (last_char (last toks "")) as [l|] eqn:L.
    + rewrite Hend'.
      change (name +:+ ":" +:+ join "," toks)
        with (name +:+ String ":" (join "," toks)).
      rewrite (split1_append _ _ _ Hcolon).
      rewrite split_join; auto.
      * subst toks. rewrite (parse_vals_tokens _ _ Hv). cbn [bind].
        now rewrite Hw.
      * eapply Forall_impl; [| exact Hc]. simpl. now intros ? (_ & _ & ? & _).
    + pose proof (last_in toks "" Htoks) as Hin.
      rewrite Forall_forall in Hne'. specialize (Hne' _ Hin).
      apply last_char_none in L. congruence.
Qed.

Lemma parse_tokens_segs (l : list cid) :
  forallb verbose_seg l = true ->
  parse_tokens (map seg_token l) = gen_done l.
Proof.
  induction l as [|s l IH]; simpl; [reflexivity |].
  intros H. apply andb_prop in H as [Hs Hl].
  rewrite (parse_token_seg _ Hs). simpl. now rewrite (IH Hl).
Qed.

Lemma forallb_rev {A} (p : A -> bool) (l : list A) :
  forallb p (rev l) = forallb p l.
Proof.
  induction l as [|x l IH]; simpl; [reflexivity |].
  rewrite forallb_app, IH. simpl. now rewrite andb_true_r, andb_comm.
Qed.

(** C2, as the code has it: parsing the verbose form gives the
    identifier back, segment for segment with its type codes, for every
    identifier that is not empty and whose segments each have a plain
    name and either no index or positions that are integers typed
    ['#'], plain strings typed ['$'] or single wildcards typed ['*'].
    These are the identifiers generated for components whose names and
    string keys are free of the separators and whose keys are integers
    and strings. *)
Theorem verbose_round_trip (_cids : list cid) :
  _cids <> [] ->
  forallb verbose_seg _cids = true ->
  exists text,
    __repr__ _cids = Ok text /\ tuple_of (parse_cuid text) = Ok _cids.
Proof.
  intros Hne Hs. unfold __repr__.
  rewrite repr_loop_tokens by now rewrite forallb_rev.
  eexists. split; [reflexivity |].
  assert (Hc : Forall (fun t => t <> "" /\ char_in "." t = false)
                 (map seg_token (rev _cids))).
  { apply Forall_forall. intros t Ht. apply in_map_iff in Ht as (s & <- & Hin).
    apply seg_token_chars. rewrite <- in_rev in Hin.
    rewrite forallb_forall in Hs. auto. }
  destruct (map seg_token (rev _cids)) as [|t toks] eqn:E.
  { apply (f_equal (@List.length _)) in E.
    rewrite length_map, length_rev in E. destruct _cids; simpl in E; congruence. }
  cbn [fold_left]. unfold add_name at 2.
  inversion Hc as [|? ? [Ht Hd] Hc']; subst.
  rewrite fold_add_name by assumption.
  unfold parse_cuid. rewrite split_join.
  - rewrite <- E, <- map_rev, rev_involutive, parse_tokens_segs by assumption.
    reflexivity.
  - discriminate.
  - eapply Forall_impl; [| exact Hc]. simpl. now intros ? [_ ?].
Qed.

Lemma verbose_round_trip_witness :
  exists text,
    __repr__ [Cid "v" (IdxTuple []) (Some "");
              Cid "b" (IdxTuple [VInt 1; VStr "a"; VStr ""]) (Some "#$*")]
    = Ok text
    /\ tuple_of (parse_cuid text)
       = Ok [Cid "v" (IdxTuple []) (Some "");
             Cid "b" (IdxTuple [VInt 1; VStr "a"; VStr ""]) (Some "#$*")].
Proof.
  apply (verbose_round_trip
           [Cid "v" (IdxTuple []) (Some "");
            Cid "b" (IdxTuple [VInt 1; VStr "a"; VStr ""]) (Some "#$*")]);
    [discriminate | reflexivity].
Defined.

(** C2 fails as stated: the identifier generated for the member of [y]
    under the key ['a.b'] is printed as [y:$a.b], which parses into two
    segments. *)
Lemma verbose_round_trip_fails :
  exists i text,
    option_map (fun r => tuple_of (fst r)) (_generate_cuid 3 Y1 None None)
    = Some (Ok i)
    /\ __repr__ i = Ok text
    /\ tuple_of (parse_cuid text) <> Ok i.
Proof.
  exists [Cid "y" (IdxTuple [VStr "a.b"]) (Some "$")], "y:$a.b".
  repeat split. discriminate.
Qed.

(** *** The compact form *)

Lemma compact_name_plain (n : string) :
  compact_name n = true -> plain_name n = true /\ char_in "[" n = false.
Proof.
  unfold compact_name. intros H. apply andb_prop in H as [H1 H2].
  apply negb_true_iff in H2. auto.
Qed.

(** One pass of the loop of [__str__] appends the segment's token. *)
Lemma str_loop_step (a : string) (s : cid) (l : list cid) :
  compact_seg s = true ->
  str_loop a (s :: l) = str_loop (add_name a (compact_token s)) l.
Proof.
  destruct s as [name [|args] [types|]]; unfold compact_seg; simpl cname;
    simpl cargs; simpl ctypes; rewrite ?andb_false_r; try discriminate.
  intros H. apply andb_prop in H as [Hn Hv].
  apply compact_name_plain in Hn as [Hn _].
  unfold compact_token. cbn [str_loop cidx_items cargs cname].
  destruct args as [|v args]; [reflexivity |].
  unfold cidx_len, cidx_items. cbn [List.length Nat.eqb].
  f_equal. apply add_name_append. now apply plain_name_nonempty.
Qed.

Lemma str_loop_tokens (l : list cid) (a : string) :
  forallb compact_seg l = true ->
  str_loop a l = fold_left add_name (map compact_token l) a.
Proof.
  revert a. induction l as [|s l IH]; intros a H; [reflexivity |].
  simpl in H. apply andb_prop in H as [Hs Hl].
  rewrite str_loop_step by assumption. simpl. now apply IH.
Qed.

Lemma bare_text_chars (s : string) :
  bare_text s = true ->
  s <> "" /\ char_in "." s = false /\ char_in "," s = false
  /\ String.eqb s "*" = false
  /\ exists c r, s = String c r /\ char_in c tKeys = false
                 /\ char_in c quote_chars = false.
Proof.
  unfold bare_text. intros H.
  apply andb_prop in H as [H Hc]. apply andb_prop in H as [H Hd].
  apply negb_true_iff in Hc, Hd.
  destruct s as [|c r]; [discriminate |].
  apply andb_prop in H as [H1 H2]. apply negb_true_iff in H1, H2.
  repeat split; try assumption; try discriminate.
  - simpl. destruct (Ascii.eqb_spec c "*") as [-> |]; [discriminate |].
    reflexivity.
  - eauto.
Qed.

(** The compact text of one position, and what [parse_cuid] reads back
    from it. *)
Lemma compact_val_text (t : ascii) (v : pyval) :
  compact_val t v = true ->
  char_in "." (str_or_star v) = false
  /\ char_in "," (str_or_star v) = false
  /\ parse_val (str_or_star v)
     = Ok (if Ascii.eqb t "*" then "*"%char else "."%char, VStr (py_str v)).
Proof.
  destruct v as [z | s | | |]; simpl; try discriminate.
  - intros H. apply Ascii.eqb_eq in H. subst t. simpl Ascii.eqb. cbv iota.
    destruct (str_of_int_chars z) as [Hc Hne].
    assert (N : forall c, is_digit_or_minus c = false ->
                          char_in c (str_of_int z) = false)
      by (intros; eapply all_chars_not_in; eauto).
    unfold str_or_star. simpl py_str.
    destruct (str_of_int z) as [|c r] eqn:E; [congruence |].
    repeat split; try (apply N; reflexivity).
    unfold parse_val.
    assert (Hc0 : is_digit_or_minus c = true)
      by (simpl in Hc; now apply andb_prop in Hc as [? _]).
    assert (Hstar : String.eqb (String c r) "*" = false).
    { simpl. destruct (Ascii.eqb_spec c "*") as [-> |]; [discriminate |].
      reflexivity. }
    rewrite Hstar.
    assert (Hk : char_in c tKeys = false).
    { unfold tKeys; simpl.
      destruct (Ascii.eqb_spec c "#") as [-> |]; [discriminate |].
      destruct (Ascii.eqb_spec c "$") as [-> |]; [discriminate |].
      destruct (Ascii.eqb_spec c "*") as [-> |]; [discriminate |].
      reflexivity. }
    assert (Hq : char_in c quote_chars = false).
    { unfold quote_chars; simpl.
      destruct (Ascii.eqb_spec c "034") as [-> |]; [discriminate |].
      destruct (Ascii.eqb_spec c "039") as [-> |]; [discriminate |].
      reflexivity. }
    now rewrite Hk, Hq.
  - intros H. apply orb_prop in H as [H | H]; apply andb_prop in H as [Ht Hs];
      apply Ascii.eqb_eq in Ht; subst t; simpl Ascii.eqb; cbv iota.
    + destruct (bare_text_chars _ Hs)
        as (Hne & Hd & Hc & Hstar & c & r & -> & Hk & Hq).
      unfold str_or_star. simpl py_str.
      repeat split; try assumption.
      unfold parse_val. now rewrite Hstar, Hk, Hq.
    + apply String.eqb_eq in Hs. subst s. repeat split.
Qed.

Lemma compact_vals_texts (types : string) (args : list pyval) :
  compact_vals types args = true ->
  Forall (fun s => char_in "." s = false /\ char_in "," s = false)
    (map str_or_star args)
  /\ parse_vals (map str_or_star args)
     = Ok (map (fun v => VStr (py_str v)) args, untype types).
Proof.
  revert args. induction types as [|t types IH]; intros [|v args]; simpl;
    try discriminate; [split; [constructor | reflexivity] |].
  intros H. apply andb_prop in H as [Hv Hvs].
  destruct (compact_val_text _ _ Hv) as (H1 & H2 & ->).
  destruct (IH _ Hvs) as [F ->]. split; [constructor; auto | reflexivity].
Qed.

Lemma compact_val_not_full (t : ascii) (v : pyval) :
  compact_val t v = true -> String.eqb (py_str v) "**" = false.
Proof.
  destruct v as [z | s | | |]; simpl; try discriminate.
  - intros _. destruct (str_of_int_chars z) as [Hc Hne].
    destruct (str_of_int z) as [|c r]; [reflexivity |].
    simpl in Hc. apply andb_prop in Hc as [Hc _]. simpl.
    destruct (Ascii.eqb_spec c "*") as [-> |]; [discriminate | reflexivity].
  - intros H. apply orb_prop in H as [H | H]; apply andb_prop in H as [_ Hs].
    + destruct (bare_text_chars _ Hs) as (_ & _ & _ & _ & c & r & -> & Hk & _).
      simpl. destruct (Ascii.eqb_spec c "*") as [-> |];
        [discriminate | reflexivity].
    + apply String.eqb_eq in Hs. now subst s.
Qed.

Lemma drop_last_append (s : string) (c : ascii) :
  drop_last (s +:+ String c "") = s.
Proof.
  induction s as [|d s IH]; [reflexivity |].
  simpl. rewrite IH. destruct s; reflexivity.
Qed.

(** The compact token of a safe segment is not empty and holds no dot,
    and [parse_cuid] reads the segment's text form back from it. *)
Lemma parse_token_compact (s : cid) :
  compact_seg s = true ->
  compact_token s <> "" /\ char_in "." (compact_token s) = false
  /\ parse_token (compact_token s) = Ok (compact_text s).
Proof.
  destruct s as [name [|args] [types|]]; unfold compact_seg; simpl cname;
    simpl cargs; simpl ctypes; rewrite ?andb_false_r; try discriminate.
  intros H. apply andb_prop in H as [Hn Hv].
  apply compact_name_plain in Hn as [Hn Hbr].
  pose proof (plain_name_nonempty _ Hn) as Hne.
  unfold plain_name in Hn.
  apply andb_prop in Hn as [Hn Hend]. apply andb_prop in Hn as [Hn Hcolon].
  apply andb_prop in Hn as [_ Hdot].
  apply negb_true_iff in Hend, Hcolon, Hdot.
  unfold compact_token, compact_text; simpl cidx_items; simpl cname;
    simpl ctypes; simpl cargs.
  destruct (compact_vals_texts _ _ Hv) as [Hc Hp].
  destruct args as [|v args].
  - assert (types = "") as -> by (destruct types; simpl in Hv; congruence).
    split; [assumption |]. split; [assumption |].
    unfold parse_token. unfold ends_with in Hend.
    destruct (last_char name) as [l|] eqn:L.
    + rewrite Hend, (split1_no_sep _ _ Hcolon). reflexivity.
    + apply last_char_none in L. congruence.
  - set (texts := map str_or_star (v :: args)) in *.
    split; [now apply append_nonempty_l |]. split.
    + assert (J : char_in "." (join "," texts) = false).
      { apply char_in_join; [reflexivity |].
        eapply Forall_impl; [| exact Hc]. simpl. now intros ? [? _]. }
      rewrite !char_in_append, Hdot, J. reflexivity.
    + unfold parse_token.
      replace (name +:+ "[" +:+ join "," texts +:+ "]")
        with ((name +:+ "[" +:+ join "," texts) +:+ "]")
        by now rewrite !append_assoc.
      rewrite last_char_append_r by discriminate.
      change (last_char "]") with (Some "]"%char). cbv iota.
      rewrite Ascii.eqb_refl, drop_last_append.
      change (name +:+ "[" +:+ join "," texts)
        with (name +:+ String "[" (join "," texts)).
      rewrite (split1_append _ _ _ Hbr). cbv iota.
      rewrite split_join.
      * rewrite Hp. cbn [bind].
        assert (W : is_full_wildcard
                      (map (fun v => VStr (py_str v)) (v :: args)) = false).
        { unfold is_full_wildcard. simpl.
          destruct args; simpl; [| reflexivity].
          destruct types as [|t types]; [discriminate |].
          simpl in Hv. apply andb_prop in Hv as [Hv _].
          exact (compact_val_not_full _ _ Hv). }
        now rewrite W.
      * subst texts. discriminate.
      * eapply Forall_impl; [| exact Hc]. simpl. now intros ? [_ ?].
Qed.

Lemma parse_tokens_compact (l : list cid) :
  forallb compact_seg l = true ->
  parse_tokens (map compact_token l) = gen_done (map compact_text l).
Proof.
  induction l as [|s l IH]; simpl; [reflexivity |].
  intros H. apply andb_prop in H as [Hs Hl].
  destruct (parse_token_compact _ Hs) as (_ & _ & ->).
  simpl. now rewrite (IH Hl).
Qed.

(** Parsing the compact form of a safe identifier gives its text form. *)
Lemma parse_compact (_cids : list cid) :
  _cids <> [] ->
  forallb compact_seg _cids = true ->
  tuple_of (parse_cuid (__str__ _cids)) = Ok (map compact_text _cids).
Proof.
  intros Hne Hs. unfold __str__.
  rewrite str_loop_tokens by now rewrite forallb_rev.
  assert (Hc : Forall (fun t => t <> "" /\ char_in "." t = false)
                 (map compact_token (rev _cids))).
  { apply Forall_forall. intros t Ht. apply in_map_iff in Ht as (s & <- & Hin).
    rewrite <- in_rev in Hin. rewrite forallb_forall in Hs.
    destruct (parse_token_compact s (Hs _ Hin)) as (? & ? & _). auto. }
  destruct (map compact_token (rev _cids)) as [|t toks] eqn:E.
  { apply (f_equal (@List.length _)) in E.
    rewrite length_map, length_rev in E. destruct _cids; simpl in E; congruence. }
  cbn [fold_left]. unfold add_name at 2.
  inversion Hc as [|? ? [Ht Hd] Hc']; subst.
  rewrite fold_add_name by assumption.
  unfold parse_cuid. rewrite split_join.
  - rewrite <- E, <- map_rev, rev_involutive, parse_tokens_compact
      by assumption.
    reflexivity.
  - discriminate.
  - eapply Forall_impl; [| exact Hc]. simpl. now intros ? [_ ?].
Qed.

(** *** Resolution of the compact form *)

Lemma pyval_eq_dec (a b : pyval) : {a = b} + {a <> b}.
Proof.
  decide equality; [apply Z.eq_dec | apply string_dec].
Qed.

Lemma replace_at_length {A} (l : list A) (i : nat) (v : A) :
  List.length (replace_at l i v) = List.length l.
Proof.
  revert i. induction l as [|x l IH]; intros [|i]; simpl; auto.
Qed.

Lemma nth_error_replace_same {A} (l : list A) (i : nat) (v x : A) :
  nth_error l i = Some x -> nth_error (replace_at l i v) i = Some v.
Proof.
  revert i. induction l as [|y l IH]; intros [|i]; simpl; try discriminate;
    auto.
Qed.

Lemma nth_error_pointwise {A} (l l' : list A) :
  (forall n, nth_error l n = nth_error l' n) -> l = l'.
Proof.
  revert l'. induction l as [|x l IH]; intros [|y l'] H.
  - reflexivity.
  - specialize (H 0). discriminate.
  - specialize (H 0). discriminate.
  - pose proof (H 0) as H0. simpl in H0. injection H0 as ->.
    f_equal. apply IH. intros n. exact (H (S n)).
Qed.

(** A tuple that agrees with [idx] away from the untyped positions and
    holds a cast of its value at each of them is among the candidates. *)
Lemma candidates_reach (dots : list nat) :
  forall idx target : list pyval,
    NoDup dots ->
    (forall j, In j dots ->
       exists v w, nth_error idx j = Some v /\ nth_error target j = Some w
                   /\ In w (casts_of v)) ->
    (forall j, ~ In j dots -> nth_error idx j = nth_error target j) ->
    In target (candidates idx dots).
Proof.
  induction dots as [|j dots IH]; intros idx target Hnd Hin Hout.
  - left. apply nth_error_pointwise. intros n. apply Hout. intros [].
  - inversion Hnd as [| ? ? Hj Hnd']; subst.
    destruct (Hin j (or_introl eq_refl)) as (v & w & Hv & Hw & Hc).
    cbn [candidates]. rewrite Hv. apply in_flat_map. exists w.
    split; [exact Hc |]. apply IH; auto.
    + intros j' Hj'. rewrite nth_error_replace_other by congruence.
      apply Hin. now right.
    + intros j' Hj'. destruct (Nat.eq_dec j j') as [<- | Hne].
      * rewrite (nth_error_replace_same _ _ _ _ Hv). now symmetry.
      * rewrite nth_error_replace_other by assumption.
        apply Hout. intros [? | ?]; auto.
Qed.

Lemma first_found_none `{T : ModelTree} (c : node) (ks : list (list pyval)) :
  (forall k, In k ks -> exists e, getitem c k = Raise e) ->
  first_found c ks = None.
Proof.
  induction ks as [|k ks IH]; intros H; [reflexivity |].
  simpl. destruct (H k (or_introl eq_refl)) as [e ->].
  apply IH. intros k' Hk'. apply H. now right.
Qed.

(** When no candidate but [target] is a key, the search finds what the
    lookup of [target] finds. *)
Lemma first_found_only `{T : ModelTree} (c : node) (ks : list (list pyval))
  (target : list pyval) :
  (forall k, In k ks -> k <> target -> getitem c k = Raise KeyError) ->
  In target ks ->
  first_found c ks
  = match getitem c target with
    | Ok o => Some o
    | Raise _ => None
    end.
Proof.
  induction ks as [|k ks IH]; intros H Hin; [contradiction |].
  cbn [first_found].
  destruct (list_eq_dec pyval_eq_dec k target) as [-> | Hne].
  - destruct (getitem c target) as [o|e] eqn:G; [reflexivity |].
    apply first_found_none. intros k' Hk'.
    destruct (list_eq_dec pyval_eq_dec k' target) as [-> | Hne'];
      [eauto |].
    exists KeyError. apply H; [now right | assumption].
  - rewrite (H k (or_introl eq_refl) Hne).
    apply IH.
    + intros k' Hk'. apply H. now right.
    + destruct Hin as [-> | Hin]; [congruence | assumption].
Qed.

Lemma find_all_from_spec (c : ascii) (s : string) (pos j : nat) :
  In j (find_all_from c s pos 0)
  <-> exists i, j = pos + i /\ String.get i s = Some c.
Proof.
  revert pos. induction s as [|d s IH]; intros pos; simpl.
  - split; [contradiction | intros (i & _ & [=])].
  - assert (R : In j (find_all_from c s (S pos) 0)
                <-> exists i, j = pos + S i /\ String.get i s = Some c).
    { rewrite IH. split; intros (i & -> & G); exists i; split; auto; lia. }
    destruct (Ascii.eqb_spec d c) as [-> | Hne].
    + split.
      * intros [<- | H]; [exists 0; split; [lia | reflexivity] |].
        apply R in H as (i & -> & G). exists (S i). auto.
      * intros ([|i] & -> & G); [left; lia | right].
        apply R. exists i. auto.
    + split.
      * intros H. apply R in H as (i & -> & G). exists (S i). auto.
      * intros ([|i] & -> & G); [simpl in G; congruence |].
        apply R. exists i. auto.
Qed.

Lemma untyped_positions_spec (types : string) (j : nat) :
  In j (untyped_positions types) <-> String.get j types = Some "."%char.
Proof.
  unfold untyped_positions. rewrite find_all_from_spec. simpl.
  split; [intros (i & -> & G); exact G | intros G; eauto].
Qed.

Lemma get_untype (types : string) (j : nat) :
  String.get j (untype types)
  = option_map (fun t => if Ascii.eqb t "*" then "*" else ".")%char
      (String.get j types).
Proof.
  revert j. induction types as [|t types IH]; intros [|j]; simpl; auto.
Qed.

(** Position by position: what a safe segment holds and what its text
    form holds. *)
Lemma compact_vals_nth (types : string) (args : list pyval) (j : nat) :
  compact_vals types args = true ->
  match String.get j types, nth_error args j with
  | Some t, Some v => compact_val t v = true
  | None, None => True
  | _, _ => False
  end.
Proof.
  revert args j. induction types as [|t types IH]; intros [|v args] [|j];
    simpl; try discriminate; auto.
  - intros H. now apply andb_prop in H as [? _].
  - intros H. apply andb_prop in H as [_ H]. now apply IH.
Qed.

Lemma compact_val_casts (t : ascii) (v : pyval) :
  compact_val t v = true ->
  if Ascii.eqb t "*" then VStr (py_str v) = v
  else In v (casts_of (VStr (py_str v))).
Proof.
  destruct v as [z | s | | |]; simpl; try discriminate.
  - intros H. apply Ascii.eqb_eq in H. subst t. simpl Ascii.eqb. cbv iota.
    unfold casts_of. cbn [py_int py_str bind].
    rewrite int_of_str_of_int. now left.
  - intros H. apply orb_prop in H as [H | H]; apply andb_prop in H as [Ht Hs];
      apply Ascii.eqb_eq in Ht; subst t; simpl Ascii.eqb; cbv iota;
      [| reflexivity].
    unfold casts_of. cbn [py_str].
    apply in_or_app. right. now left.
Qed.

Lemma all_star_untype (types : string) :
  all_chars (fun c => Ascii.eqb c "*") (untype types)
  = all_chars (fun c => Ascii.eqb c "*") types.
Proof.
  induction types as [|t types IH]; simpl; [reflexivity |].
  rewrite IH. now destruct (Ascii.eqb t "*").
Qed.

Lemma lstrip_all (c : ascii) (s : string) :
  all_chars (fun d => Ascii.eqb d c) s = true -> lstrip_char c s = "".
Proof.
  induction s as [|d s IH]; simpl; [reflexivity |].
  intros H. apply andb_prop in H as [Hd Hs]. now rewrite Hd, IH.
Qed.

Lemma not_all_char_in (s : string) :
  all_chars (fun d => Ascii.eqb d "*") s = false ->
  exists d, d <> "*"%char /\ char_in d s = true.
Proof.
  induction s as [|d s IH]; simpl; [discriminate |].
  destruct (Ascii.eqb_spec d "*") as [-> | Hne]; simpl.
  - intros H. destruct (IH H) as (d & Hd & Hin). exists d.
    split; [assumption |]. now rewrite Hin, orb_true_r.
  - intros _. exists d. split; [assumption |]. now rewrite Ascii.eqb_refl.
Qed.

(** [types.strip('*')] is empty exactly when every position is a
    wildcard. *)
Lemma strip_star_empty (s : string) :
  String.eqb (strip_char "*" s) ""
  = all_chars (fun d => Ascii.eqb d "*") s.
Proof.
  destruct (all_chars (fun d => Ascii.eqb d "*") s) eqn:A.
  - unfold strip_char. now rewrite lstrip_all.
  - apply String.eqb_neq. destruct (not_all_char_in _ A) as (d & Hd & Hin).
    eapply strip_char_keeps; eauto.
Qed.

Lemma not_all_star_untyped (types : string) :
  all_chars (fun d => Ascii.eqb d "*") types = false ->
  char_in "." (untype types) = true.
Proof.
  induction types as [|t types IH]; simpl; [discriminate |].
  destruct (Ascii.eqb t "*"); simpl; auto.
Qed.

Lemma compact_vals_typed (types : string) (args : list pyval) :
  compact_vals types args = true -> char_in "." types = false.
Proof.
  revert args. induction types as [|t types IH]; intros [|v args];
    cbn [compact_vals char_in]; try discriminate; [reflexivity |].
  intros H. apply andb_prop in H as [Hv Hvs]. rewrite (IH _ Hvs).
  rewrite orb_false_r. apply Ascii.eqb_neq. intros <-.
  destruct v; simpl in Hv; discriminate.
Qed.

Lemma getattr_raises `{T : ModelTree} (obj : option node) (name : string)
  (e : exn) :
  getattr obj name = Raise e -> e = AttributeError.
Proof.
  unfold getattr. destruct obj as [o|]; [| congruence].
  destruct (assoc name (attrs o)); congruence.
Qed.

Lemma str_in_casts (t : string) : In (VStr t) (casts_of (VStr t)).
Proof.
  unfold casts_of. cbn [py_str].
  apply in_or_app. right. now left.
Qed.

Section CompactProps.
Context `{T : ModelTree}.

Lemma find_loop_none (outer : list cid) : find_loop None outer = Ok None.
Proof.
  destruct outer as [|[name idx types] outer]; [reflexivity |].
  cbn [find_loop]. unfold find_step.
  destruct (Nat.eqb (cidx_len idx) 0); [reflexivity |].
  destruct (is_all idx); [reflexivity |].
  destruct types; reflexivity.
Qed.

(** A pass over an explicit segment that is unindexed or holds only
    wildcards takes the named child. *)
Lemma find_step_plain (obj : option node) (name : string)
  (a : list pyval) (t : string) :
  (Nat.eqb (List.length a) 0
   || all_chars (fun d => Ascii.eqb d "*") t) = true ->
  find_step obj (Cid name (IdxTuple a) (Some t))
  = match getattr obj name with
    | Ok c => Ok (Next (Some c))
    | Raise _ => Ok (Return None)
    end.
Proof.
  intros Hp. unfold find_step, cidx_len, cidx_items.
  cbn [is_all]. rewrite strip_star_empty.
  destruct (Nat.eqb (List.length a) 0); simpl in Hp.
  - cbn [bind]. destruct (getattr obj name) as [c|e] eqn:G; [reflexivity |].
    now rewrite (getattr_raises _ _ _ G).
  - rewrite Hp. cbn [negb bind].
    destruct (getattr obj name) as [c|e] eqn:G; [reflexivity |].
    now rewrite (getattr_raises _ _ _ G).
Qed.

(** A pass over an indexed segment whose component exists. *)
Lemma find_step_indexed (obj : option node) (name : string)
  (a : list pyval) (t : string) (c : node) :
  Nat.eqb (List.length a) 0 = false ->
  all_chars (fun d => Ascii.eqb d "*") t = false ->
  getattr obj name = Ok c ->
  find_step obj (Cid name (IdxTuple a) (Some t))
  = match getitem c a with
    | Ok o => Ok (Next (Some o))
    | Raise _ =>
        if negb (char_in "." t) then Ok (Return None)
        else ans <- _checkIntArgs obj name a (untyped_positions t) ;;
             Ok (Next ans)
    end.
Proof.
  intros Ha Ht G. unfold find_step, cidx_len, cidx_items.
  cbn [is_all]. rewrite strip_star_empty, Ha, Ht. cbn [negb bind].
  rewrite G. cbn [bind].
  destruct (getitem c a) as [o|e] eqn:GI; [reflexivity |].
  now rewrite (getitem_raises _ _ _ GI).
Qed.

Lemma find_step_no_attr (obj : option node) (name : string)
  (a : list pyval) (t : string) (e : exn) :
  getattr obj name = Raise e ->
  find_step obj (Cid name (IdxTuple a) (Some t)) = Ok (Return None).
Proof.
  intros G. unfold find_step. rewrite G, (getattr_raises _ _ _ G).
  destruct (Nat.eqb _ 0); reflexivity.
Qed.

(** One pass of [find_component] on a safe segment and on its text
    form: both go on with the same object, or the first returns [None]
    and the second returns [None] or goes on with [None]. *)
Lemma find_step_compact (obj : option node) (s : cid) :
  compact_seg s = true ->
  collision_free s ->
  (exists o, find_step obj s = Ok (Next (Some o))
             /\ find_step obj (compact_text s) = Ok (Next (Some o)))
  \/ (find_step obj s = Ok (Return None)
      /\ (find_step obj (compact_text s) = Ok (Return None)
          \/ find_step obj (compact_text s) = Ok (Next None))).
Proof.
  destruct s as [name [|args] [types|]]; unfold compact_seg; simpl cname;
    simpl cargs; simpl ctypes; rewrite ?andb_false_r; try discriminate.
  intros H Hfree. apply andb_prop in H as [_ Hv].
  unfold collision_free, compact_text in Hfree.
  simpl cname in Hfree; simpl cargs in Hfree; simpl ctypes in Hfree;
    simpl cidx_items in Hfree.
  unfold compact_text; simpl cname; simpl cargs; simpl ctypes;
    simpl cidx_items.
  cbn [option_map] in *.
  set (args' := map (fun v => VStr (py_str v)) args) in *.
  set (dots := untyped_positions (untype types)) in *.
  assert (Hlen : List.length args' = List.length args)
    by (subst args'; apply length_map).
  destruct (Nat.eqb (List.length args) 0
            || all_chars (fun d => Ascii.eqb d "*") types) eqn:P.
  { rewrite (find_step_plain obj name args types P).
    rewrite (find_step_plain obj name args' (untype types))
      by now rewrite Hlen, all_star_untype.
    destruct (getattr obj name) as [c|e]; [left; eauto | right; auto]. }
  apply orb_false_elim in P as [Pl Ps].
  destruct (getattr obj name) as [c|e] eqn:G.
  2:{ right. rewrite !(find_step_no_attr _ _ _ _ _ G). auto. }
  rewrite (find_step_indexed obj name args types c Pl Ps G).
  rewrite (find_step_indexed obj name args' (untype types) c);
    [| now rewrite Hlen | now rewrite all_star_untype | exact G].
  rewrite (compact_vals_typed _ _ Hv), (not_all_star_untyped _ Ps).
  cbn [negb]. fold dots.
  (* the candidates *)
  assert (Hob : exists o, obj = Some o).
  { destruct obj; [eauto | discriminate]. }
  destruct Hob as [ob ->].
  assert (Hnth : forall j, nth_error args' j
                           = option_map (fun v => VStr (py_str v))
                               (nth_error args j)).
  { intros j. subst args'. apply nth_error_map. }
  assert (Htxt : forall j, In j dots ->
            exists s, nth_error args' j = Some (VStr s)).
  { intros j Hj. apply untyped_positions_spec in Hj.
    rewrite get_untype in Hj. pose proof (compact_vals_nth _ _ j Hv) as N.
    rewrite Hnth. destruct (String.get j types); [| discriminate].
    destruct (nth_error args j); [simpl; eauto | contradiction]. }
  assert (Hself : In args' (candidates args' dots)).
  { apply candidates_reach.
    - apply find_all_from_nodup.
    - intros j Hj. destruct (Htxt j Hj) as [s Hs].
      exists (VStr s), (VStr s).
      split; [exact Hs | split; [exact Hs | apply str_in_casts]].
    - reflexivity. }
  assert (Hreach : In args (candidates args' dots)).
  { apply candidates_reach.
    - apply find_all_from_nodup.
    - intros j Hj. apply untyped_positions_spec in Hj.
      rewrite get_untype in Hj. pose proof (compact_vals_nth _ _ j Hv) as N.
      rewrite Hnth. destruct (String.get j types) as [t|]; [| discriminate].
      destruct (nth_error args j) as [v|]; [| contradiction].
      exists (VStr (py_str v)), v.
      split; [reflexivity | split; [reflexivity |]].
      pose proof (compact_val_casts _ _ N) as Cst.
      simpl in Hj. destruct (Ascii.eqb t "*"); [discriminate | exact Cst].
    - intros j Hj. rewrite Hnth.
      pose proof (compact_vals_nth _ _ j Hv) as N.
      assert (Hg : String.get j (untype types) <> Some "."%char)
        by (intros E; apply Hj; now apply untyped_positions_spec).
      rewrite get_untype in Hg.
      destruct (String.get j types) as [t|];
        destruct (nth_error args j) as [v|]; try contradiction;
        [| reflexivity].
      simpl. pose proof (compact_val_casts _ _ N) as Cst.
      simpl in Hg. destruct (Ascii.eqb t "*"); [now f_equal | congruence]. }
  assert (Hsearch :
    _checkIntArgs (Some ob) name args' dots
    = Ok (match getitem c args with
          | Ok o => Some o
          | Raise _ => None
          end)).
  { rewrite (checkIntArgs_first_found (Some ob) name c dots args' G
               (find_all_from_nodup _ _ _ _) Htxt).
    f_equal. apply first_found_only; [| exact Hreach].
    intros k Hk Hne. eapply Hfree; eauto. }
  assert (Hdirect : forall o, getitem c args' = Ok o -> args' = args).
  { intros o GI. destruct (list_eq_dec pyval_eq_dec args' args) as [E | Hne];
      [exact E |].
    rewrite (Hfree ob c args' G Hself Hne) in GI. discriminate. }
  rewrite Hsearch. cbn [bind].
  destruct (getitem c args') as [o'|e'] eqn:GI'.
  - rewrite <- (Hdirect o' eq_refl), GI'. left. eauto.
  - destruct (getitem c args) as [o|e]; [left; eauto | right; auto].
Qed.

Lemma find_loop_compact (outer : list cid) (obj : option node) :
  forallb compact_seg outer = true ->
  Forall collision_free outer ->
  find_loop obj (map compact_text outer) = find_loop obj outer.
Proof.
  revert obj. induction outer as [|s outer IH]; intros obj Hs Hf;
    [reflexivity |].
  simpl in Hs. apply andb_prop in Hs as [Hs Hrest].
  inversion Hf as [|? ? Hfs Hfrest]; subst.
  cbn [map find_loop].
  destruct (find_step_compact obj s Hs Hfs)
    as [(o & -> & ->) | (-> & [-> | ->])]; cbn [bind].
  - now apply IH.
  - reflexivity.
  - apply find_loop_none.
Qed.

(** C3, as the code has it: for a non-empty identifier whose segments
    have compact names and are unindexed or hold integers, bare strings
    and single wildcards, each typed, parsing the compact form gives
    the segments with every position as text, and on a tree where the
    candidate casts of that text reach no other key of the components
    named, resolving the parsed form gives what resolving the
    identifier gives. *)
Theorem compact_round_trip (_cids : list cid) (block : node) :
  _cids <> [] ->
  forallb compact_seg _cids = true ->
  Forall collision_free _cids ->
  tuple_of (parse_cuid (__str__ _cids)) = Ok (map compact_text _cids)
  /\ find_component (map compact_text _cids) block
     = find_component _cids block.
Proof.
  intros Hne Hs Hf. split; [now apply parse_compact |].
  unfold find_component. rewrite <- map_rev.
  apply find_loop_compact.
  - now rewrite forallb_rev.
  - now apply Forall_rev.
Qed.

End CompactProps.

Lemma compact_round_trip_witness :
  tuple_of (parse_cuid (__str__ [Cid "y" (IdxTuple [VInt 3]) (Some "#")]))
  = Ok (map compact_text [Cid "y" (IdxTuple [VInt 3]) (Some "#")])
  /\ find_component
       (map compact_text [Cid "y" (IdxTuple [VInt 3]) (Some "#")]) R
     = find_component [Cid "y" (IdxTuple [VInt 3]) (Some "#")] R.
Proof.
  apply (@compact_round_trip Sample
           [Cid "y" (IdxTuple [VInt 3]) (Some "#")] R);
    [discriminate | reflexivity |].
  constructor; [| constructor].
  intros obj c k Hget Hin Hne.
  destruct obj; simpl in Hget; try discriminate.
  injection Hget as <-.
  simpl in Hin. destruct Hin as [<- | [<- | [<- | []]]];
    [exfalso; apply Hne; reflexivity | reflexivity | reflexivity].
Defined.

(** C3 fails as stated: the identifier of [x[1,'a']] has no untyped
    position and resolves to that member, but its compact form
    [x[1,a]] parses to text that the member under [('1','a')] answers
    first. *)
Lemma compact_round_trip_fails :
  exists i,
    option_map (fun r => tuple_of (fst r)) (_generate_cuid 3 X1 None None)
    = Some (Ok i)
    /\ i = [Cid "x" (IdxTuple [VInt 1; VStr "a"]) (Some "#$")]
    /\ find_component i R = Ok (Some X1)
    /\ exists reparsed,
        tuple_of (parse_cuid (__str__ i)) = Ok reparsed
        /\ find_component reparsed R = Ok (Some X3).
Proof.
  eexists. split; [reflexivity |]. split; [reflexivity |].
  split; [reflexivity |]. eexists. split; reflexivity.
Qed.

(** ** Enumeration *)

Lemma pyval_eqb_eq (a b : pyval) : pyval_eqb a b = true <-> a = b.
Proof.
  revert b. induction a as [x | x | | a IH |]; intros [y | y | | b |];
    simpl; try (split; [discriminate | congruence]); try tauto.
  - rewrite Z.eqb_eq. split; congruence.
  - rewrite String.eqb_eq. split; congruence.
  - rewrite IH. split; congruence.
Qed.

Lemma list_eqb_eq (l1 l2 : list pyval) :
  list_eqb pyval_eqb l1 l2 = true <-> l1 = l2.
Proof.
  revert l2. induction l1 as [|x l1 IH]; intros [|y l2]; simpl;
    try (split; [discriminate | congruence]); try tauto.
  rewrite andb_true_iff, pyval_eqb_eq, IH. split; [intros [-> ->] |]; 
    [reflexivity | intros [= -> ->]; auto].
Qed.

Lemma cast_any_text (casts : list pytype) (s : string) (t : pyval) :
  exists b, cast_any casts (VStr s) t = Ok b.
Proof.
  induction casts as [|c casts [b IH]]; simpl; [eauto |].
  destruct (cast c (VStr s)) as [v|e] eqn:C.
  - destruct (pyval_eqb v t); eauto.
  - rewrite (cast_str_raises _ _ _ C). eauto.
Qed.

Lemma typed_args_length (types : string) (args : list pyval) :
  typed_args types args = true -> String.length types = List.length args.
Proof.
  revert args. induction types as [|t types IH]; intros [|v args]; simpl;
    try discriminate; auto.
  intros H. apply andb_prop in H as [_ H]. f_equal. auto.
Qed.

Lemma typed_args_nth (types : string) (args : list pyval) (j : nat) (v : pyval) :
  typed_args types args = true ->
  nth_error args j = Some v ->
  exists t, String.get j types = Some t
            /\ (t = "."%char -> exists s, v = VStr s).
Proof.
  revert args j. induction types as [|t types IH]; intros [|w args] [|j];
    simpl; try discriminate.
  - intros H [= ->]. apply andb_prop in H as [H _]. exists t.
    split; [reflexivity |]. intros ->. simpl in H.
    destruct v; try discriminate. eauto.
  - intros H E. apply andb_prop in H as [_ H]. eauto.
Qed.

(** On a well-typed pattern index and a target of the same length the
    positions loop ends without an exception. *)
Lemma positions_loop_total (types : string) (args tgt : list pyval)
  (n j : nat) :
  typed_args types args = true ->
  j + n <= List.length args -> j + n <= List.length tgt ->
  exists b,
    positions_loop (IdxTuple args) (Some types) (IdxTuple tgt) j n = Ok b.
Proof.
  intros Ht. revert j. induction n as [|n IH]; intros j Ha Hg;
    cbn [positions_loop]; [eauto |].
  unfold cidx_get, cidx_items.
  destruct (nth_error args j) as [p|] eqn:P;
    [| apply nth_error_None in P; lia].
  destruct (nth_error tgt j) as [t|] eqn:G;
    [| apply nth_error_None in G; lia].
  cbn [bind].
  destruct (IH (S j) ltac:(lia) ltac:(lia)) as [b Hb].
  destruct (pyval_eqb p t); [eauto |].
  destruct (typed_args_nth _ _ _ _ Ht P) as (ty & Hty & Hs).
  unfold types_get, char_at. rewrite Hty. cbn [bind].
  destruct (Ascii.eqb ty "*"); [eauto |].
  destruct (Ascii.eqb_spec ty ".") as [-> | _]; [| eauto].
  destruct (Hs eq_refl) as [s ->].
  destruct (cast_any_text tList s t) as [ok ->]. cbn [bind].
  destruct ok; eauto.
Qed.

(** When every position is equal the positions loop answers [True]. *)
Lemma positions_loop_same (types : option string) (args : list pyval)
  (n j : nat) :
  j + n <= List.length args ->
  positions_loop (IdxTuple args) types (IdxTuple args) j n = Ok true.
Proof.
  revert j. induction n as [|n IH]; intros j Ha; simpl; [reflexivity |].
  unfold cidx_get, cidx_items.
  destruct (nth_error args j) as [p|] eqn:P;
    [| apply nth_error_None in P; lia].
  cbn [bind]. rewrite (proj2 (pyval_eqb_eq p p) eq_refl).
  apply IH. lia.
Qed.


Section EnumerateProps.
Context `{T : ModelTree} (depth : node -> nat) (WF : WellFormed depth).

Lemma getattr_assoc (b c : node) (name : string) :
  getattr (Some b) name = Ok c <-> assoc name (attrs b) = Some c.
Proof.
  unfold getattr. destruct (assoc name (attrs b)); split; congruence.
Qed.

(** The keys of a named child are plain. *)
Lemma items_plain (b c : node) (name : string) (k : pyindex) (o : node) :
  getattr (Some b) name = Ok c -> In (k, o) (iteritems c) -> plain_key k.
Proof.
  intros G Hin. apply getattr_assoc in G.
  destruct (wf_attr depth WF _ _ _ G) as (_ & _ & _ & Hs).
  destruct (has_component c) eqn:Hc.
  - rewrite (wf_scalar depth WF _ Hc (Hs eq_refl)) in Hin.
    destruct Hin as [[= <- <-] | []]. split; [discriminate | reflexivity].
  - now destruct (wf_item depth WF _ _ _ Hc Hin) as (_ & _ & _ & ?).
Qed.

Lemma keeps_total (pat : cid) (k : pyindex) :
  pattern_ok pat = true -> plain_key k ->
  exists b, keeps (cargs pat) (ctypes pat) k = Ok b.
Proof.
  destruct pat as [name idx types]. unfold pattern_ok. simpl.
  intros Hp Hk. unfold keeps.
  destruct idx as [|args]; [simpl; eauto |].
  destruct types as [types|]; [| discriminate].
  cbn [is_all negb andb].
  destruct (differs (IdxTuple args) k); [| eauto].
  rewrite (partial_cuid_plain _ Hk). cbn [bind fst].
  destruct (Nat.eqb_spec (cidx_len (IdxTuple args))
              (cidx_len (IdxTuple (norm_index k)))) as [E | _];
    cbn [negb]; [| eauto].
  unfold cidx_len, cidx_items in *.
  apply positions_loop_total; auto; simpl; lia.
Qed.

Lemma is_direct_total (pat : cid) :
  pattern_ok pat = true ->
  exists b, is_direct (cargs pat) (ctypes pat) = Ok b.
Proof.
  destruct pat as [name [|args] [types|]]; unfold pattern_ok; simpl;
    try discriminate; intros _; unfold is_direct; simpl; eauto.
  destruct (char_in "*" types); eauto.
Qed.

(** What the loop over the members yields. *)
Lemma each_item_spec (idx : cidx) (types : option string)
  (recurse : node -> gen node) (items : list (pyindex * node)) :
  (forall k o, In (k, o) items -> exists b, keeps idx types k = Ok b) ->
  (forall o, raised (recurse o) = None) ->
  raised (each_item idx types recurse items) = None
  /\ forall x,
      In x (yielded (each_item idx types recurse items))
      <-> exists k o, In (k, o) items /\ keeps idx types k = Ok true
                      /\ In x (yielded (recurse o)).
Proof.
  intros Hk Hr. induction items as [|[k o] items IH].
  - split; [reflexivity |]. intros x. simpl.
    split; [contradiction | intros (? & ? & [] & _)].
  - destruct IH as [IHr IHy].
    { intros k' o' H. apply (Hk k' o'). now right. }
    cbn [each_item]. destruct (Hk k o (or_introl eq_refl)) as [keep Hkeep].
    rewrite Hkeep. cbn [gen_bind]. destruct keep.
    + unfold gen_seq. rewrite Hr. cbn [raised yielded].
      split; [exact IHr |]. intros x. rewrite in_app_iff, IHy. split.
      * intros [H | (k' & o' & Hin & Hkp & Hx)].
        -- exists k, o. auto using in_eq.
        -- exists k', o'. auto using in_cons.
      * intros (k' & o' & [[= <- <-] | Hin] & Hkp & Hx); [now left |].
        right. eauto.
    + split; [exact IHr |]. intros x. rewrite IHy. split.
      * intros (k' & o' & Hin & Hkp & Hx). exists k', o'. auto using in_cons.
      * intros (k' & o' & [[= <- <-] | Hin] & Hkp & Hx); [congruence |].
        eauto.
Qed.

(** Enumeration raises nothing on well-typed patterns, and yields the
    objects the pattern descends to. *)
Lemma list_from_spec (outer : list cid) :
  forallb pattern_ok outer = true ->
  forall b,
    raised (list_from outer b) = None
    /\ forall x, In x (yielded (list_from outer b)) <-> descends outer b x.
Proof.
  induction outer as [|pat rest IH]; intros Hp b.
  - split; [reflexivity |]. intros x. simpl. split.
    + intros [<- | []]. constructor.
    + intros H. inversion H. now left.
  - simpl in Hp. apply andb_prop in Hp as [Hpat Hrest].
    specialize (IH Hrest).
    destruct (is_direct_total pat Hpat) as [d Hd].
    assert (Hinv : forall x, descends (pat :: rest) b x ->
              exists n, enters pat b n /\ descends rest n x).
    { intros x H. inversion H; subst. eauto. }
    destruct pat as [name idx types]. cbn [cname cargs ctypes] in *.
    cbn [list_from].
    destruct (getattr (Some b) name) as [c|e] eqn:G.
    2:{ split; [reflexivity |]. intros x. simpl. split; [contradiction |].
        intros H. apply Hinv in H as (n & (c & G' & _) & _).
        cbn [cname] in G'. congruence. }
    destruct (Nat.eqb_spec (cidx_len idx) 0) as [L | L].
    { destruct (IH c) as [IHr IHy]. split; [exact IHr |].
      intros x. rewrite IHy. split.
      - intros H. apply descends_down with c; [| exact H].
        exists c. split; [exact G |]. left. auto.
      - intros H. apply Hinv in H as (n & (c' & G' & Hcase) & Hn).
        cbn [cname cargs ctypes] in G', Hcase. rewrite G in G'. injection G' as <-.
        destruct Hcase as [[_ ->] | [[? _] | [? _]]];
          [exact Hn | contradiction | contradiction]. }
    rewrite Hd. cbn [gen_bind]. destruct d.
    + destruct (getitem c (cidx_items idx)) as [o|e] eqn:GI.
      * destruct (IH o) as [IHr IHy]. split; [exact IHr |].
        intros x. rewrite IHy. split.
        -- intros H. apply descends_down with o; [| exact H].
           exists c. split; [exact G |]. right. left. auto.
        -- intros H. apply Hinv in H as (n & (c' & G' & Hcase) & Hn).
           cbn [cname cargs ctypes] in G', Hcase. rewrite G in G'. injection G' as <-.
           destruct Hcase as [[? _] | [(_ & _ & GI') | (_ & Hd' & _)]];
             [contradiction | | congruence].
           rewrite GI in GI'. now injection GI' as <-.
      * split; [reflexivity |]. intros x. simpl. split; [contradiction |].
        intros H. apply Hinv in H as (n & (c' & G' & Hcase) & Hn).
        cbn [cname cargs ctypes] in G', Hcase. rewrite G in G'. injection G' as <-.
        destruct Hcase as [[? _] | [(_ & _ & GI') | (_ & Hd' & _)]];
          [contradiction | congruence | congruence].
    + destruct (each_item_spec idx types (list_from rest) (iteritems c))
        as [Er Ey].
      { intros k o Hin.
        apply (keeps_total (Cid name idx types) k Hpat).
        exact (items_plain _ _ _ _ _ G Hin). }
      { intros o. apply IH. }
      split; [exact Er |]. intros x. rewrite Ey. split.
      * intros (k & o & Hin & Hk & Hx). apply descends_down with o.
        -- exists c. split; [exact G |]. right. right. eauto 6.
        -- now apply IH.
      * intros H. apply Hinv in H as (n & (c' & G' & Hcase) & Hn).
        cbn [cname cargs ctypes] in G', Hcase. rewrite G in G'. injection G' as <-.
        destruct Hcase as [[? _] | [(_ & Hd' & _) | (_ & _ & k & Hin & Hk)]];
          [contradiction | congruence |].
        exists k, n. repeat split; auto. now apply IH.
Qed.

(** The segment of a scalar component. *)
Lemma data_cid_scalar (n : node) :
  parent_component n = n ->
  data_cid n = Cid (local_name n) (IdxTuple []) (Some "").
Proof.
  intros E. unfold data_cid. rewrite E, node_is_refl. reflexivity.
Qed.

(** The segment of a member listed under the key [k]. *)
Lemma data_cid_member (c n : node) (k : pyindex) :
  has_component c = false -> In (k, n) (iteritems c) ->
  data_cid n = key_cid (local_name c) k.
Proof.
  intros Hc Hin.
  destruct (wf_item depth WF _ _ _ Hc Hin) as (Hn & Hpc & _ & _).
  assert (Hne : parent_component n <> n) by congruence.
  destruct (member_key_found depth WF _ Hn Hne) as (k' & Hk' & Hin' & _).
  unfold data_cid. apply node_is_false in Hne. rewrite Hne, Hk', Hpc.
  f_equal. rewrite Hpc in Hin'.
  pose proof (wf_members depth WF c) as Hnd.
  clear - Hnd Hin Hin'. induction (iteritems c) as [|[k0 o0] items IH];
    [contradiction |].
  simpl in Hnd. inversion Hnd as [| ? ? Hnot Hnd']; subst.
  destruct Hin as [[= -> ->] | Hin], Hin' as [[= -> ] | Hin']; auto.
  - exfalso. apply Hnot. apply in_map_iff. exists (k', n). auto.
  - exfalso. apply Hnot. apply in_map_iff. exists (k, n). auto.
Qed.

(** The member under a key is the one lookup finds. *)
Lemma getitem_member (c n : node) (k : pyindex) :
  has_component c = false -> In (k, n) (iteritems c) ->
  getitem c (norm_index k) = Ok n.
Proof.
  intros Hc Hin. pose proof (wf_keys depth WF c Hc) as Hnd.
  unfold getitem. induction (iteritems c) as [|[k0 o0] items IH];
    [contradiction |].
  simpl in Hnd. inversion Hnd as [| ? ? Hnot Hnd']; subst. simpl.
  destruct (list_eqb pyval_eqb (norm_index k0) (norm_index k)) eqn:E.
  - apply list_eqb_eq in E. destruct Hin as [[= -> ->] | Hin];
      [reflexivity |].
    exfalso. apply Hnot. rewrite E. apply in_map_iff. exists (k, n). auto.
  - destruct Hin as [[= -> ->] | Hin]; [| auto].
    rewrite (proj2 (list_eqb_eq _ _) eq_refl) in E. discriminate.
Qed.

Lemma getitem_in (c n : node) (args : list pyval) :
  getitem c args = Ok n ->
  exists k, In (k, n) (iteritems c) /\ norm_index k = args.
Proof.
  unfold getitem. destruct (find _ _) as [[k o]|] eqn:F; [| discriminate].
  intros [= <-]. apply find_some in F as [Hin E]. simpl in E.
  apply list_eqb_eq in E. eauto.
Qed.




Lemma path_to_depth (top x : node) (l : list node) :
  path_to top x l ->
  depth top <= depth x /\ forall y, In y l -> depth top < depth y.
Proof.
  induction 1 as [| x p l Hne P _ [IH1 IH2]].
  - split; [lia | intros y []].
  - pose proof (wf_depth depth WF _ _ P). split; [lia |].
    intros y [<- | Hy]; [lia | auto].
Qed.


(** A non-empty path splits off its topmost object. *)
Lemma path_to_snoc_inv (b x : node) (l : list node) :
  path_to b x l -> l <> [] ->
  exists l' n, l = l' ++ [n] /\ parent_block n = Some b /\ path_to n x l'.
Proof.
  induction 1 as [| x p l Hne P Hl IH]; [congruence |]. intros _.
  destruct l as [|y l].
  - inversion Hl; subst. exists [], x. repeat split; auto. constructor.
  - destruct (IH ltac:(discriminate)) as (l' & n & E & Pn & Hn).
    exists (x :: l'), n. rewrite E. repeat split; auto.
    apply path_up with p; auto.
    destruct (path_to_depth _ _ _ Hn) as [Dp _].
    pose proof (wf_depth depth WF _ _ P). intros ->. lia.
Qed.






End EnumerateProps.



(** ** Segments built from an index *)

Lemma validated_index_loop_raises (idx : list pyval) (f e : bool)
  (vs : list pyval) :
  raised (validated_index_loop idx f e vs) = None
  \/ raised (validated_index_loop idx f e vs) = Some (invalid_index idx).
Proof.
  revert f e. induction vs as [| v vs IH]; intros f e; simpl; auto.
  destruct (pyval_eqb v (VSlice VNone)); [apply IH |].
  destruct (pyval_eqb v VEllipsis).
  - destruct e; simpl; auto. destruct f; simpl; auto.
  - destruct e; simpl; auto.
Qed.

Lemma validated_index_loop_yields (idx : list pyval) (f e : bool)
  (vs : list pyval) :
  raised (validated_index_loop idx f e vs) = None ->
  yielded (validated_index_loop idx f e vs) = map validated_val vs.
Proof.
  revert f e. induction vs as [| v vs IH]; intros f e; simpl; auto.
  unfold validated_val, is_wild, is_ellipsis.
  destruct (pyval_eqb v (VSlice VNone)); simpl.
  - intros H. f_equal. now apply IH.
  - destruct (pyval_eqb v VEllipsis).
    + destruct e; simpl; [discriminate |]. destruct f; simpl; [discriminate |].
      intros H. f_equal. now apply IH.
    + destruct e; simpl; [discriminate |].
      intros H. f_equal. now apply IH.
Qed.

(** An index that is rejected has two items or more, so the message
    of the error cannot be formatted. *)
Lemma invalid_index_rejected (vs : list pyval) :
  index_ok (ITuple vs) = false -> invalid_index vs = TypeError.
Proof.
  destruct vs as [| v [| w vs]]; [discriminate | | reflexivity].
  unfold index_ok, ellipses, is_fixed. cbn [filter existsb].
  destruct (is_ellipsis v); simpl; [| discriminate].
  rewrite andb_false_r. discriminate.
Qed.

Lemma type_keys_length (vs : list pyval) :
  String.length (type_keys vs) = List.length vs.
Proof.
  unfold type_keys. induction vs as [| v vs IH]; simpl; auto.
Qed.

Lemma partial_cuid_tuple (vs : list pyval) :
  _partial_cuid_from_index (ITuple vs)
  = if index_ok (ITuple vs)
    then Ok (IdxTuple (map validated_val vs), Some (type_keys vs))
    else Raise TypeError.
Proof.
  unfold _partial_cuid_from_index, _generate_validated_index, tuple_of.
  pose proof (validated_index_loop_ok vs false false vs) as Hok.
  pose proof (validated_index_loop_yields vs false false vs) as Hy.
  pose proof (invalid_index_rejected vs) as Hty.
  change (validated_ok false false vs) with (index_ok (ITuple vs)) in Hok.
  destruct (validated_index_loop_raises vs false false vs) as [E | E];
    rewrite E in *.
  - rewrite (proj1 Hok eq_refl). simpl. now rewrite Hy.
  - destruct (index_ok (ITuple vs)); [discriminate (proj2 Hok eq_refl) |].
    now rewrite Hty.
Qed.

(** The segment built from a tuple index, in closed form.  An index
    with two ellipses or with an ellipsis beside a fixed value is
    rejected, and the error that comes out is TypeError: such an index
    has two items or more, and the message of the NotImplementedError
    meant for it, formatted with the index itself as the arguments of
    one [%s], cannot be built.  Otherwise every single wildcard is
    stored as the empty string, the ellipsis as the string ['**'],
    every other value as it is, and the type string has one character
    per position. *)
Theorem partial_cuid_from_index_tuple (vs : list pyval) :
  _partial_cuid_from_index (ITuple vs)
  = (if index_ok (ITuple vs)
     then Ok (IdxTuple (map validated_val vs), Some (type_keys vs))
     else Raise TypeError)
  /\ String.length (type_keys vs) = List.length (map validated_val vs).
Proof.
  split; [apply partial_cuid_tuple |].
  now rewrite type_keys_length, length_map.
Qed.

Lemma no_ellipsis_ok (vs : list pyval) :
  existsb is_ellipsis vs = false -> index_ok (ITuple vs) = true.
Proof.
  intros H. unfold index_ok, ellipses.
  assert (E : filter is_ellipsis vs = []).
  { induction vs as [| v vs IH]; simpl in *; auto.
    apply orb_false_iff in H as [-> H]. auto. }
  now rewrite E.
Qed.

(** The two builders of a segment agree: for a [slice_info] without
    ellipsis whose positions are all accounted for, the pair built by
    [_partial_cuid_from_slice_info] is the pair that
    [_partial_cuid_from_index] builds from the tuple of the values. *)
Theorem slice_info_agrees_with_index (fixed sliced : list (nat * pyval))
  (values : list pyval) :
  value_map_values fixed sliced 0 (value_map_len fixed sliced) = Ok values ->
  existsb is_ellipsis values = false ->
  _partial_cuid_from_slice_info fixed sliced None
  = _partial_cuid_from_index (ITuple values).
Proof.
  intros Hv He. rewrite partial_cuid_tuple, (no_ellipsis_ok _ He).
  unfold _partial_cuid_from_slice_info. rewrite Hv. cbn [bind].
  f_equal. f_equal.
  - f_equal. clear Hv. induction values as [| v vs IH]; simpl in *; auto.
    apply orb_false_iff in He as [Hv He]. f_equal; [| now apply IH].
    unfold validated_val, is_wild. rewrite Hv.
    now destruct (pyval_eqb v (VSlice VNone)).
  - f_equal. unfold type_keys. f_equal. apply map_ext.
    now intros [].
Qed.

Lemma slice_info_agrees_with_index_witness :
  _partial_cuid_from_slice_info [(0, VInt 1)] [(1, VSlice VNone)] None
  = _partial_cuid_from_index (ITuple [VInt 1; VSlice VNone]).
Proof.
  apply (slice_info_agrees_with_index [(0, VInt 1)] [(1, VSlice VNone)]
           [VInt 1; VSlice VNone]); reflexivity.
Defined.

(** ** Resolving and enumerating generated identifiers *)

Lemma type_keys_plain (vs : list pyval) :
  forallb plain_val vs = true ->
  char_in "*" (type_keys vs) = false
  /\ char_in "." (type_keys vs) = false
  /\ (vs <> [] ->
      all_chars (fun d => Ascii.eqb d "*") (type_keys vs) = false).
Proof.
  unfold type_keys. induction vs as [| v vs IH]; simpl.
  - intros _. repeat split. congruence.
  - intros H. apply andb_true_iff in H as [Hv H].
    destruct (IH H) as (IH1 & IH2 & _).
    destruct v; try discriminate Hv; simpl; rewrite ?IH1, ?IH2;
      repeat split; reflexivity.
Qed.

Lemma find_step_all `{T : ModelTree} (obj : option node) (name : string)
  (types : option string) :
  find_step obj (Cid name IdxAll types)
  = match getattr obj name with
    | Ok c => Ok (Next (Some c))
    | Raise _ => Ok (Return None)
    end.
Proof.
  unfold find_step. cbn [cidx_len cidx_items List.length Nat.eqb is_all bind].
  destruct (getattr obj name) as [c | e] eqn:G; [reflexivity |].
  now rewrite (getattr_raises _ _ _ G).
Qed.

Section RoundTripProps.
Context `{T : ModelTree} (depth : node -> nat) (WF : WellFormed depth).

(** How the segment of a block or component data is resolved from its
    parent block. *)
Lemma data_cid_resolves (n b : node) :
  has_component n = true -> parent_block n = Some b ->
  exists c,
    getattr (Some b) (cname (data_cid n)) = Ok c
    /\ ((data_cid n = Cid (local_name n) (IdxTuple []) (Some "") /\ c = n)
        \/ exists k,
            data_cid n = key_cid (local_name c) k
            /\ plain_key k /\ getitem c (norm_index k) = Ok n).
Proof.
  intros Hn Hb. pose proof (wf_child depth WF _ _ Hn Hb) as Hchild.
  exists (parent_component n).
  destruct (node_eq_dec (parent_component n) n) as [E | Hne].
  - rewrite (data_cid_scalar _ E). cbn [cname].
    rewrite E in *. split; [now apply getattr_assoc | now left].
  - destruct (wf_member depth WF _ Hn Hne) as [Hc _].
    destruct (member_key_found depth WF _ Hn Hne) as (k & _ & Hin & Hk).
    rewrite (data_cid_member depth WF _ _ _ Hc Hin). cbn [key_cid cname].
    split; [now apply getattr_assoc |]. right. exists k.
    repeat split; try apply Hk.
    apply (getitem_member depth WF); assumption.
Qed.

Lemma find_step_data (n b : node) :
  has_component n = true -> parent_block n = Some b ->
  find_step (Some b) (data_cid n) = Ok (Next (Some n)).
Proof.
  intros Hn Hb.
  destruct (data_cid_resolves n b Hn Hb) as (c & G & [[E ->] | (k & E & Hk & GI)]);
    rewrite E in *; cbn [cname key_cid] in G.
  - rewrite find_step_plain by reflexivity. now rewrite G.
  - destruct Hk as [Hne Hplain].
    destruct (type_keys_plain _ Hplain) as (_ & _ & Hstar).
    unfold key_cid. rewrite (find_step_indexed _ _ _ _ c); auto.
    + now rewrite GI.
    + destruct (norm_index k); [congruence | reflexivity].
Qed.

Lemma list_from_data (n b : node) (rest : list cid) :
  has_component n = true -> parent_block n = Some b ->
  list_from (data_cid n :: rest) b = list_from rest n.
Proof.
  intros Hn Hb.
  destruct (data_cid_resolves n b Hn Hb) as (c & G & [[E ->] | (k & E & Hk & GI)]);
    rewrite E in *; cbn [cname key_cid] in G.
  - cbn [list_from]. now rewrite G.
  - destruct Hk as [Hne Hplain].
    destruct (type_keys_plain _ Hplain) as (Hs & Hd & _).
    unfold key_cid. cbn [list_from]. rewrite G.
    unfold cidx_len, cidx_items.
    assert (Hlen : Nat.eqb (List.length (norm_index k)) 0 = false)
      by (destruct (norm_index k); [congruence | reflexivity]).
    rewrite Hlen. unfold is_direct, types_has. cbn [is_all bind]. rewrite Hs.
    cbn [bind]. rewrite Hd. cbn [negb gen_bind]. now rewrite GI.
Qed.

(** Resolution descends a path of the tree segment by segment: the
    segments of the objects from just below [top] down to [x],
    followed by any further segments, resolve from [top] as the
    further segments resolve from [x]. *)
Lemma find_loop_path (l : list node) :
  forall (top x : node) (tail : list cid),
    has_component x = true -> path_to top x l ->
    find_loop (Some top) (rev (map data_cid l) ++ tail)
    = find_loop (Some x) tail.
Proof.
  induction l as [| n l' IH] using rev_ind; intros top x tail Hx Hp.
  - inversion Hp; subst. reflexivity.
  - pose proof (path_to_data depth WF _ _ _ Hx Hp) as Hall.
    apply (path_to_snoc_inv depth WF) in Hp as (l0 & n0 & E & Hb & Hp');
      [| now destruct l'].
    apply app_inj_tail in E as [<- <-].
    rewrite map_app, rev_app_distr. cbn [map rev app find_loop].
    rewrite find_step_data; auto.
    + cbn [bind]. now apply IH.
    + rewrite Forall_forall in Hall. apply Hall, in_or_app. right. now left.
Qed.

Lemma list_from_path (l : list node) :
  forall (top x : node) (tail : list cid),
    has_component x = true -> path_to top x l ->
    list_from (rev (map data_cid l) ++ tail) top = list_from tail x.
Proof.
  induction l as [| n l' IH] using rev_ind; intros top x tail Hx Hp.
  - inversion Hp; subst. reflexivity.
  - pose proof (path_to_data depth WF _ _ _ Hx Hp) as Hall.
    apply (path_to_snoc_inv depth WF) in Hp as (l0 & n0 & E & Hb & Hp');
      [| now destruct l'].
    apply app_inj_tail in E as [<- <-].
    rewrite map_app, rev_app_distr. cbn [map rev app].
    rewrite list_from_data; auto.
    rewrite Forall_forall in Hall. apply Hall, in_or_app. right. now left.
Qed.

(** Generation on a well-formed tree, relative to a context that is the
    target or one of the blocks above it. *)
Lemma generate_cuid_path (fuel : nat) (component : node)
  (context : option node) :
  depth component < fuel ->
  (forall c, context = Some c ->
             has_component c = true /\ ancestor c component) ->
  let ctx := match context with Some c => c | None => model component end in
  exists l,
    path_to ctx component l
    /\ _generate_cuid fuel component None context
       = Some (Gen (if has_component component
                    then map data_cid l
                    else Cid (local_name component) IdxAll None
                           :: map data_cid (tl l)) None, None).
Proof.
  intros Hd Hctx ctx.
  destruct (generate_cuid_total depth WF fuel component context Hd)
    as (segs & stop & E & Hs).
  { intros c Hc. now destruct (Hctx c Hc). }
  cbv zeta in E, Hs. fold ctx in E, Hs.
  destruct Hs as [[-> (l & Hl & ->)] | [_ Hn]].
  - exists l. now split.
  - exfalso. apply Hn. subst ctx. destruct context as [c |].
    + now destruct (Hctx c eq_refl).
    + apply (ancestor_model depth WF).
Qed.

(** The identifier generated from a block or component data resolves
    back to it: [find_component], and its synonym [find_component_on],
    started from the context the identifier is relative to (the model
    by default), return the very object the identifier was generated
    from. *)
Theorem generate_find_round_trip (fuel : nat) (component : node)
  (context : option node) :
  has_component component = true ->
  depth component < fuel ->
  (forall c, context = Some c ->
             has_component c = true /\ ancestor c component) ->
  exists segs,
    _generate_cuid fuel component None context = Some (Gen segs None, None)
    /\ find_component segs
         (match context with Some c => c | None => model component end)
       = Ok (Some component)
    /\ find_component_on segs
         (match context with Some c => c | None => model component end)
       = Ok (Some component).
Proof.
  intros Hc Hd Hctx.
  destruct (generate_cuid_path fuel component context Hd Hctx)
    as (l & Hl & E).
  rewrite Hc in E. eexists. split; [exact E |].
  unfold find_component_on, find_component.
  rewrite <- (app_nil_r (rev (map data_cid l))).
  now rewrite (find_loop_path l _ component).
Qed.

(** Enumerating the identifier generated from a block or component
    data yields that object, once, and nothing else. *)
Theorem generate_list_round_trip (fuel : nat) (component : node) :
  has_component component = true ->
  depth component < fuel ->
  exists segs,
    _generate_cuid fuel component None None = Some (Gen segs None, None)
    /\ list_components segs (model component) = gen_done [component].
Proof.
  intros Hc Hd.
  destruct (generate_cuid_path fuel component None Hd) as (l & Hl & E);
    [discriminate |].
  rewrite Hc in E. eexists. split; [exact E |].
  unfold list_components, _list_components.
  rewrite <- (app_nil_r (rev (map data_cid l))).
  now rewrite (list_from_path l _ component).
Qed.

(** Identifiers compose along the tree: an identifier relative to a
    block, followed by the identifier of that block, resolves and
    enumerates from the model exactly as the relative identifier does
    from the block. *)
Theorem relative_identifier_composes (fuel : nat) (block : node)
  (_cids : list cid) :
  has_component block = true ->
  depth block < fuel ->
  exists outer,
    _generate_cuid fuel block None None = Some (Gen outer None, None)
    /\ find_component (_cids ++ outer) (model block)
       = find_component _cids block
    /\ list_components (_cids ++ outer) (model block)
       = list_components _cids block.
Proof.
  intros Hc Hd.
  destruct (generate_cuid_path fuel block None Hd) as (l & Hl & E);
    [discriminate |].
  rewrite Hc in E. eexists. split; [exact E |].
  unfold find_component, list_components, _list_components.
  rewrite rev_app_distr.
  now rewrite (find_loop_path l _ block), (list_from_path l _ block).
Qed.

Lemma each_item_all (recurse : node -> gen node)
  (items : list (pyindex * node)) :
  (forall o, recurse o = gen_done [o]) ->
  each_item IdxAll None recurse items = gen_done (map snd items).
Proof.
  intros Hr. induction items as [| [k o] items IH]; [reflexivity |].
  cbn [each_item keeps is_all negb andb gen_bind map snd].
  now rewrite Hr, IH.
Qed.

(** The identifier generated from an indexed component itself ends in
    a full wildcard: [find_component] resolves it to the component,
    while [list_components] yields the members of the component, in
    iteration order, and not the component. *)
Theorem generate_indexed_component (fuel : nat) (component block : node) :
  has_component component = false ->
  parent_block component = Some block ->
  getattr (Some block) (local_name component) = Ok component ->
  depth component < fuel ->
  exists segs,
    _generate_cuid fuel component None None = Some (Gen segs None, None)
    /\ find_component segs (model component) = Ok (Some component)
    /\ list_components segs (model component)
       = gen_done (map snd (iteritems component)).
Proof.
  intros Hc Hb G Hd.
  destruct (generate_cuid_path fuel component None Hd) as (l & Hl & E);
    [discriminate |].
  rewrite Hc in E. eexists. split; [exact E |].
  cbv zeta in Hl. inversion Hl as [E0 | x p l' Hne Hp Hl' Ex]; subst.
  - pose proof (model_is_root depth WF component) as Hr.
    rewrite <- E0 in Hr at 1. congruence.
  - assert (p = block) by congruence. subst p.
    pose proof (wf_block depth WF _ _ Hb) as Hblock.
    unfold find_component, list_components, _list_components.
    cbn [tl rev].
    rewrite (find_loop_path l' _ block), (list_from_path l' _ block)
      by assumption.
    cbn [find_loop list_from]. rewrite find_step_all, G. cbn [bind].
    split; [reflexivity |].
    cbn [cidx_len cidx_items List.length Nat.eqb is_direct is_all gen_bind].
    now apply each_item_all.
Qed.

Lemma seg_accepts_refl (s : cid) : seg_accepts s s.
Proof.
  split; [reflexivity |]. right. left.
  destruct (cargs s) as [| args]; [reflexivity |].
  now apply list_eqb_eq.
Qed.

(** Every object other than the model matches the identifier
    generated from it. *)
Theorem matches_own_identifier (fuel : nat) (component : node) :
  parent_block component <> None ->
  depth component < fuel ->
  exists segs,
    _generate_cuid fuel component None None = Some (Gen segs None, None)
    /\ matches fuel segs component = Some (Ok true).
Proof.
  intros Hnr Hd.
  destruct (generate_cuid_path fuel component None Hd) as (l & Hl & E);
    [discriminate |].
  eexists. split; [exact E |].
  apply matches_true_iff. eexists. rewrite E. split; [reflexivity |].
  split.
  - destruct (has_component component); [| discriminate].
    cbv zeta in Hl. inversion Hl as [E0 |]; subst; [| discriminate].
    exfalso. apply Hnr. rewrite <- E0 at 1. apply (model_is_root depth WF).
  - clear. induction (if has_component component
                       then map data_cid l
                       else Cid (local_name component) IdxAll None
                              :: map data_cid (tl l));
      constructor; auto using seg_accepts_refl.
Qed.

(** Matching the model itself never answers: generation yields no
    segment for it, the loop of [matches] does not bind [i], and the
    final [i+1] raises (UnboundLocalError, a NameError), whatever the
    identifier. *)
Theorem matches_model_raises (fuel : nat) (_cids : list cid) (m : node) :
  parent_block m = None ->
  matches (S fuel) _cids m = Some (Raise NameError).
Proof.
  intros Hr. unfold matches, _generate_cuid.
  rewrite (wf_root depth WF _ Hr), (wf_model_root depth WF _ Hr).
  cbn [negb generate_loop]. now rewrite node_is_refl.
Qed.

End RoundTripProps.

Lemma generate_find_round_trip_witness :
  exists segs,
    _generate_cuid 3 V None (Some B1) = Some (Gen segs None, None)
    /\ find_component segs B1 = Ok (Some V)
    /\ find_component_on segs B1 = Ok (Some V).
Proof.
  apply (@generate_find_round_trip Sample sample_depth sample_wf 3 V
           (Some B1)); [reflexivity | simpl; lia |].
  intros c [= <-]. split; [reflexivity |].
  exists [V]. apply path_up with B1; [discriminate | reflexivity |].
  constructor.
Defined.

Lemma generate_list_round_trip_witness :
  exists segs,
    _generate_cuid 3 X1 None None = Some (Gen segs None, None)
    /\ list_components segs (model X1) = gen_done [X1].
Proof.
  apply (@generate_list_round_trip Sample sample_depth sample_wf 3 X1);
    [reflexivity | simpl; lia].
Defined.

Lemma relative_identifier_composes_witness :
  exists outer,
    _generate_cuid 3 B1 None None = Some (Gen outer None, None)
    /\ find_component ([Cid "v" (IdxTuple []) (Some "")] ++ outer) (model B1)
       = find_component [Cid "v" (IdxTuple []) (Some "")] B1
    /\ list_components ([Cid "v" (IdxTuple []) (Some "")] ++ outer)
         (model B1)
       = list_components [Cid "v" (IdxTuple []) (Some "")] B1.
Proof.
  apply (@relative_identifier_composes Sample sample_depth sample_wf 3 B1
           [Cid "v" (IdxTuple []) (Some "")]);
    [reflexivity | simpl; lia].
Defined.

Lemma generate_indexed_component_witness :
  exists segs,
    _generate_cuid 3 X None None = Some (Gen segs None, None)
    /\ find_component segs (model X) = Ok (Some X)
    /\ list_components segs (model X) = gen_done (map snd (iteritems X)).
Proof.
  apply (@generate_indexed_component Sample sample_depth sample_wf 3 X R);
    [reflexivity | reflexivity | reflexivity | simpl; lia].
Defined.

Lemma matches_own_identifier_witness :
  exists segs,
    _generate_cuid 3 Y3 None None = Some (Gen segs None, None)
    /\ matches 3 segs Y3 = Some (Ok true).
Proof.
  apply (@matches_own_identifier Sample sample_depth sample_wf 3 Y3);
    [discriminate | simpl; lia].
Defined.

Lemma matches_model_raises_witness :
  matches 1 [Cid "x" IdxAll None] R = Some (Raise NameError).
Proof.
  apply (@matches_model_raises Sample sample_depth sample_wf 0
           [Cid "x" IdxAll None] R).
  reflexivity.
Defined.

(** ** What matching and resolution never do *)

Lemma positions_loop_items (pat : cidx) (types : option string) (tgt : cidx)
  (n : nat) :
  forall j,
    positions_loop pat types tgt j n
    = positions_loop pat types (IdxTuple (cidx_items tgt)) j n.
Proof.
  induction n as [| n IH]; intros j; [reflexivity |].
  cbn [positions_loop].
  change (cidx_get (IdxTuple (cidx_items tgt)) j) with (cidx_get tgt j).
  destruct (cidx_get pat j) as [p | e]; [| reflexivity].
  destruct (cidx_get tgt j) as [t | e]; [| reflexivity].
  cbn [bind]. rewrite IH.
  destruct (pyval_eqb p t); [reflexivity |].
  destruct (types_get types j) as [ty | e]; [| reflexivity].
  cbn [bind]. destruct (Ascii.eqb ty "*"); [reflexivity |].
  destruct (Ascii.eqb ty "."); [| reflexivity].
  destruct (cast_any tList p t) as [[] | e]; reflexivity.
Qed.

Lemma pattern_ok_nth (_cids : list cid) (i : nat) (s : cid) :
  forallb pattern_ok _cids = true -> nth_error _cids i = Some s ->
  pattern_ok s = true.
Proof.
  intros H E. rewrite forallb_forall in H. apply H.
  eapply nth_error_In; eauto.
Qed.

Section MatchTotal.
Context `{T : ModelTree}.

Lemma matches_loop_total (_cids ys : list cid) :
  forallb pattern_ok _cids = true ->
  forall i, i <= List.length _cids -> 0 < i + List.length ys ->
  exists b, matches_loop _cids i ys None = Ok b.
Proof.
  intros Hp. induction ys as [| [name idx types] ys IH]; intros i Hi Hpos.
  - cbn [matches_loop]. destruct i; [simpl in Hpos; lia | eauto].
  - cbn [matches_loop].
    destruct (Nat.eqb_spec i (List.length _cids)) as [| Hne]; [eauto |].
    destruct (nth_error _cids i) as [[_n _idx _types] |] eqn:En.
    2: { apply nth_error_None in En. lia. }
    pose proof (pattern_ok_nth _ _ _ Hp En) as Hs.
    destruct (negb (String.eqb _n name)); [eauto |].
    destruct (is_all _idx) eqn:Hall; cbn [orb].
    { apply IH; simpl; lia. }
    destruct (cidx_eqb idx _idx).
    { apply IH; simpl; lia. }
    destruct (Nat.eqb_spec (cidx_len idx) (cidx_len _idx)) as [L | _];
      cbn [negb]; [| eauto].
    destruct _idx as [| args]; [discriminate |].
    destruct _types as [t |]; [| discriminate].
    unfold pattern_ok in Hs. cbn [cargs ctypes] in Hs.
    rewrite positions_loop_items.
    destruct (positions_loop_total t args (cidx_items idx) (cidx_len idx) 0)
      as [b Hb]; [exact Hs | | |].
    { rewrite L. unfold cidx_len, cidx_items. cbn [Nat.add]. lia. }
    { unfold cidx_len. cbn [Nat.add]. lia. }
    rewrite Hb. cbn [bind]. destruct b; [apply IH; simpl; lia | eauto].
Qed.

Lemma find_step_total (obj : option node) (s : cid) :
  pattern_ok s = true -> exists r, find_step obj s = Ok r.
Proof.
  destruct s as [name [| args] types]; unfold pattern_ok;
    cbn [cargs ctypes]; intros Hs.
  - rewrite find_step_all. destruct (getattr obj name); eauto.
  - destruct types as [t |]; [| discriminate].
    destruct (Nat.eqb (List.length args) 0
              || all_chars (fun d => Ascii.eqb d "*") t) eqn:Hplain.
    + rewrite find_step_plain by assumption.
      destruct (getattr obj name); eauto.
    + apply orb_false_iff in Hplain as [Hlen Hstar].
      destruct (getattr obj name) as [c | e] eqn:G.
      * rewrite (find_step_indexed _ _ _ _ c) by assumption.
        destruct (getitem c args); [eauto |].
        destruct (negb (char_in "." t)); [eauto |].
        rewrite (checkIntArgs_first_found obj name c); cbn [bind]; eauto.
        -- apply find_all_from_nodup.
        -- intros j Hj. apply untyped_positions_spec in Hj.
           destruct (nth_error args j) as [v |] eqn:Ev.
           ++ destruct (typed_args_nth _ _ _ _ Hs Ev) as (t' & Ht & Hv).
              rewrite Hj in Ht. injection Ht as <-.
              destruct (Hv eq_refl) as [s ->]. eauto.
           ++ apply nth_error_None in Ev.
              rewrite <- (typed_args_length _ _ Hs) in Ev.
              assert (String.get j t = None); [| congruence].
              clear - Ev. revert j Ev.
              induction t as [| d t IH]; intros [| j] Ev; simpl in *;
                auto; try lia. apply IH. lia.
      * rewrite (find_step_no_attr _ _ _ _ e) by assumption. eauto.
Qed.

(** [find_component] never raises on an identifier whose segments are
    well typed, as parsed and generated identifiers are: on every tree
    it returns an object or [None].  The casts and the index
    assignments of the coercion search stay in range, and the errors of
    attribute and keyed lookup are caught. *)
Theorem find_component_never_raises (_cids : list cid) (block : node) :
  forallb pattern_ok _cids = true ->
  exists r, find_component _cids block = Ok r.
Proof.
  intros Hp. unfold find_component.
  rewrite <- forallb_rev in Hp.
  generalize (Some block) as obj.
  induction (rev _cids) as [| s outer IH]; intros obj; cbn [find_loop].
  - eauto.
  - cbn [forallb] in Hp. apply andb_true_iff in Hp as [Hs Hp].
    destruct (find_step_total obj s Hs) as [r ->]. cbn [bind].
    destruct r; eauto.
Qed.

(** On an identifier whose segments each name one object outright,
    [list_components] and [find_component] agree: enumeration yields
    exactly the object resolution returns, and nothing when resolution
    returns [None]. *)
Theorem find_agrees_with_list (_cids : list cid) (block : node) :
  forallb exact_seg _cids = true ->
  exists r,
    find_component _cids block = Ok r
    /\ list_components _cids block
       = gen_done (match r with Some x => [x] | None => [] end).
Proof.
  intros Hp. unfold find_component, list_components, _list_components.
  rewrite <- forallb_rev in Hp. revert block.
  induction (rev _cids) as [| [name idx types] outer IH]; intros block.
  - eexists. split; reflexivity.
  - cbn [forallb] in Hp. apply andb_true_iff in Hp as [Hs Hp].
    specialize (IH Hp). cbn [find_loop list_from].
    unfold exact_seg in Hs. cbn [cargs ctypes] in Hs.
    destruct idx as [| [| v args]]; [discriminate | |].
    + assert (E : find_step (Some block) (Cid name (IdxTuple []) types)
                  = match getattr (Some block) name with
                    | Ok c => Ok (Next (Some c))
                    | Raise _ => Ok (Return None)
                    end).
      { unfold find_step. cbn [cidx_len cidx_items List.length Nat.eqb bind].
        destruct (getattr (Some block) name) as [c | e] eqn:G;
          [reflexivity |].
        now rewrite (getattr_raises _ _ _ G). }
      rewrite E. cbn [cidx_len cidx_items List.length Nat.eqb].
      destruct (getattr (Some block) name) as [c | e]; cbn [bind].
      * apply IH.
      * eexists. split; reflexivity.
    + destruct types as [t |]; [| discriminate].
      apply andb_true_iff in Hs as [Hs Hdot].
      apply andb_true_iff in Hs as [Hne Hstar].
      apply negb_true_iff in Hdot, Hstar, Hne.
      assert (Hall : all_chars (fun d => Ascii.eqb d "*") t = false).
      { destruct t as [| d t]; [discriminate |].
        cbn [char_in all_chars] in *.
        apply orb_false_iff in Hstar as [Hd _].
        rewrite Ascii.eqb_sym in Hd. now rewrite Hd. }
      cbn [cidx_len cidx_items List.length Nat.eqb].
      unfold is_direct, types_has. cbn [is_all bind].
      rewrite Hstar. cbn [bind]. rewrite Hdot. cbn [negb gen_bind].
      destruct (getattr (Some block) name) as [c | e] eqn:G.
      * rewrite (find_step_indexed _ _ _ _ c) by auto.
        rewrite Hdot. cbn [negb].
        destruct (getitem c (v :: args)) as [o | e]; cbn [bind].
        -- apply IH.
        -- eexists. split; reflexivity.
      * rewrite (find_step_no_attr _ _ _ _ e) by assumption. cbn [bind].
        eexists. split; reflexivity.
Qed.

End MatchTotal.

Lemma find_component_never_raises_witness :
  exists r,
    find_component [Cid "x" (IdxTuple [VStr "1"; VStr "zz"]) (Some "..")] R
    = Ok r.
Proof.
  apply (@find_component_never_raises Sample
           [Cid "x" (IdxTuple [VStr "1"; VStr "zz"]) (Some "..")] R).
  reflexivity.
Defined.

Lemma find_agrees_with_list_witness :
  exists r,
    find_component [Cid "v" (IdxTuple []) (Some "");
                    Cid "b" (IdxTuple [VInt 1]) (Some "#")] R = Ok r
    /\ list_components [Cid "v" (IdxTuple []) (Some "");
                        Cid "b" (IdxTuple [VInt 1]) (Some "#")] R
       = gen_done (match r with Some x => [x] | None => [] end).
Proof.
  apply (@find_agrees_with_list Sample
           [Cid "v" (IdxTuple []) (Some "");
            Cid "b" (IdxTuple [VInt 1]) (Some "#")] R).
  reflexivity.
Defined.

Section MatchTotalTree.
Context `{T : ModelTree} (depth : node -> nat) (WF : WellFormed depth).

(** [matches] never raises on an object other than the model when the
    segments of the identifier are well typed: it answers [True] or
    [False]. *)
Theorem matches_never_raises (fuel : nat) (_cids : list cid)
  (component : node) :
  parent_block component <> None ->
  depth component < fuel ->
  forallb pattern_ok _cids = true ->
  exists b, matches fuel _cids component = Some (Ok b).
Proof.
  intros Hnr Hd Hp.
  destruct (generate_cuid_path depth WF fuel component None Hd)
    as (l & Hl & E); [discriminate |].
  unfold matches. rewrite E. cbn [option_map fst yielded raised].
  destruct (matches_loop_total _cids
              (if has_component component
               then map data_cid l
               else Cid (local_name component) IdxAll None
                      :: map data_cid (tl l)) Hp 0) as [b Hb];
    [lia | | exists b; now rewrite Hb].
  destruct (has_component component); [| simpl; lia].
  cbv zeta in Hl. inversion Hl as [E0 |]; subst; [| simpl; lia].
  exfalso. apply Hnr. rewrite <- E0 at 1. apply (model_is_root depth WF).
Qed.

End MatchTotalTree.

Lemma matches_never_raises_witness :
  exists b,
    matches 3 [Cid "x" (IdxTuple [VStr "1"; VStr ""]) (Some ".*")] X1
    = Some (Ok b).
Proof.
  apply (@matches_never_raises Sample sample_depth sample_wf 3
           [Cid "x" (IdxTuple [VStr "1"; VStr ""]) (Some ".*")] X1);
    [discriminate | simpl; lia | reflexivity].
Defined.

(** ** The shape of parsed identifiers *)

Lemma parse_val_typed (val : string) (t : ascii) (v : pyval) :
  parse_val val = Ok (t, v) -> t = "."%char -> exists s, v = VStr s.
Proof.
  unfold parse_val. destruct (String.eqb val "*").
  { intros [= <- <-]. discriminate. }
  destruct val as [| c0 rest]; [discriminate |].
  destruct (char_in c0 tKeys) eqn:K.
  - destruct (tDict_type c0) as [ty |]; [| discriminate].
    destruct (cast ty (VStr rest)) as [w | e]; [| discriminate].
    cbn [bind]. intros [= <- <-] ->. discriminate K.
  - match goal with |- context [if ?b then _ else _] => destruct b end.
    + intros [= <- <-]. discriminate.
    + intros [= <- <-] _. eauto.
Qed.

Lemma parse_vals_typed (idx : list string) :
  forall vs ts, parse_vals idx = Ok (vs, ts) -> typed_args ts vs = true.
Proof.
  induction idx as [| val idx IH]; intros vs ts; cbn [parse_vals].
  - now intros [= <- <-].
  - destruct (parse_val val) as [[t v] | e] eqn:V; [| discriminate].
    cbn [bind].
    destruct (parse_vals idx) as [[vs' ts'] | e]; [| discriminate].
    cbn [bind]. intros [= <- <-]. cbn [typed_args].
    rewrite (IH _ _ eq_refl), andb_true_r.
    destruct (Ascii.eqb_spec t ".") as [E | _]; [| reflexivity].
    now destruct (parse_val_typed _ _ _ V E) as [s ->].
Qed.

Lemma parse_suffix_ok (n suffix : string) (s : cid) :
  parse_suffix n suffix = Ok s ->
  pattern_ok s = true /\ (is_all (cargs s) = true <-> ctypes s = None).
Proof.
  unfold parse_suffix.
  destruct (parse_vals (split "," suffix)) as [[idx ty] | e] eqn:V;
    [| discriminate].
  cbn [bind]. destruct (is_full_wildcard idx); intros [= <-].
  - split; [reflexivity |]. now split.
  - unfold pattern_ok. cbn [cargs ctypes is_all].
    split; [exact (parse_vals_typed _ _ _ V) |]. split; discriminate.
Qed.

Lemma parse_token_suffix (c : string) :
  parse_token c
  = match last_char c with
    | None => Raise IndexError
    | Some l =>
        match (if Ascii.eqb l "]" then split1 "[" (drop_last c)
               else split1 ":" c) with
        | [] => Raise IndexError
        | [n] => Ok (Cid n (IdxTuple []) (Some ""))
        | n :: suffix :: _ => parse_suffix n suffix
        end
    end.
Proof. reflexivity. Qed.

Lemma parse_token_ok (c : string) (s : cid) :
  parse_token c = Ok s ->
  pattern_ok s = true /\ (is_all (cargs s) = true <-> ctypes s = None).
Proof.
  rewrite parse_token_suffix.
  destruct (last_char c) as [l |]; [| discriminate].
  match goal with
  | |- context [match ?ci with _ => _ end] => destruct ci as [| n [| suffix ?]]
  end; [discriminate | | apply parse_suffix_ok].
  intros [= <-]. split; [reflexivity |]. split; discriminate.
Qed.

Lemma parse_tokens_shape (cList : list string) :
  Forall (fun s => pattern_ok s = true
                   /\ (is_all (cargs s) = true <-> ctypes s = None))
    (yielded (parse_tokens cList))
  /\ (forall e, raised (parse_tokens cList) = Some e ->
                e = IndexError \/ e = ValueError)
  /\ (raised (parse_tokens cList) = None ->
      List.length (yielded (parse_tokens cList)) = List.length cList).
Proof.
  induction cList as [| c cList (IH1 & IH2 & IH3)]; cbn [parse_tokens].
  - repeat split; [constructor | discriminate].
  - destruct (parse_token c) as [s | e] eqn:P; cbn [gen_bind].
    + cbn [gen_yield yielded raised List.length].
      repeat split; auto.
      constructor; [exact (parse_token_ok _ _ P) | exact IH1].
    + cbn [gen_raise yielded raised]. repeat split.
      * constructor.
      * intros e' [= <-]. exact (parse_token_raises _ _ P).
      * discriminate.
Qed.

(** The shape of what [parse_cuid] produces, whatever the label.
    Every segment it yields is well typed: a full wildcard without a
    type string, or a tuple with one type character per position and a
    string at every untyped position.  The only errors are IndexError
    and ValueError, and a label that parses gives one segment for each
    of its dot-separated pieces. *)
Theorem parse_cuid_shape (label : string) :
  Forall (fun s => pattern_ok s = true
                   /\ (is_all (cargs s) = true <-> ctypes s = None))
    (yielded (parse_cuid label))
  /\ (forall e, tuple_of (parse_cuid label) = Raise e ->
                e = IndexError \/ e = ValueError)
  /\ (forall _cids, tuple_of (parse_cuid label) = Ok _cids ->
                    List.length _cids = List.length (split "." label)).
Proof.
  unfold parse_cuid, tuple_of.
  destruct (parse_tokens_shape (rev (split "." label))) as (H1 & H2 & H3).
  split; [exact H1 |].
  destruct (raised (parse_tokens (rev (split "." label)))) as [e |].
  - split; [| discriminate]. intros e' [= <-]. now apply H2.
  - split; [discriminate |]. intros _cids [= <-].
    now rewrite H3, length_rev.
Qed.

(** ** Brackets and colons *)

Lemma last_char_snoc (s : string) (c : ascii) :
  last_char (s +:+ String c "") = Some c.
Proof. now rewrite last_char_append_r. Qed.

Lemma parse_token_bracket (n body : string) :
  char_in "[" n = false ->
  parse_token (n +:+ "[" +:+ body +:+ "]") = parse_suffix n body.
Proof.
  intros Hn. rewrite parse_token_suffix.
  replace (n +:+ "[" +:+ body +:+ "]") with ((n +:+ "[" +:+ body) +:+ "]")
    by now rewrite !append_assoc.
  rewrite last_char_snoc, drop_last_append. cbn [Ascii.eqb Bool.eqb].
  change (n +:+ "[" +:+ body) with (n +:+ String "[" body).
  now rewrite (split1_append _ _ _ Hn).
Qed.

Lemma parse_token_colon (n body : string) :
  char_in ":" n = false -> ends_with "]" body = false ->
  parse_token (n +:+ ":" +:+ body) = parse_suffix n body.
Proof.
  intros Hn Hb. rewrite parse_token_suffix.
  change (n +:+ ":" +:+ body) with (n +:+ String ":" body).
  assert (L : exists l, last_char (n +:+ String ":" body) = Some l
                        /\ Ascii.eqb l "]" = false).
  { rewrite last_char_append_r by discriminate.
    destruct body as [| b body]; [now exists ":"%char |].
    change (last_char (String ":" (String b body)))
      with (last_char (String b body)).
    unfold ends_with in Hb.
    destruct (last_char (String b body)) as [l |] eqn:E; [eauto |].
    apply last_char_none in E. discriminate. }
  destruct L as (l & -> & ->).
  now rewrite (split1_append _ _ _ Hn).
Qed.

Lemma parse_tokens_ext {A} (f g : A -> string) (r : list A) :
  (forall p, In p r -> parse_token (f p) = parse_token (g p)) ->
  parse_tokens (map f r) = parse_tokens (map g r).
Proof.
  induction r as [| p r IH]; intros H; [reflexivity |].
  cbn [map parse_tokens]. rewrite (H p) by now left.
  rewrite IH; [reflexivity |]. intros q Hq. apply H. now right.
Qed.

(** The bracket syntax and the colon syntax are interchangeable:
    written either way, the same names and index texts parse to the
    same segments, or fail alike. *)
Theorem bracket_colon_same (l : list (string * string)) :
  forallb index_text_ok l = true ->
  parse_cuid (bracket_label l) = parse_cuid (colon_label l).
Proof.
  intros H. destruct l as [| p0 l0]; [reflexivity |].
  remember (p0 :: l0) as l eqn:El.
  assert (Hne : l <> []) by (subst l; discriminate). clear El.
  rewrite forallb_forall in H.
  assert (Hp : forall p, In p l ->
             char_in "." (fst p) = false /\ char_in "[" (fst p) = false
             /\ char_in ":" (fst p) = false /\ char_in "." (snd p) = false
             /\ ends_with "]" (snd p) = false).
  { intros p Hin. specialize (H p Hin). unfold index_text_ok in H.
    repeat (apply andb_true_iff in H as [H ?]).
    repeat split; now apply negb_true_iff. }
  unfold parse_cuid, bracket_label, colon_label.
  rewrite !split_join.
  - rewrite <- !map_rev. apply parse_tokens_ext.
    intros [n body] Hin. apply in_rev in Hin.
    destruct (Hp _ Hin) as (_ & Hb & Hc & _ & He). cbn [fst snd] in *.
    now rewrite parse_token_bracket, parse_token_colon.
  - destruct l; [congruence | discriminate].
  - apply Forall_forall. intros t Ht.
    apply in_map_iff in Ht as ([n body] & <- & Hin).
    destruct (Hp _ Hin) as (Hn & _ & _ & Hd & _). cbn [fst snd] in *.
    change (n +:+ ":" +:+ body) with (n +:+ String ":" body).
    rewrite char_in_append. cbn [char_in]. now rewrite Hn, Hd.
  - destruct l; [congruence | discriminate].
  - apply Forall_forall. intros t Ht.
    apply in_map_iff in Ht as ([n body] & <- & Hin).
    destruct (Hp _ Hin) as (Hn & _ & _ & Hd & _). cbn [fst snd] in *.
    change (n +:+ "[" +:+ body +:+ "]") with (n +:+ String "[" (body +:+ "]")).
    rewrite char_in_append. cbn [char_in]. rewrite char_in_append.
    now rewrite Hn, Hd.
Qed.

Lemma bracket_colon_same_witness :
  parse_cuid (bracket_label [("b", "1,'a'"); ("v", "*")])
  = parse_cuid (colon_label [("b", "1,'a'"); ("v", "*")]).
Proof.
  apply (bracket_colon_same [("b", "1,'a'"); ("v", "*")]). reflexivity.
Defined.

(** ** Full wildcards in the text forms *)

Lemma wildcard_seg_inv (s : cid) :
  wildcard_seg s = true ->
  plain_name (cname s) = true /\ s = Cid (cname s) IdxAll None.
Proof.
  destruct s as [n [| args] [t |]]; unfold wildcard_seg;
    cbn [cname cargs ctypes is_all]; rewrite ?andb_false_r;
    try discriminate.
  rewrite !andb_true_r. auto.
Qed.

Lemma verbose_seg_tuple (s : cid) :
  verbose_seg s = true -> exists args, cargs s = IdxTuple args.
Proof.
  destruct s as [n [| args] t]; unfold verbose_seg; cbn [cargs];
    rewrite ?andb_false_r; [discriminate | eauto].
Qed.

Lemma verbose_token_step (a : string) (s : cid) (l : list cid) :
  verbose_seg s || wildcard_seg s = true ->
  repr_loop a (s :: l) = repr_loop (add_name a (verbose_token s)) l.
Proof.
  intros H. apply orb_true_iff in H as [H | H].
  - destruct (verbose_seg_tuple _ H) as [args E].
    unfold verbose_token. rewrite E. now apply repr_loop_step.
  - destruct (wildcard_seg_inv _ H) as [Hn ->].
    cbn [repr_loop verbose_token cargs cname]. f_equal.
    apply add_name_append. now apply plain_name_nonempty.
Qed.

Lemma verbose_token_loop (l : list cid) (a : string) :
  forallb (fun s => verbose_seg s || wildcard_seg s) l = true ->
  repr_loop a l = Ok (fold_left add_name (map verbose_token l) a).
Proof.
  revert a. induction l as [| s l IH]; intros a H; [reflexivity |].
  cbn [forallb] in H. apply andb_prop in H as [Hs Hl].
  rewrite verbose_token_step by assumption. cbn [map fold_left].
  now apply IH.
Qed.

Lemma verbose_token_chars (s : cid) :
  verbose_seg s || wildcard_seg s = true ->
  verbose_token s <> "" /\ char_in "." (verbose_token s) = false.
Proof.
  intros H. apply orb_true_iff in H as [H | H].
  - destruct (verbose_seg_tuple _ H) as [args E].
    unfold verbose_token. rewrite E. now apply seg_token_chars.
  - destruct (wildcard_seg_inv _ H) as [Hn ->].
    cbn [verbose_token cargs cname].
    pose proof (plain_name_nonempty _ Hn) as Hne.
    unfold plain_name in Hn.
    apply andb_prop in Hn as [Hn _]. apply andb_prop in Hn as [Hn _].
    apply andb_prop in Hn as [_ Hdot]. apply negb_true_iff in Hdot.
    split.
    + destruct (cname s); [congruence | discriminate].
    + rewrite char_in_append, Hdot. reflexivity.
Qed.

Lemma parse_verbose_token (s : cid) :
  verbose_seg s || wildcard_seg s = true ->
  parse_token (verbose_token s) = Ok (reparsed_seg s).
Proof.
  intros H. apply orb_true_iff in H as [H | H].
  - destruct (verbose_seg_tuple _ H) as [args E].
    unfold verbose_token, reparsed_seg. rewrite E. now apply parse_token_seg.
  - destruct (wildcard_seg_inv _ H) as [Hn ->].
    cbn [verbose_token reparsed_seg cargs cname].
    unfold plain_name in Hn.
    apply andb_prop in Hn as [Hn _]. apply andb_prop in Hn as [_ Hcolon].
    apply negb_true_iff in Hcolon.
    change (cname s +:+ ":**") with (cname s +:+ ":" +:+ "**").
    now rewrite parse_token_colon.
Qed.

Lemma parse_verbose_tokens (l : list cid) :
  forallb (fun s => verbose_seg s || wildcard_seg s) l = true ->
  parse_tokens (map verbose_token l) = gen_done (map reparsed_seg l).
Proof.
  induction l as [| s l IH]; cbn [forallb map parse_tokens];
    [reflexivity |].
  intros H. apply andb_prop in H as [Hs Hl].
  rewrite (parse_verbose_token _ Hs). cbn [gen_bind].
  now rewrite (IH Hl).
Qed.

Lemma repr_then_parse (_cids : list cid) :
  _cids <> [] ->
  forallb (fun s => verbose_seg s || wildcard_seg s) _cids = true ->
  exists text,
    __repr__ _cids = Ok text
    /\ tuple_of (parse_cuid text) = Ok (map reparsed_seg _cids).
Proof.
  intros Hne Hs. unfold __repr__.
  rewrite verbose_token_loop by now rewrite forallb_rev.
  eexists. split; [reflexivity |].
  assert (Hc : Forall (fun t => t <> "" /\ char_in "." t = false)
                 (map verbose_token (rev _cids))).
  { apply Forall_forall. intros t Ht.
    apply in_map_iff in Ht as (s & <- & Hin).
    apply verbose_token_chars. rewrite <- in_rev in Hin.
    rewrite forallb_forall in Hs. auto. }
  destruct (map verbose_token (rev _cids)) as [| t toks] eqn:E.
  { apply (f_equal (@List.length _)) in E.
    rewrite length_map, length_rev in E.
    destruct _cids; simpl in E; congruence. }
  cbn [fold_left]. unfold add_name at 2.
  inversion Hc as [| ? ? [Ht Hd] Hc']; subst.
  rewrite fold_add_name by assumption.
  unfold parse_cuid. rewrite split_join.
  - rewrite <- E, <- map_rev, rev_involutive, parse_verbose_tokens
      by assumption.
    reflexivity.
  - discriminate.
  - eapply Forall_impl; [| exact Hc]. simpl. now intros ? [_ ?].
Qed.

(** The verbose round trip with full wildcards: the text [__repr__]
    gives parses back to the same segments, except that every
    full-wildcard segment [(name, '**', None)] comes back as
    [(name, (slice('*'),), '*')], a single position typed as a
    wildcard.  An identifier with a full wildcard is therefore never
    reproduced by its own text. *)
Theorem verbose_round_trip_wildcards (_cids : list cid) :
  _cids <> [] ->
  forallb (fun s => verbose_seg s || wildcard_seg s) _cids = true ->
  exists text,
    __repr__ _cids = Ok text
    /\ tuple_of (parse_cuid text) = Ok (map reparsed_seg _cids)
    /\ (existsb wildcard_seg _cids = true ->
        tuple_of (parse_cuid text) <> Ok _cids).
Proof.
  intros Hne Hs.
  destruct (repr_then_parse _cids Hne Hs) as (text & R & P).
  exists text. split; [exact R |]. split; [exact P |].
  intros Hw. rewrite P. intros [= E].
  apply existsb_exists in Hw as (s & Hin & Hw).
  destruct (wildcard_seg_inv _ Hw) as [_ Es].
  assert (Hr : reparsed_seg s = s).
  { clear - E Hin. induction _cids as [| c l IH]; [contradiction |].
    cbn [map] in E. injection E as E1 E2.
    destruct Hin as [<- | Hin]; auto. }
  rewrite Es in Hr. discriminate Hr.
Qed.

Lemma verbose_round_trip_wildcards_witness :
  exists text,
    __repr__ [Cid "x" IdxAll None; Cid "b" (IdxTuple [VInt 1]) (Some "#")]
    = Ok text
    /\ tuple_of (parse_cuid text)
       = Ok (map reparsed_seg
               [Cid "x" IdxAll None; Cid "b" (IdxTuple [VInt 1]) (Some "#")])
    /\ (existsb wildcard_seg
          [Cid "x" IdxAll None; Cid "b" (IdxTuple [VInt 1]) (Some "#")]
        = true ->
        tuple_of (parse_cuid text)
        <> Ok [Cid "x" IdxAll None; Cid "b" (IdxTuple [VInt 1]) (Some "#")]).
Proof.
  apply (verbose_round_trip_wildcards
           [Cid "x" IdxAll None; Cid "b" (IdxTuple [VInt 1]) (Some "#")]);
    [discriminate | reflexivity].
Defined.

(** ** Positions typed as wildcards *)

Lemma positions_loop_star (types : option string) (a b : list pyval)
  (tgt : cidx) (n : nat) :
  List.length a = List.length b ->
  (forall j, types_get types j <> Ok "*"%char ->
             nth_error a j = nth_error b j) ->
  forall j,
    positions_loop (IdxTuple a) types tgt j n
    = positions_loop (IdxTuple b) types tgt j n.
Proof.
  intros Hlen Hs. induction n as [| n IH]; intros j; [reflexivity |].
  cbn [positions_loop]. unfold cidx_get at 1 3. cbn [cidx_items].
  destruct (types_get types j) as [ty | e] eqn:Ty.
  - destruct (Ascii.eqb_spec ty "*") as [-> | Hne].
    + destruct (nth_error a j) as [x |] eqn:Ea.
      * destruct (nth_error b j) as [y |] eqn:Eb.
        -- cbn [bind]. destruct (cidx_get tgt j) as [t |]; [| reflexivity].
           cbn [bind]. rewrite IH.
           destruct (pyval_eqb x t), (pyval_eqb y t); reflexivity.
        -- apply nth_error_None in Eb.
           assert (j < List.length a) by (apply nth_error_Some; congruence).
           lia.
      * destruct (nth_error b j) as [y |] eqn:Eb; [| reflexivity].
        apply nth_error_None in Ea.
        assert (j < List.length b) by (apply nth_error_Some; congruence).
        lia.
    + rewrite <- (Hs j) by (rewrite Ty; congruence).
      destruct (nth_error a j) as [x |]; [| reflexivity].
      cbn [bind]. destruct (cidx_get tgt j) as [t |]; [| reflexivity].
      cbn [bind]. rewrite IH. reflexivity.
  - rewrite <- (Hs j) by (rewrite Ty; discriminate).
    destruct (nth_error a j) as [x |]; [| reflexivity].
    cbn [bind]. destruct (cidx_get tgt j) as [t |]; [| reflexivity].
    cbn [bind]. rewrite IH. reflexivity.
Qed.

Lemma star_equiv_nth (P Q : list cid) (i : nat) :
  Forall2 star_equiv P Q ->
  match nth_error P i, nth_error Q i with
  | Some p, Some q => star_equiv p q
  | None, None => True
  | _, _ => False
  end.
Proof.
  intros F. revert i. induction F as [| p q P Q H F IH]; intros [| i];
    cbn [nth_error]; auto. apply IH.
Qed.

Section StarProps.
Context `{T : ModelTree}.

Lemma matches_loop_star (P Q : list cid) (stop : option exn) :
  Forall2 star_equiv P Q ->
  forall ys i, matches_loop P i ys stop = matches_loop Q i ys stop.
Proof.
  intros F. pose proof (Forall2_length F) as Hlen.
  induction ys as [| [name idx types] ys IH]; intros i.
  - cbn [matches_loop]. now rewrite Hlen.
  - cbn [matches_loop]. rewrite <- Hlen.
    destruct (Nat.eqb i (List.length P)); [reflexivity |].
    pose proof (star_equiv_nth P Q i F) as Hn.
    destruct (nth_error P i) as [[n1 a1 t1] |],
             (nth_error Q i) as [[n2 a2 t2] |];
      try contradiction; [| reflexivity].
    destruct Hn as (En & Et & Ha). cbn [cname ctypes cargs] in *.
    subst n2 t2.
    destruct (negb (String.eqb n1 name)); [reflexivity |].
    destruct a1 as [| a], a2 as [| b]; try contradiction.
    + cbn [is_all orb]. apply IH.
    + destruct Ha as [Hl Hs]. cbn [is_all orb].
      assert (Hlen' : cidx_len (IdxTuple a) = cidx_len (IdxTuple b))
        by exact Hl.
      rewrite <- Hlen'.
      rewrite <- (positions_loop_star t1 a b idx (cidx_len idx) Hl Hs 0).
      destruct (cidx_eqb idx (IdxTuple a)) eqn:E1,
               (cidx_eqb idx (IdxTuple b)) eqn:E2.
      * apply IH.
      * destruct idx as [| args]; [discriminate |].
        apply list_eqb_eq in E1. subst args.
        rewrite Nat.eqb_refl. cbn [negb].
        rewrite positions_loop_same by (unfold cidx_len; simpl; lia).
        cbn [bind]. apply IH.
      * destruct idx as [| args]; [discriminate |].
        apply list_eqb_eq in E2. subst args.
        rewrite Hlen', Nat.eqb_refl. cbn [negb].
        rewrite (positions_loop_star t1 a b (IdxTuple b)
                   (cidx_len (IdxTuple b)) Hl Hs 0).
        rewrite positions_loop_same by (unfold cidx_len; simpl; lia).
        cbn [bind]. apply IH.
      * destruct (negb (Nat.eqb (cidx_len idx) (cidx_len (IdxTuple a))));
          [reflexivity |].
        destruct (positions_loop (IdxTuple a) t1 idx 0 (cidx_len idx))
          as [[] |]; cbn [bind]; [apply IH | reflexivity | reflexivity].
Qed.

(** [matches] never looks at the value a pattern holds at a position
    typed ['*']: two identifiers that differ only there give the same
    answer on every object.  In particular the segment
    [(name, (slice('*'),), '*')], which is what the text [name:**]
    parses to, matches exactly as the single wildcard [name:*] does. *)
Theorem matches_ignores_wildcard_values (fuel : nat) (P Q : list cid)
  (component : node) :
  Forall2 star_equiv P Q ->
  matches fuel P component = matches fuel Q component.
Proof.
  intros F. unfold matches.
  destruct (_generate_cuid fuel component None None) as [r |];
    [| reflexivity].
  cbn [option_map]. f_equal. now apply matches_loop_star.
Qed.

End StarProps.

Lemma matches_ignores_wildcard_values_witness :
  matches 3 [Cid "y" (IdxTuple [VSlice (VStr "*")]) (Some "*")] Y3
  = matches 3 [Cid "y" (IdxTuple [VStr ""]) (Some "*")] Y3.
Proof.
  apply (@matches_ignores_wildcard_values Sample 3
           [Cid "y" (IdxTuple [VSlice (VStr "*")]) (Some "*")]
           [Cid "y" (IdxTuple [VStr ""]) (Some "*")] Y3).
  constructor; [| constructor].
  split; [reflexivity |]. split; [reflexivity |].
  split; [reflexivity |].
  intros [| j] H; [exfalso; apply H; reflexivity |].
  now destruct j.
Defined.

(** ** Text round trip of generated identifiers *)

Lemma text_vals_verbose (vs : list pyval) :
  forallb text_val vs = true -> verbose_vals (type_keys vs) vs = true.
Proof.
  unfold type_keys. induction vs as [| v vs IH]; [reflexivity |].
  cbn [forallb map string_of_list_ascii verbose_vals].
  intros H. apply andb_true_iff in H as [Hv H].
  rewrite (IH H), andb_true_r.
  destruct v; try discriminate Hv; cbn [type_key verbose_val text_val] in *.
  - reflexivity.
  - now rewrite Hv.
Qed.

Lemma text_vals_plain (vs : list pyval) :
  forallb text_val vs = true -> forallb plain_val vs = true.
Proof.
  induction vs as [| v vs IH]; [reflexivity |]. cbn [forallb].
  intros H. apply andb_true_iff in H as [Hv H]. rewrite (IH H).
  now destruct v.
Qed.

Lemma full_wildcard_inv (vs : list pyval) :
  is_full_wildcard vs = true -> vs = [VStr "**"].
Proof.
  unfold is_full_wildcard. destruct vs as [| v [| w vs]]; try discriminate.
  cbn [List.length Nat.eqb nth_error andb]. intros H.
  apply pyval_eqb_eq in H. now subst.
Qed.

Lemma reparsed_verbose (l : list cid) :
  forallb verbose_seg l = true -> map reparsed_seg l = l.
Proof.
  induction l as [| s l IH]; [reflexivity |]. cbn [forallb map].
  intros H. apply andb_true_iff in H as [Hs H]. rewrite (IH H).
  destruct (verbose_seg_tuple _ Hs) as [args E].
  unfold reparsed_seg. now rewrite E.
Qed.

Lemma verbose_or_wildcard (l : list cid) :
  forallb verbose_seg l = true ->
  forallb (fun s => verbose_seg s || wildcard_seg s) l = true.
Proof.
  intros H. rewrite forallb_forall in *. intros s Hs.
  now rewrite (H s Hs).
Qed.

Section TextProps.
Context `{T : ModelTree} (depth : node -> nat) (WF : WellFormed depth).

Lemma data_cid_verbose (n : node) :
  has_component n = true -> plain_object n ->
  verbose_seg (data_cid n) = true.
Proof.
  intros Hn [Hname Hkey].
  destruct (node_eq_dec (parent_component n) n) as [E | Hne].
  - rewrite (data_cid_scalar _ E). unfold verbose_seg.
    cbn [cname cargs ctypes verbose_vals is_full_wildcard List.length
         Nat.eqb andb negb].
    rewrite E in Hname. now rewrite Hname.
  - destruct (wf_member depth WF _ Hn Hne) as [Hc _].
    destruct (member_key_found depth WF _ Hn Hne) as (k & _ & Hin & _).
    rewrite (data_cid_member depth WF _ _ _ Hc Hin).
    destruct (Hkey k Hne Hin) as [Hv Hw].
    unfold verbose_seg, key_cid. cbn [cname cargs ctypes].
    rewrite Hname, (text_vals_verbose _ Hv). cbn [andb].
    destruct (is_full_wildcard (norm_index k)) eqn:W; [| reflexivity].
    now apply full_wildcard_inv in W.
Qed.

Lemma path_to_member (top x : node) (l : list node) (n : node) :
  path_to top x l -> In n l -> ancestor n x /\ parent_block n <> None.
Proof.
  induction 1 as [| x p l Hne Hp Hl IH]; [contradiction |].
  intros [<- | Hin].
  - split; [exists []; constructor | congruence].
  - destruct (IH Hin) as [[lm Hm] Hr]. split; [| exact Hr].
    exists (x :: lm). apply path_up with p; auto.
    destruct (path_to_depth depth WF _ _ _ Hm) as [Dm _].
    pose proof (wf_depth depth WF _ _ Hp). intros ->. lia.
Qed.

(** The headline use of the class, end to end: on a well-formed tree
    the identifier of a block or component data whose names and keys,
    and those of the blocks above it, are plain can be written as text
    and read back, and the identifier read back resolves to the object
    it was generated from. *)
Theorem generated_text_round_trip (fuel : nat) (component : node) :
  has_component component = true ->
  parent_block component <> None ->
  depth component < fuel ->
  (forall n, ancestor n component -> parent_block n <> None ->
             plain_object n) ->
  exists segs text,
    ComponentUID fuel (inr component) None None = Some (Ok segs)
    /\ __repr__ segs = Ok text
    /\ ComponentUID fuel (inl text) None None = Some (Ok segs)
    /\ find_component segs (model component) = Ok (Some component).
Proof.
  intros Hc Hnr Hd Hplain.
  destruct (generate_cuid_path depth WF fuel component None Hd)
    as (l & Hl & E); [discriminate |].
  rewrite Hc in E. cbv zeta in Hl.
  pose proof (path_to_data depth WF _ _ _ Hc Hl) as Hdata.
  assert (Hne : map data_cid l <> []).
  { destruct l; [| discriminate]. inversion Hl as [E0 |]; subst.
    exfalso. apply Hnr. rewrite <- E0 at 1. apply (model_is_root depth WF). }
  assert (Hv : forallb verbose_seg (map data_cid l) = true).
  { apply forallb_forall. intros s Hs.
    apply in_map_iff in Hs as (n & <- & Hin).
    rewrite Forall_forall in Hdata.
    apply data_cid_verbose; [now apply Hdata |].
    destruct (path_to_member _ _ _ n Hl Hin) as [Ha Hr]. now apply Hplain. }
  destruct (repr_then_parse _ Hne (verbose_or_wildcard _ Hv))
    as (text & R & P).
  rewrite (reparsed_verbose _ Hv) in P.
  exists (map data_cid l), text.
  unfold ComponentUID. rewrite E. cbn [option_map fst tuple_of raised yielded].
  repeat split; auto.
  - now rewrite P.
  - unfold find_component.
    rewrite <- (app_nil_r (rev (map data_cid l))).
    now rewrite (find_loop_path depth WF l _ component).
Qed.

End TextProps.

Lemma generated_text_round_trip_witness :
  exists segs text,
    ComponentUID 3 (inr V) None None = Some (Ok segs)
    /\ __repr__ segs = Ok text
    /\ ComponentUID 3 (inl text) None None = Some (Ok segs)
    /\ find_component segs (model V) = Ok (Some V).
Proof.
  apply (@generated_text_round_trip Sample sample_depth sample_wf 3 V);
    [reflexivity | discriminate | simpl; lia |].
  intros n [l Hl] _.
  assert (Hn : n = V \/ n = B1 \/ n = R).
  { inversion Hl as [| ? p ? _ Hp Hl1]; subst; auto.
    injection Hp as <-.
    inversion Hl1 as [| ? p ? _ Hp Hl2]; subst; auto.
    injection Hp as <-.
    inversion Hl2 as [| ? p ? _ Hp _]; subst; auto. discriminate Hp. }
  destruct Hn as [-> | [-> | ->]]; (split; [reflexivity |]).
  - intros k Hne. now contradiction Hne.
  - intros k _ [[= <-] | []]. split; [reflexivity | discriminate].
  - intros k Hne. now contradiction Hne.
Defined.

(** ** Equality *)

Lemma cid_eqb_eq (a b : cid) : cid_eqb a b = true <-> a = b.
Proof.
  destruct a as [n1 a1 t1], b as [n2 a2 t2]. unfold cid_eqb.
  cbn [cname cargs ctypes]. split.
  - intros H. apply andb_true_iff in H as [H Ht].
    apply andb_true_iff in H as [Hn Ha].
    apply String.eqb_eq in Hn. subst n2.
    assert (a1 = a2).
    { destruct a1, a2; try discriminate Ha; [reflexivity |].
      f_equal. now apply list_eqb_eq. }
    subst a2. destruct t1, t2; try discriminate Ht; [| reflexivity].
    apply String.eqb_eq in Ht. now subst.
  - intros [= <- <- <-]. rewrite String.eqb_refl.
    assert (cidx_eqb a1 a1 = true) as ->.
    { destruct a1; [reflexivity |]. now apply list_eqb_eq. }
    destruct t1; [apply String.eqb_refl | reflexivity].
Qed.

Lemma cids_eqb_eq (a b : list cid) : list_eqb cid_eqb a b = true <-> a = b.
Proof.
  revert b. induction a as [| x a IH]; intros [| y b]; cbn [list_eqb];
    try (split; [discriminate | discriminate]); [tauto |].
  rewrite andb_true_iff, cid_eqb_eq, IH. split.
  - now intros [-> ->].
  - now intros [= -> ->].
Qed.

(** The verbose text decides equality: two identifiers whose segments
    the verbose form carries unharmed are equal under [__eq__] exactly
    when [__repr__] gives them the same text, and [__ne__] is the
    negation. *)
Theorem eq_iff_same_text (a b : list cid) :
  forallb verbose_seg a = true ->
  forallb verbose_seg b = true ->
  (__eq__ a b = true <-> __repr__ a = __repr__ b)
  /\ __ne__ a b = negb (__eq__ a b).
Proof.
  intros Ha Hb. split; [| reflexivity].
  unfold __eq__. rewrite cids_eqb_eq. split; [now intros -> |].
  intros E.
  assert (Hnil : forall c, forallb verbose_seg c = true -> c <> [] ->
                           __repr__ c <> __repr__ []).
  { intros c Hc Hne.
    destruct (repr_then_parse c Hne (verbose_or_wildcard _ Hc))
      as (text & R & P).
    rewrite R. cbn. intros [= ->]. discriminate P. }
  destruct a as [| x a], b as [| y b]; auto.
  - exfalso. now apply (Hnil (y :: b) Hb).
  - exfalso. now apply (Hnil (x :: a) Ha).
  - destruct (repr_then_parse (x :: a)) as (ta & Ra & Pa);
      [discriminate | now apply verbose_or_wildcard |].
    destruct (repr_then_parse (y :: b)) as (tb & Rb & Pb);
      [discriminate | now apply verbose_or_wildcard |].
    rewrite (reparsed_verbose _ Ha) in Pa.
    rewrite (reparsed_verbose _ Hb) in Pb.
    rewrite Ra, Rb in E. injection E as ->. congruence.
Qed.

Lemma eq_iff_same_text_witness :
  (__eq__ [Cid "x" (IdxTuple [VInt 1]) (Some "#")]
     [Cid "x" (IdxTuple [VStr "1"]) (Some "$")] = true
   <-> __repr__ [Cid "x" (IdxTuple [VInt 1]) (Some "#")]
       = __repr__ [Cid "x" (IdxTuple [VStr "1"]) (Some "$")])
  /\ __ne__ [Cid "x" (IdxTuple [VInt 1]) (Some "#")]
       [Cid "x" (IdxTuple [VStr "1"]) (Some "$")]
     = negb (__eq__ [Cid "x" (IdxTuple [VInt 1]) (Some "#")]
               [Cid "x" (IdxTuple [VStr "1"]) (Some "$")]).
Proof.
  apply (eq_iff_same_text [Cid "x" (IdxTuple [VInt 1]) (Some "#")]
           [Cid "x" (IdxTuple [VStr "1"]) (Some "$")]); reflexivity.
Defined.

(** ** A reused buffer *)

Section ReuseProps.
Context `{T : ModelTree} (depth : node -> nat) (WF : WellFormed depth).

(** Whatever a buffer holds, generation with it yields what
    generation without a buffer yields: the entries of the members of
    every indexed component on the way are written afresh before one is
    read, so an entry left by an earlier call, even a wrong one, is
    never used.  The only key that would suppress the refresh is
    [id(self)], which the code never stores. *)
Theorem cuid_buffer_contents_ignored (fuel : nat) (component : node)
  (context : option node) (d : cuid_dict) :
  dict_has IdSelf d = false ->
  option_map fst (_generate_cuid fuel component (Some d) context)
  = option_map fst (_generate_cuid fuel component None context).
Proof.
  intros Hd. unfold _generate_cuid.
  destruct (has_component component) eqn:Hc; cbn [negb].
  - apply (generate_loop_buffer depth WF); [| exact Hd].
    now intros c [= <-].
  - rewrite !fst_run_yield. f_equal.
    apply (generate_loop_buffer depth WF); [| exact Hd].
    intros p P. exact (wf_block depth WF _ _ P).
Qed.

End ReuseProps.

Lemma cuid_buffer_contents_ignored_witness :
  option_map fst
    (_generate_cuid 3 V
       (Some [(@IdNode Sample B1, (IdxTuple [VInt 99], Some "#"))]) None)
  = option_map fst (_generate_cuid 3 V None None).
Proof.
  apply (@cuid_buffer_contents_ignored Sample sample_depth sample_wf 3 V
           None [(@IdNode Sample B1, (IdxTuple [VInt 99], Some "#"))]).
  reflexivity.
Defined.

(** ** The compact form and the type string *)

Lemma str_loop_same (l1 l2 : list cid) :
  Forall2 same_text l1 l2 -> forall a, str_loop a l1 = str_loop a l2.
Proof.
  induction 1 as [| [n1 a1 t1] [n2 a2 t2] l1 l2 (En & Ea & Et) F IH];
    intros a; [reflexivity |].
  cbn [cname cargs ctypes] in *. subst n2. cbn [str_loop].
  destruct t1 as [t1 |], t2 as [t2 |].
  - unfold cidx_len. rewrite <- (length_map str_or_star (cidx_items a1)),
      <- (length_map str_or_star (cidx_items a2)), Ea.
    destruct (Nat.eqb _ 0); apply IH.
  - discriminate (proj2 Et eq_refl).
  - discriminate (proj1 Et eq_refl).
  - apply IH.
Qed.

Lemma Forall2_rev {A B} (R : A -> B -> Prop) (l1 : list A) (l2 : list B) :
  Forall2 R l1 l2 -> Forall2 R (rev l1) (rev l2).
Proof.
  induction 1 as [| x y l1 l2 H F IH]; [constructor |].
  cbn [rev]. apply Forall2_app; [exact IH |]. now constructor.
Qed.

(** The compact form carries no types: [__str__] depends only on the
    names, on the texts of the index values and on whether a segment
    has a type string at all.  Identifiers that differ in the type of a
    value, as the integer [1] and the string ['1'] do, or that hold an
    empty string where another holds a single wildcard, print alike. *)
Theorem str_ignores_types (a b : list cid) :
  Forall2 same_text a b -> __str__ a = __str__ b.
Proof.
  intros F. unfold __str__. apply str_loop_same. now apply Forall2_rev.
Qed.

Lemma str_ignores_types_witness :
  __str__ [Cid "x" (IdxTuple [VInt 1; VStr ""]) (Some "#$")]
  = __str__ [Cid "x" (IdxTuple [VStr "1"; VStr ""]) (Some "$*")].
Proof.
  apply (str_ignores_types
           [Cid "x" (IdxTuple [VInt 1; VStr ""]) (Some "#$")]
           [Cid "x" (IdxTuple [VStr "1"; VStr ""]) (Some "$*")]).
  constructor; [| constructor].
  split; [reflexivity |]. split; [reflexivity |]. split; discriminate.
Defined.

(** ** The outcome of building a segment from [slice_info] *)

Lemma nat_get_outcome (i : nat) (d : list (nat * pyval)) :
  match nat_get i d with
  | Ok _ => existsb (fun kv => Nat.eqb i (fst kv)) d = true
  | Raise e => existsb (fun kv => Nat.eqb i (fst kv)) d = false
               /\ e = KeyError
  end.
Proof.
  induction d as [| [k v] d IH]; cbn [nat_get existsb fst]; [auto |].
  destruct (Nat.eqb i k); [reflexivity | exact IH].
Qed.

Lemma value_map_get_outcome (fixed sliced : list (nat * pyval)) (i : nat) :
  match value_map_get fixed sliced i with
  | Ok _ => existsb (fun kv => Nat.eqb i (fst kv)) (sliced ++ fixed) = true
  | Raise e =>
      existsb (fun kv => Nat.eqb i (fst kv)) (sliced ++ fixed) = false
      /\ e = KeyError
  end.
Proof.
  unfold value_map_get. rewrite existsb_app.
  pose proof (nat_get_outcome i sliced) as Hs.
  pose proof (nat_get_outcome i fixed) as Hf.
  destruct (nat_get i sliced) as [v | e]; [now rewrite Hs |].
  destruct Hs as [-> _]. exact Hf.
Qed.

Lemma value_map_values_outcome (fixed sliced : list (nat * pyval)) (n : nat) :
  forall i,
    match value_map_values fixed sliced i n with
    | Ok vs =>
        forallb (fun i => existsb (fun kv => Nat.eqb i (fst kv))
                            (sliced ++ fixed)) (seq i n) = true
        /\ List.length vs = n
    | Raise e =>
        forallb (fun i => existsb (fun kv => Nat.eqb i (fst kv))
                            (sliced ++ fixed)) (seq i n) = false
        /\ e = KeyError
    end.
Proof.
  induction n as [| n IH]; intros i; cbn [value_map_values seq forallb];
    [auto |].
  pose proof (value_map_get_outcome fixed sliced i) as Hg.
  destruct (value_map_get fixed sliced i) as [v | e]; cbn [bind].
  - rewrite Hg. cbn [andb]. specialize (IH (S i)).
    destruct (value_map_values fixed sliced (S i) n) as [vs | e];
      cbn [bind]; [| exact IH].
    destruct IH as [-> <-]. auto.
  - destruct Hg as [-> ->]. auto.
Qed.

(** How building a segment from a [slice_info] ends.  With an
    ellipsis it fails, with NotImplementedError, exactly when there are
    fixed indices, and otherwise gives the full wildcard whatever is
    sliced.  Without an ellipsis it fails, with KeyError, exactly when
    some position below the number of positions given is given neither
    as fixed nor as sliced; otherwise the segment has one index value
    and one type character for each position. *)
Theorem slice_info_outcome (fixed sliced : list (nat * pyval))
  (ellipsis : option nat) :
  match _partial_cuid_from_slice_info fixed sliced ellipsis with
  | Ok (idx, types) =>
      slice_info_ok fixed sliced ellipsis = true
      /\ match ellipsis with
         | Some _ => idx = IdxTuple [VStr "**"] /\ types = None
         | None =>
             cidx_len idx = value_map_len fixed sliced
             /\ exists t, types = Some t
                          /\ String.length t = value_map_len fixed sliced
         end
  | Raise e =>
      slice_info_ok fixed sliced ellipsis = false
      /\ e = match ellipsis with
             | Some _ => NotImplementedError
             | None => KeyError
             end
  end.
Proof.
  unfold _partial_cuid_from_slice_info, slice_info_ok.
  destruct ellipsis as [n |].
  - destruct fixed; auto.
  - pose proof (value_map_values_outcome fixed sliced
                  (value_map_len fixed sliced) 0) as H.
    destruct (value_map_values fixed sliced 0 (value_map_len fixed sliced))
      as [vs | e]; cbn [bind]; [| exact H].
    destruct H as [-> Hlen]. split; [reflexivity |]. split.
    + unfold cidx_len, cidx_items. now rewrite length_map.
    + eexists. split; [reflexivity |].
      rewrite <- Hlen. clear. induction vs as [| v vs IH]; [reflexivity |].
      cbn [map string_of_list_ascii String.length List.length].
      now rewrite IH.
Qed.

(** ** Enumeration *)

Lemma get_char_in (t : string) (j : nat) (c : ascii) :
  String.get j t = Some c -> char_in c t = true.
Proof.
  revert j. induction t as [| d t IH]; intros [| j]; cbn [String.get char_in];
    try discriminate.
  - intros [= ->]. now rewrite Ascii.eqb_refl.
  - intros H. rewrite (IH _ H). apply orb_true_r.
Qed.

Lemma star_free_equal (t : string) (a b : list pyval) :
  char_in "*" t = false ->
  (forall j, types_get (Some t) j <> Ok "*"%char ->
             nth_error a j = nth_error b j) ->
  a = b.
Proof.
  intros Hs H. apply nth_error_ext. intros j. apply H.
  unfold types_get, char_at.
  destruct (String.get j t) as [c |] eqn:E; [| discriminate].
  intros [= ->]. apply get_char_in in E. congruence.
Qed.

Section EnumerationProps.
Context `{T : ModelTree} (depth : node -> nat) (WF : WellFormed depth).

Lemma keeps_star (types : option string) (a b : list pyval) (k : pyindex) :
  plain_key k ->
  List.length a = List.length b ->
  (forall j, types_get types j <> Ok "*"%char ->
             nth_error a j = nth_error b j) ->
  keeps (IdxTuple a) types k = keeps (IdxTuple b) types k.
Proof.
  intros Hk Hlen Hs.
  assert (Hslow :
    (p <- _partial_cuid_from_index k ;;
     if negb (Nat.eqb (cidx_len (IdxTuple a)) (cidx_len (fst p)))
     then Ok false
     else positions_loop (IdxTuple a) types (fst p) 0
            (cidx_len (IdxTuple a)))
    = (p <- _partial_cuid_from_index k ;;
       if negb (Nat.eqb (cidx_len (IdxTuple b)) (cidx_len (fst p)))
       then Ok false
       else positions_loop (IdxTuple b) types (fst p) 0
              (cidx_len (IdxTuple b)))).
  { rewrite (partial_cuid_plain _ Hk). cbn [bind fst].
    unfold cidx_len at 1 3 4 6. cbn [cidx_items]. rewrite Hlen.
    destruct (negb _); [reflexivity |].
    now apply positions_loop_star. }
  assert (Hfast : forall vs,
    k = ITuple vs -> list_eqb pyval_eqb a vs = true ->
    (p <- _partial_cuid_from_index k ;;
     if negb (Nat.eqb (cidx_len (IdxTuple b)) (cidx_len (fst p)))
     then Ok false
     else positions_loop (IdxTuple b) types (fst p) 0
            (cidx_len (IdxTuple b)))
    = Ok true).
  { intros vs -> E. apply list_eqb_eq in E. subst vs.
    rewrite (partial_cuid_plain _ Hk). cbn [bind fst norm_index].
    unfold cidx_len. cbn [cidx_items]. rewrite Hlen, Nat.eqb_refl.
    cbn [negb]. rewrite <- Hlen.
    rewrite <- (positions_loop_star types a b (IdxTuple a)
                  (List.length a) Hlen Hs 0).
    apply positions_loop_same. simpl. lia. }
  unfold keeps. cbn [is_all negb andb].
  destruct k as [v | vs]; cbn [differs]; [exact Hslow |].
  destruct (list_eqb pyval_eqb a vs) eqn:Ea,
           (list_eqb pyval_eqb b vs) eqn:Eb; cbn [negb].
  - reflexivity.
  - symmetry. now apply (Hfast vs).
  - rewrite Hslow. apply list_eqb_eq in Eb. subst vs.
    rewrite (partial_cuid_plain _ Hk). cbn [bind fst norm_index].
    unfold cidx_len. cbn [cidx_items]. rewrite Nat.eqb_refl. cbn [negb].
    apply positions_loop_same. simpl. lia.
  - exact Hslow.
Qed.

Lemma each_item_ext (idx idx' : cidx) (types types' : option string)
  (recurse recurse' : node -> gen node) (items : list (pyindex * node)) :
  (forall k o, In (k, o) items -> keeps idx types k = keeps idx' types' k) ->
  (forall o, recurse o = recurse' o) ->
  each_item idx types recurse items = each_item idx' types' recurse' items.
Proof.
  intros Hk Hr. induction items as [| [k o] items IH]; [reflexivity |].
  cbn [each_item]. rewrite (Hk k o) by now left.
  assert (IH' := IH (fun k' o' H => Hk k' o' (or_intror H))).
  destruct (keeps idx' types' k) as [[] | e]; cbn [gen_bind];
    rewrite ?Hr, ?IH'; reflexivity.
Qed.

Lemma list_from_star (P Q : list cid) :
  Forall2 star_equiv P Q -> forall b, list_from P b = list_from Q b.
Proof.
  induction 1 as [| [n1 a1 t1] [n2 a2 t2] P Q (En & Et & Ha) F IH];
    intros b; [reflexivity |].
  cbn [cname cargs ctypes] in *. subst n2 t2. cbn [list_from].
  destruct (getattr (Some b) n1) as [c | e] eqn:G; [| reflexivity].
  destruct a1 as [| a], a2 as [| a']; try contradiction.
  - cbn [cidx_len cidx_items List.length Nat.eqb is_direct is_all gen_bind].
    apply each_item_ext; auto.
  - destruct Ha as [Hlen Hs].
    unfold cidx_len. cbn [cidx_items]. rewrite <- Hlen.
    destruct (Nat.eqb (List.length a) 0); [apply IH |].
    unfold is_direct. cbn [is_all].
    destruct t1 as [t |]; cbn [types_has bind]; [| reflexivity].
    assert (Hitems : each_item (IdxTuple a) (Some t) (list_from P)
                       (iteritems c)
                     = each_item (IdxTuple a') (Some t) (list_from Q)
                         (iteritems c)).
    { apply each_item_ext; [| exact IH]. intros k o Hin.
      apply keeps_star; auto.
      exact (items_plain depth WF _ _ _ _ _ G Hin). }
    destruct (char_in "*" t) eqn:Hstar; cbn [bind gen_bind];
      [exact Hitems |].
    rewrite (star_free_equal t a a' Hstar Hs) in *.
    destruct (negb (char_in "." t)); cbn [gen_bind].
    + destruct (getitem c a'); [apply IH | reflexivity].
    + exact Hitems.
Qed.

(** [list_components] never looks at the value a pattern holds at a
    position typed ['*'] either: two identifiers that differ only
    there enumerate the same objects in the same order. *)
Theorem list_components_ignores_wildcard_values (P Q : list cid)
  (block : node) :
  Forall2 star_equiv P Q ->
  list_components P block = list_components Q block.
Proof.
  intros F. unfold list_components, _list_components.
  apply list_from_star. now apply Forall2_rev.
Qed.

Lemma enters_parent (pat : cid) (b n : node) :
  enters pat b n -> parent_block n = Some b.
Proof.
  intros (c & G & Hcase). apply getattr_assoc in G.
  destruct (wf_attr depth WF _ _ _ G) as (_ & _ & Hpb & Hs).
  assert (Hitem : forall k, In (k, n) (iteritems c) ->
                            parent_block n = Some b).
  { intros k Hin. destruct (has_component c) eqn:Hc.
    - rewrite (wf_scalar depth WF _ Hc (Hs eq_refl)) in Hin.
      destruct Hin as [[= _ <-] | []]. exact Hpb.
    - destruct (wf_item depth WF _ _ _ Hc Hin) as (_ & _ & Hpb' & _).
      congruence. }
  destruct Hcase as [[_ ->] | [(_ & _ & GI) | (_ & _ & k & Hin & _)]].
  - exact Hpb.
  - destruct (getitem_in _ _ _ GI) as (k & Hin & _). eauto.
  - eauto.
Qed.

Lemma descends_ascend (outer : list cid) (b x : node) :
  descends outer b x -> ascend (List.length outer) x = Some b.
Proof.
  induction 1 as [b | pat rest b n x He Hd IH]; [reflexivity |].
  cbn [List.length ascend]. rewrite IH. exact (enters_parent _ _ _ He).
Qed.

Lemma each_item_nodup (idx : cidx) (types : option string)
  (recurse : node -> gen node) (items : list (pyindex * node)) :
  NoDup (map snd items) ->
  (forall o, NoDup (yielded (recurse o))) ->
  (forall o o' x, In x (yielded (recurse o)) ->
                  In x (yielded (recurse o')) -> o = o') ->
  NoDup (yielded (each_item idx types recurse items))
  /\ forall x, In x (yielded (each_item idx types recurse items)) ->
               exists o, In o (map snd items) /\ In x (yielded (recurse o)).
Proof.
  intros Hnd Hr Hdis. induction items as [| [k o] items IH].
  - split; [constructor | contradiction].
  - cbn [map snd] in Hnd. inversion Hnd as [| ? ? Hnot Hnd']; subst.
    destruct (IH Hnd') as [IH1 IH2]. cbn [each_item].
    destruct (keeps idx types k) as [[] | e]; cbn [gen_bind].
    + unfold gen_seq. destruct (raised (recurse o)).
      * split; [apply Hr |]. intros x Hx. exists o. split; [now left | auto].
      * cbn [yielded]. split.
        -- apply NoDup_app; [apply Hr | exact IH1 |].
           intros x Hx Hx'. destruct (IH2 x Hx') as (o' & Ho' & Hxo').
           rewrite (Hdis _ _ _ Hx Hxo') in Hnot. contradiction.
        -- intros x Hx. apply in_app_or in Hx as [Hx | Hx].
           ++ exists o. split; [now left | auto].
           ++ destruct (IH2 x Hx) as (o' & Ho' & Hxo').
              exists o'. split; [now right | auto].
    + split; [exact IH1 |]. intros x Hx.
      destruct (IH2 x Hx) as (o' & Ho' & Hxo').
      exists o'. split; [now right | auto].
    + split; [constructor | contradiction].
Qed.

Lemma list_from_nodup (outer : list cid) :
  forallb pattern_ok outer = true ->
  forall b, NoDup (yielded (list_from outer b)).
Proof.
  induction outer as [| [name idx types] rest IH]; intros Hp b.
  - cbn. constructor; [intros [] | constructor].
  - cbn [forallb] in Hp. apply andb_true_iff in Hp as [Hs Hp].
    specialize (IH Hp). cbn [list_from].
    destruct (getattr (Some b) name) as [c | e]; [| constructor].
    destruct (Nat.eqb (cidx_len idx) 0); [apply IH |].
    destruct (is_direct idx types) as [[] | e]; cbn [gen_bind].
    + destruct (getitem c (cidx_items idx)); [apply IH | constructor].
    + apply each_item_nodup; auto.
      * apply (wf_members depth WF).
      * intros o o' x Hx Hx'.
        destruct (list_from_spec depth WF rest Hp o) as [_ Ho].
        destruct (list_from_spec depth WF rest Hp o') as [_ Ho'].
        apply Ho, descends_ascend in Hx. apply Ho', descends_ascend in Hx'.
        congruence.
    + constructor.
Qed.

(** Enumeration never yields an object twice: on a well-formed tree
    and for an identifier whose segments are well typed, the objects
    [list_components] yields are pairwise distinct. *)
Theorem list_components_no_duplicates (_cids : list cid) (block : node) :
  forallb pattern_ok _cids = true ->
  NoDup (yielded (list_components _cids block)).
Proof.
  intros Hp. unfold list_components, _list_components.
  apply list_from_nodup. now rewrite forallb_rev.
Qed.

End EnumerationProps.

Lemma list_components_ignores_wildcard_values_witness :
  list_components [Cid "y" (IdxTuple [VSlice (VStr "*")]) (Some "*")] R
  = list_components [Cid "y" (IdxTuple [VStr ""]) (Some "*")] R.
Proof.
  apply (@list_components_ignores_wildcard_values Sample sample_depth
           sample_wf
           [Cid "y" (IdxTuple [VSlice (VStr "*")]) (Some "*")]
           [Cid "y" (IdxTuple [VStr ""]) (Some "*")] R).
  constructor; [| constructor].
  split; [reflexivity |]. split; [reflexivity |].
  split; [reflexivity |].
  intros [| j] H; [exfalso; apply H; reflexivity |].
  now destruct j.
Defined.

Lemma list_components_no_duplicates_witness :
  NoDup (yielded (list_components
                    [Cid "x" (IdxTuple [VStr ""; VStr "a"]) (Some "*.")] R)).
Proof.
  apply (@list_components_no_duplicates Sample sample_depth sample_wf
           [Cid "x" (IdxTuple [VStr ""; VStr "a"]) (Some "*.")] R).
  reflexivity.
Defined.

(** ** The compact form of generated identifiers *)

Lemma bare_vals_compact (vs : list pyval) :
  forallb bare_val vs = true -> compact_vals (type_keys vs) vs = true.
Proof.
  unfold type_keys. induction vs as [| v vs IH]; [reflexivity |].
  cbn [forallb map string_of_list_ascii compact_vals].
  intros H. apply andb_true_iff in H as [Hv H].
  rewrite (IH H), andb_true_r.
  destruct v; try discriminate Hv; cbn [type_key compact_val bare_val] in *.
  - reflexivity.
  - now rewrite Hv.
Qed.

Lemma compact_text_same (l : list cid) :
  forallb compact_seg l = true -> Forall2 same_text (map compact_text l) l.
Proof.
  induction l as [| s l IH]; [constructor |]. cbn [forallb map].
  intros H. apply andb_true_iff in H as [Hs H].
  constructor; [| now apply IH].
  unfold same_text, compact_text. cbn [cname cargs ctypes cidx_items].
  split; [reflexivity |]. split.
  - rewrite map_map. apply map_ext. intros v. unfold str_or_star.
    reflexivity.
  - destruct (ctypes s); cbn [option_map]; split; congruence.
Qed.

(** Printing is stable under a text round trip: the compact text of
    an identifier parses to an identifier whose compact text is the
    same, although the parsed identifier has lost the types. *)
Theorem compact_text_stable (_cids : list cid) :
  _cids <> [] ->
  forallb compact_seg _cids = true ->
  exists parsed,
    tuple_of (parse_cuid (__str__ _cids)) = Ok parsed
    /\ __str__ parsed = __str__ _cids.
Proof.
  intros Hne Hs. rewrite (parse_compact _ Hne Hs).
  eexists. split; [reflexivity |].
  unfold __str__. apply str_loop_same. apply Forall2_rev.
  now apply compact_text_same.
Qed.

Lemma compact_text_stable_witness :
  exists parsed,
    tuple_of (parse_cuid (__str__ [Cid "v" (IdxTuple []) (Some "");
                                   Cid "b" (IdxTuple [VInt 1]) (Some "#")]))
    = Ok parsed
    /\ __str__ parsed
       = __str__ [Cid "v" (IdxTuple []) (Some "");
                  Cid "b" (IdxTuple [VInt 1]) (Some "#")].
Proof.
  apply (compact_text_stable [Cid "v" (IdxTuple []) (Some "");
                              Cid "b" (IdxTuple [VInt 1]) (Some "#")]);
    [discriminate | reflexivity].
Defined.

Section CompactTree.
Context `{T : ModelTree} (depth : node -> nat) (WF : WellFormed depth).

Lemma data_cid_compact (n : node) :
  has_component n = true -> compact_object n ->
  compact_seg (data_cid n) = true.
Proof.
  intros Hn [Hname Hkey].
  destruct (node_eq_dec (parent_component n) n) as [E | Hne].
  - rewrite (data_cid_scalar _ E). unfold compact_seg.
    cbn [cname cargs ctypes compact_vals].
    rewrite E in Hname. now rewrite Hname.
  - destruct (wf_member depth WF _ Hn Hne) as [Hc _].
    destruct (member_key_found depth WF _ Hn Hne) as (k & _ & Hin & _).
    rewrite (data_cid_member depth WF _ _ _ Hc Hin).
    unfold compact_seg, key_cid. cbn [cname cargs ctypes].
    now rewrite Hname, (bare_vals_compact _ (Hkey k Hne Hin)).
Qed.

(** The compact form, end to end: on a well-formed tree, the compact
    text of the identifier of a block or component data parses to an
    identifier that resolves to the same object, when the names and
    keys on the way are ones the compact form carries and no sibling
    is keyed by another reading of the same text. *)
Theorem generated_compact_round_trip (fuel : nat) (component : node) :
  has_component component = true ->
  parent_block component <> None ->
  depth component < fuel ->
  (forall n, ancestor n component -> parent_block n <> None ->
             compact_object n /\ collision_free (data_cid n)) ->
  exists segs parsed,
    ComponentUID fuel (inr component) None None = Some (Ok segs)
    /\ ComponentUID fuel (inl (__str__ segs)) None None = Some (Ok parsed)
    /\ find_component parsed (model component) = Ok (Some component).
Proof.
  intros Hc Hnr Hd Hplain.
  destruct (generate_cuid_path depth WF fuel component None Hd)
    as (l & Hl & E); [discriminate |].
  rewrite Hc in E. cbv zeta in Hl.
  pose proof (path_to_data depth WF _ _ _ Hc Hl) as Hdata.
  assert (Hne : map data_cid l <> []).
  { destruct l; [| discriminate]. inversion Hl as [E0 |]; subst.
    exfalso. apply Hnr. rewrite <- E0 at 1. apply (model_is_root depth WF). }
  assert (Hv : forallb compact_seg (map data_cid l) = true).
  { apply forallb_forall. intros s Hs.
    apply in_map_iff in Hs as (n & <- & Hin).
    rewrite Forall_forall in Hdata.
    apply data_cid_compact; [now apply Hdata |].
    destruct (path_to_member depth WF _ _ _ n Hl Hin) as [Ha Hr].
    now destruct (Hplain n Ha Hr). }
  assert (Hf : Forall collision_free (map data_cid l)).
  { apply Forall_forall. intros s Hs.
    apply in_map_iff in Hs as (n & <- & Hin).
    destruct (path_to_member depth WF _ _ _ n Hl Hin) as [Ha Hr].
    now destruct (Hplain n Ha Hr). }
  exists (map data_cid l), (map compact_text (map data_cid l)).
  unfold ComponentUID. rewrite E.
  cbn [option_map fst tuple_of raised yielded].
  split; [reflexivity |]. split.
  - f_equal. now apply parse_compact.
  - unfold find_component. rewrite <- map_rev.
    rewrite find_loop_compact.
    + rewrite <- (app_nil_r (rev (map data_cid l))).
      now rewrite (find_loop_path depth WF l _ component).
    + now rewrite forallb_rev.
    + now apply Forall_rev.
Qed.

End CompactTree.

Lemma generated_compact_round_trip_witness :
  exists segs parsed,
    ComponentUID 3 (inr V) None None = Some (Ok segs)
    /\ ComponentUID 3 (inl (__str__ segs)) None None = Some (Ok parsed)
    /\ find_component parsed (model V) = Ok (Some V).
Proof.
  apply (@generated_compact_round_trip Sample sample_depth sample_wf 3 V);
    [reflexivity | discriminate | simpl; lia |].
  intros n [l Hl] Hnr.
  assert (Hn : n = V \/ n = B1).
  { inversion Hl as [| ? p ? _ Hp Hl1]; subst; auto.
    injection Hp as <-.
    inversion Hl1 as [| ? p ? _ Hp Hl2]; subst; auto.
    injection Hp as <-.
    inversion Hl2 as [| ? p ? _ Hp _]; subst;
      [now contradiction Hnr | discriminate Hp]. }
  destruct Hn as [-> | ->].
  - split.
    + split; [reflexivity |]. intros k Hne. now contradiction Hne.
    + intros obj c k Hget Hin Hne. simpl in Hin.
      destruct Hin as [<- | []]. exfalso. apply Hne. reflexivity.
  - split.
    + split; [reflexivity |]. now intros k _ [[= <-] | []].
    + intros obj c k Hget Hin Hne.
      destruct obj; simpl in Hget; try discriminate.
      injection Hget as <-.
      simpl in Hin. destruct Hin as [<- | [<- | [<- | []]]];
        [exfalso; apply Hne; reflexivity | reflexivity | reflexivity].
Defined.

(** ** Wildcards in resolution *)

Lemma find_step_wild `{T : ModelTree} (obj : option node) (s : cid) :
  wild_seg s = true ->
  find_step obj s
  = match getattr obj (cname s) with
    | Ok c => Ok (Next (Some c))
    | Raise _ => Ok (Return None)
    end.
Proof.
  destruct s as [name [| args] types]; unfold wild_seg;
    cbn [cname cargs ctypes is_all orb].
  - intros _. apply find_step_all.
  - destruct args as [| v args]; [discriminate |].
    destruct types as [t |]; [| discriminate].
    intros H. apply find_step_plain. now rewrite H, orb_true_r.
Qed.

Section WildcardProps.
Context `{T : ModelTree} (depth : node -> nat) (WF : WellFormed depth).

Lemma getattr_of_component (c : node) (name : string) :
  has_component c = false -> getattr (Some c) name = Raise AttributeError.
Proof.
  intros Hc. unfold getattr.
  destruct (assoc name (attrs c)) as [x |] eqn:E; [| reflexivity].
  destruct (wf_attr depth WF _ _ _ E) as (Hb & _). congruence.
Qed.

Lemma find_step_of_component (c : node) (s : cid) :
  has_component c = false -> find_step (Some c) s = Ok (Return None).
Proof.
  intros Hc. destruct s as [name idx types]. unfold find_step.
  rewrite (getattr_of_component c name Hc).
  destruct (Nat.eqb (cidx_len idx) 0); [reflexivity |].
  destruct (is_all idx); [reflexivity |].
  destruct types; reflexivity.
Qed.

(** What the docstring of [find_component] says of wildcards, as the
    code has it.  An identifier that is one wildcard segment resolves
    to the component of that name, not to a member.  A wildcard
    segment above the leaf that names an indexed component makes the
    result [None], whatever follows: the indexed component itself has
    no attribute to descend into. *)
Theorem find_component_wildcards (block c : node) (s : cid)
  (inner : list cid) :
  wild_seg s = true ->
  getattr (Some block) (cname s) = Ok c ->
  find_component [s] block = Ok (Some c)
  /\ (has_component c = false -> inner <> [] ->
      find_component (inner ++ [s]) block = Ok None).
Proof.
  intros Hw G. unfold find_component. split.
  - cbn [rev app find_loop]. rewrite (find_step_wild _ _ Hw), G.
    reflexivity.
  - intros Hc Hne. rewrite rev_app_distr. cbn [rev app find_loop].
    rewrite (find_step_wild _ _ Hw), G. cbn [bind].
    destruct (rev inner) as [| s' rest] eqn:E.
    + apply (f_equal (@List.length _)) in E. rewrite length_rev in E.
      destruct inner; [congruence | discriminate].
    + cbn [find_loop]. now rewrite (find_step_of_component c s' Hc).
Qed.

End WildcardProps.

Lemma find_component_wildcards_witness :
  find_component [Cid "b" (IdxTuple [VStr ""]) (Some "*")] R = Ok (Some B)
  /\ (has_component B = false ->
      [Cid "v" (IdxTuple []) (Some "")] <> [] ->
      find_component ([Cid "v" (IdxTuple []) (Some "")]
                        ++ [Cid "b" (IdxTuple [VStr ""]) (Some "*")]) R
      = Ok None).
Proof.
  apply (@find_component_wildcards Sample sample_depth sample_wf R B
           (Cid "b" (IdxTuple [VStr ""]) (Some "*"))
           [Cid "v" (IdxTuple []) (Some "")]); reflexivity.
Defined.

(** ** The ordering operators *)

Lemma pyval_eqb_sym (a b : pyval) : pyval_eqb a b = pyval_eqb b a.
Proof.
  revert b. induction a; intros []; cbn [pyval_eqb]; auto.
  - apply Z.eqb_sym.
  - apply String.eqb_sym.
Qed.

Lemma list_eqb_sym {A} (eqb : A -> A -> bool) (l1 l2 : list A) :
  (forall x y, eqb x y = eqb y x) ->
  list_eqb eqb l1 l2 = list_eqb eqb l2 l1.
Proof.
  intros H. revert l2. induction l1 as [| x l1 IH]; intros [| y l2];
    cbn [list_eqb]; auto.
  now rewrite H, IH.
Qed.

Lemma cidx_eqb_sym (a b : cidx) : cidx_eqb a b = cidx_eqb b a.
Proof.
  destruct a, b; cbn [cidx_eqb]; auto.
  apply list_eqb_sym, pyval_eqb_sym.
Qed.

Lemma cid_eqb_sym (a b : cid) : cid_eqb a b = cid_eqb b a.
Proof.
  unfold cid_eqb. rewrite String.eqb_sym, cidx_eqb_sym.
  destruct (ctypes a), (ctypes b); auto. f_equal. apply String.eqb_sym.
Qed.

Lemma tuple_compare_antisym {A} (eqb : A -> A -> bool)
  (cmp : A -> A -> result comparison) (l1 l2 : list A) :
  (forall x y, eqb x y = eqb y x) ->
  (forall x y, cmp y x = opp (cmp x y)) ->
  tuple_compare eqb cmp l2 l1 = opp (tuple_compare eqb cmp l1 l2).
Proof.
  intros He Hc. revert l2. induction l1 as [| x l1 IH]; intros [| y l2];
    cbn [tuple_compare]; auto.
  rewrite (He y x). destruct (eqb x y); auto.
Qed.

Lemma pyval_compare_antisym (a b : pyval) :
  pyval_compare b a = opp (pyval_compare a b).
Proof.
  revert b. induction a; intros []; cbn [pyval_compare opp]; auto.
  - now rewrite Z.compare_antisym.
  - now rewrite String.compare_antisym.
  - rewrite (pyval_eqb_sym stop a). destruct (pyval_eqb a stop); auto.
Qed.

Lemma cid_compare_antisym (a b : cid) :
  cid_compare b a = opp (cid_compare a b).
Proof.
  unfold cid_compare.
  rewrite (String.eqb_sym (cname b)), (cidx_eqb_sym (cargs b)).
  destruct (String.eqb (cname a) (cname b)); cbn [negb].
  - destruct (cidx_eqb (cargs a) (cargs b)); cbn [negb].
    + destruct (ctypes a), (ctypes b); cbn [opp]; auto.
      now rewrite String.compare_antisym.
    + destruct (cargs a), (cargs b); auto.
      apply tuple_compare_antisym;
        auto using pyval_eqb_sym, pyval_compare_antisym.
  - cbn [opp]. now rewrite String.compare_antisym.
Qed.

Lemma cuid_compare_antisym (a b : list cid) :
  cuid_compare b a = opp (cuid_compare a b).
Proof.
  apply tuple_compare_antisym; auto using cid_eqb_sym, cid_compare_antisym.
Qed.

Lemma tuple_compare_eq {A} (eqb : A -> A -> bool)
  (cmp : A -> A -> result comparison) (l1 l2 : list A) :
  (forall x y, eqb x y = false -> cmp x y <> Ok Eq) ->
  (tuple_compare eqb cmp l1 l2 = Ok Eq <-> list_eqb eqb l1 l2 = true).
Proof.
  intros H. revert l2. induction l1 as [| x l1 IH]; intros [| y l2];
    cbn [tuple_compare list_eqb]; try (split; [reflexivity | reflexivity]);
    try (split; discriminate).
  destruct (eqb x y) eqn:E; cbn [andb]; [apply IH |].
  split; [intros C; now apply H in C | discriminate].
Qed.

Lemma pyval_compare_neq (a b : pyval) :
  pyval_eqb a b = false -> pyval_compare a b <> Ok Eq.
Proof.
  revert b. induction a; intros []; cbn [pyval_eqb pyval_compare];
    try discriminate.
  - intros E [= C]. apply Z.compare_eq in C. subst. now rewrite Z.eqb_refl in E.
  - intros E [= C]. apply String.compare_eq_iff in C. subst.
    now rewrite String.eqb_refl in E.
  - intros E. rewrite E. now apply IHa.
Qed.

Lemma cid_compare_neq (a b : cid) :
  cid_eqb a b = false -> cid_compare a b <> Ok Eq.
Proof.
  unfold cid_eqb, cid_compare.
  destruct (String.eqb (cname a) (cname b)) eqn:En; cbn [negb andb].
  - destruct (cidx_eqb (cargs a) (cargs b)) eqn:Ea; cbn [negb andb].
    + destruct (ctypes a), (ctypes b); try discriminate.
      intros E [= C]. apply String.compare_eq_iff in C. subst.
      now rewrite String.eqb_refl in E.
    + intros _. destruct (cargs a), (cargs b); try discriminate.
      cbn [cidx_eqb] in Ea. intros C.
      apply (tuple_compare_eq _ _ _ _ pyval_compare_neq) in C. congruence.
  - intros _ [= C]. apply String.compare_eq_iff in C.
    rewrite C, String.eqb_refl in En. discriminate.
Qed.

Lemma cuid_compare_eq (a b : list cid) :
  cuid_compare a b = Ok Eq <-> __eq__ a b = true.
Proof. apply tuple_compare_eq, cid_compare_neq. Qed.

Lemma tuple_compare_raises {A} (eqb : A -> A -> bool)
  (cmp : A -> A -> result comparison) (l1 l2 : list A) (e : exn) :
  (forall x y e', cmp x y = Raise e' -> e' = TypeError) ->
  tuple_compare eqb cmp l1 l2 = Raise e -> e = TypeError.
Proof.
  intros H. revert l2. induction l1 as [| x l1 IH]; intros [| y l2];
    cbn [tuple_compare]; try discriminate.
  destruct (eqb x y); [apply IH | apply H].
Qed.

Lemma pyval_compare_raises (a b : pyval) (e : exn) :
  pyval_compare a b = Raise e -> e = TypeError.
Proof.
  revert b. induction a; intros []; cbn [pyval_compare];
    try discriminate; try (now intros [= <-]).
  destruct (pyval_eqb a stop); [discriminate | apply IHa].
Qed.

Lemma cuid_compare_raises (a b : list cid) (e : exn) :
  cuid_compare a b = Raise e -> e = TypeError.
Proof.
  apply tuple_compare_raises. clear. intros x y e. unfold cid_compare.
  destruct (negb (String.eqb (cname x) (cname y))); [discriminate |].
  destruct (negb (cidx_eqb (cargs x) (cargs y))).
  - destruct (cargs x), (cargs y); try (now intros [= <-]).
    apply tuple_compare_raises. apply pyval_compare_raises.
  - destruct (ctypes x), (ctypes y); try discriminate; now intros [= <-].
Qed.

(** The four ordering operators and [__eq__] describe one order:
    [a > b] is [b < a] and [a >= b] is [b <= a], errors included;
    [a <= b] is [a < b or a == b]; and [a >= b] is the negation of
    [a < b].  An error is a TypeError from two values that do not
    order, and then all four operators raise it. *)
Theorem ordering_operators_agree (a b : list cid) :
  __gt__ a b = __lt__ b a
  /\ __ge__ a b = __le__ b a
  /\ __le__ a b = (lt <- __lt__ a b ;; Ok (lt || __eq__ a b))
  /\ __ge__ a b = (lt <- __lt__ a b ;; Ok (negb lt))
  /\ (forall e, __lt__ a b = Raise e -> e = TypeError).
Proof.
  unfold __gt__, __ge__, __lt__, __le__.
  rewrite (cuid_compare_antisym a b).
  pose proof (cuid_compare_eq a b) as He.
  pose proof (cuid_compare_raises a b) as Hr.
  destruct (cuid_compare a b) as [c | e]; cbn [opp bind].
  2: { repeat split; auto. intros e' [= <-]. now apply Hr. }
  assert (Hno : forall e : exn,
            Ok (match c with Lt => true | _ => false end) = Raise e ->
            e = TypeError) by discriminate.
  destruct (__eq__ a b).
  - assert (c = Eq) by (destruct He as [_ He]; specialize (He eq_refl);
                        congruence).
    subst c. auto.
  - destruct c; cbn [CompOpp orb negb]; auto.
    destruct He as [He _]. discriminate (He eq_refl).
Qed.

(** The order is decided at the leaf: [_cids] is stored leaf first,
    so two identifiers whose leaf names differ are ordered by those
    names, whatever their paths. *)
Theorem ordering_is_leaf_first (sa sb : cid) (ra rb : list cid) :
  cname sa <> cname sb ->
  __lt__ (sa :: ra) (sb :: rb) = Ok (String.ltb (cname sa) (cname sb))
  /\ __le__ (sa :: ra) (sb :: rb) = Ok (String.leb (cname sa) (cname sb))
  /\ __gt__ (sa :: ra) (sb :: rb) = Ok (String.ltb (cname sb) (cname sa))
  /\ __ge__ (sa :: ra) (sb :: rb) = Ok (String.leb (cname sb) (cname sa)).
Proof.
  intros Hne.
  assert (En : String.eqb (cname sa) (cname sb) = false)
    by now apply String.eqb_neq.
  assert (C : cuid_compare (sa :: ra) (sb :: rb)
              = Ok (String.compare (cname sa) (cname sb))).
  { unfold cuid_compare. cbn [tuple_compare]. unfold cid_eqb, cid_compare.
    now rewrite En. }
  unfold __lt__, __le__, __gt__, __ge__, String.ltb, String.leb.
  rewrite C. cbn [bind].
  rewrite (String.compare_antisym (cname sb) (cname sa)).
  destruct (String.compare (cname sa) (cname sb)); auto.
Qed.

Lemma ordering_is_leaf_first_witness :
  __lt__ [Cid "a" (IdxTuple []) (Some ""); Cid "z" (IdxTuple []) (Some "")]
    [Cid "b" (IdxTuple []) (Some ""); Cid "c" (IdxTuple []) (Some "")]
  = Ok (String.ltb "a" "b")
  /\ __le__ [Cid "a" (IdxTuple []) (Some ""); Cid "z" (IdxTuple []) (Some "")]
       [Cid "b" (IdxTuple []) (Some ""); Cid "c" (IdxTuple []) (Some "")]
     = Ok (String.leb "a" "b")
  /\ __gt__ [Cid "a" (IdxTuple []) (Some ""); Cid "z" (IdxTuple []) (Some "")]
       [Cid "b" (IdxTuple []) (Some ""); Cid "c" (IdxTuple []) (Some "")]
     = Ok (String.ltb "b" "a")
  /\ __ge__ [Cid "a" (IdxTuple []) (Some ""); Cid "z" (IdxTuple []) (Some "")]
       [Cid "b" (IdxTuple []) (Some ""); Cid "c" (IdxTuple []) (Some "")]
     = Ok (String.leb "b" "a").
Proof.
  apply (ordering_is_leaf_first (Cid "a" (IdxTuple []) (Some ""))
           (Cid "b" (IdxTuple []) (Some ""))
           [Cid "z" (IdxTuple []) (Some "")]
           [Cid "c" (IdxTuple []) (Some "")]).
  discriminate.
Defined.
